(** * mysql-sniffer-go: framing, command decoding, canonicalisation and the
      per-flow state machine, embedded from [mysql-sniffer.go] and
      [mysql_parser.go].

    Conventions of the embedding.
    - A Go byte is an [ascii]; [code c] is its value as an integer.  A Go
      [string] and the contents of a [[]byte] are both [list ascii]; a
      string literal is written [B "..."].
    - A Go slice variable that the code compares with [nil] is a [slice],
      that is an [option (list ascii)] with [None] for the nil slice.
    - Machine integers are [Z] with the wrap-around written out.
    - A function that may end the process ([log.Fatalf]) or whose library
      call may not return yields an [option], [None] standing for "no value
      is returned".  Loops that are not structurally recursive take fuel. *)

From Stdlib Require Import ZArith Lia List Ascii String Bool.
From Stdlib Require Import Numbers.DecimalString Floats.SpecFloat.
From stdpp Require Import base option list strings gmap.

Local Open Scope Z_scope.

(** ** Bytes *)

Definition slice := option (list ascii).

Definition B (s : string) : list ascii := list_ascii_of_string s.

Definition code (c : ascii) : Z := Z.of_N (N_of_ascii c).

Definition byte_of (z : Z) : ascii := ascii_of_N (Z.to_N z).

Definition bytes_of (s : slice) : list ascii := default [] s.

Definition beq (c : ascii) (z : Z) : bool := code c =? z.

Definition between (lo hi : Z) (c : ascii) : bool := (lo <=? code c) && (code c <=? hi).

(** ** The flags and the format the flow logic reads

    [verbose], [noclean], [dirty], [showRows] and [format] are package
    variables set once by [main] from the command line. *)

Inductive ftag := F_NONE | F_QUERY | F_ROUTE | F_SOURCE | F_SOURCEIP.

(** An element of the [format] slice ([[]interface{}]): an [int] tag or a
    [string]. *)
Inductive fitem :=
| FInt (f : ftag)
| FStr (s : list ascii).

Record config := Config {
  verbose : bool;
  noclean : bool;
  dirty : bool;
  showRows : bool;
  format : list fitem
}.

(** ** The tokenizer: [scanToken] *)

Inductive token := TOKEN_WORD | TOKEN_QUOTE | TOKEN_NUMBER | TOKEN_WHITESPACE | TOKEN_OTHER.

Definition isQuote (c : ascii) : bool := beq c 39 || beq c 34.
Definition isDigit (c : ascii) : bool := between 48 57 c.
Definition isSpace (c : ascii) : bool := beq c 32 || between 9 13 c.
Definition isLetter (c : ascii) : bool := between 65 90 c || between 97 122 c.
Definition isWordChar (c : ascii) : bool := isDigit c || isLetter c || (beq c 36 || beq c 95).

(** The loop of the quote case: [i] is the index of the head of [rest] in the
    query; the result is the token length. *)
Fixpoint scanQuote (started_with : ascii) (escaped : bool) (i : nat) (rest : list ascii) : nat :=
  match rest with
  | [] => i
  | c :: rest' =>
      if Ascii.eqb c started_with then
        if escaped then scanQuote started_with false (S i) rest'
        else S i
      else if beq c 92 then scanQuote started_with true (S i) rest'
      else scanQuote started_with false (S i) rest'
  end.

(** The loops of the number, whitespace and word cases: advance while the
    byte is allowed, return the index of the first byte that is not. *)
Fixpoint scanWhile (allowed : ascii -> bool) (i : nat) (rest : list ascii) : nat :=
  match rest with
  | [] => i
  | c :: rest' => if allowed c then scanWhile allowed (S i) rest' else i
  end.

Definition scanToken (cfg : config) (query : list ascii) : option (nat * token) :=
  match query with
  | [] => None
  | b :: rest =>
      if verbose cfg && noclean cfg then Some (length query, TOKEN_OTHER)
      else if isQuote b then Some (scanQuote b false 1 rest, TOKEN_QUOTE)
      else if isDigit b then Some (scanWhile isDigit 1 rest, TOKEN_NUMBER)
      else if isSpace b then Some (scanWhile isSpace 1 rest, TOKEN_WHITESPACE)
      else if isLetter b then Some (scanWhile isWordChar 1 rest, TOKEN_WORD)
      else Some (1%nat, TOKEN_OTHER)
  end.

(** ** Helpers of package [strings] used by the canonicalizer *)

(** [strings.Index] for a one-byte separator: the bytes before the first
    separator and the bytes after it. *)
Fixpoint cut (sep : ascii) (s : list ascii) : option (list ascii * list ascii) :=
  match s with
  | [] => None
  | c :: s' =>
      if Ascii.eqb c sep then Some ([], s')
      else match cut sep s' with
           | Some (l, r) => Some (c :: l, r)
           | None => None
           end
  end.

(** [strings.SplitN(s, sep, n)] for a one-byte separator and [n >= 0]. *)
Fixpoint SplitN (s : list ascii) (sep : ascii) (n : nat) : list (list ascii) :=
  match n with
  | O => []
  | S O => [s]
  | S n' => match cut sep s with
            | Some (l, r) => l :: SplitN r sep n'
            | None => [s]
            end
  end.

Definition Contains (s : list ascii) (sep : ascii) : bool := bool_decide (sep ∈ s).

Fixpoint hasPrefix (p s : list ascii) : bool :=
  match p, s with
  | [], _ => true
  | a :: p', b :: s' => Ascii.eqb a b && hasPrefix p' s'
  | _ :: _, [] => false
  end.

(** [strings.ReplaceAll(s, old, "")] for a non-empty [old]: the matches are
    found from the left and do not overlap.  [skip] counts the bytes of the
    current match that are still to be dropped. *)
Fixpoint removeAll (old : list ascii) (skip : nat) (s : list ascii) : list ascii :=
  match s with
  | [] => []
  | c :: s' =>
      match skip with
      | S k => removeAll old k s'
      | O => if hasPrefix old s then removeAll old (length old - 1) s'
             else c :: removeAll old 0 s'
      end
  end.

Definition ReplaceAll (s old : list ascii) : list ascii :=
  match old with
  | [] => s
  | _ => removeAll old 0 s
  end.

(** ** The canonicalizer: [cleanupQuery] *)

(** What one token appends to [qspace]. *)
Definition emit (toktype : token) (text : list ascii) : list ascii :=
  match toktype with
  | TOKEN_WORD | TOKEN_OTHER => text
  | TOKEN_NUMBER | TOKEN_QUOTE => B "?"
  | TOKEN_WHITESPACE => B " "
  end.

(** The token loop [for i := 0; i < len(query); { ... i += length }], on the
    rest [query[i:]] of the query; one unit of fuel per iteration. *)
Fixpoint tokenLoop (cfg : config) (fuel : nat) (query : list ascii) : option (list (list ascii)) :=
  match query with
  | [] => Some []
  | _ :: _ =>
      match fuel with
      | O => None
      | S fuel' =>
          '(len, toktype) ← scanToken cfg query;
          qspace ← tokenLoop cfg fuel' (drop len query);
          Some (emit toktype (take len query) :: qspace)
      end
  end.

(** The rewriting of the route comment applied to the joined text. *)
Definition stripHost (tmp : list ascii) : list ascii :=
  match SplitN tmp " "%char 5 with
  | [p0; p1; p2; p3; p4] =>
      if bool_decide (p1 = B "/*") && bool_decide (p3 = B "*/") then
        if Contains p2 ":"%char then
          p0 ++ B " /* " ++ nth 1 (SplitN p2 ":"%char 2) [] ++ B " */ " ++ p4
        else tmp
      else tmp
  | _ => tmp
  end.

Definition cleanupQueryFuel (cfg : config) (fuel : nat) (query : list ascii) : option (list ascii) :=
  qspace ← tokenLoop cfg fuel query;
  Some (ReplaceAll (stripHost (concat qspace)) (B "?, ")).

(** The loop runs at most [len(query)] times (see [tokenLoop_total]). *)
Definition cleanupQuery (cfg : config) (query : list ascii) : option (list ascii) :=
  cleanupQueryFuel cfg (length query) query.

(** ** The wire framer: [carvePacket] *)

Definition uint16 (z : Z) : Z := z mod 2 ^ 16.
Definition uint32 (z : Z) : Z := z mod 2 ^ 32.
Definition uint64 (z : Z) : Z := z mod 2 ^ 64.

(** [mysql.COM_QUERY] *)
Definition COM_QUERY : Z := 3.

Inductive carveError := ErrHeaderTooSmall | ErrIncompletePacket.

(** [b[i]] for an index the code has checked to be in range. *)
Definition at_ (b : list ascii) (i : nat) : ascii := nth i b zero.

(** [carvePacket(&buf)]: the new value of [*buf], and either the error or
    the command byte with the payload after it. *)
Definition carvePacket (buf : slice) : slice * (carveError + ascii * list ascii) :=
  let b := bytes_of buf in
  let dataLen := uint32 (Z.of_nat (length b)) in
  if dataLen <? 5 then (buf, inl ErrHeaderTooSmall)
  else
    let size := uint32 (code (at_ b 0) + uint32 (Z.shiftl (code (at_ b 1)) 8)
                        + uint32 (Z.shiftl (code (at_ b 2)) 16)) in
    if (size =? 0) || (dataLen <? uint32 (size + 4)) then (buf, inl ErrIncompletePacket)
    else
      let end_ := uint32 (size + 4) in
      let pType := at_ b 4 in
      let data := drop 5 (take (Z.to_nat (uint32 (size + 4))) b) in
      let buf' := if end_ >=? dataLen then None else Some (drop (Z.to_nat end_) b) in
      (buf', inr (pType, data)).

(** ** Length-encoded integers *)

(** Little-endian value of a run of bytes. *)
Fixpoint le_value (bs : list ascii) : Z :=
  match bs with
  | [] => 0
  | c :: bs' => Z.lor (code c) (Z.shiftl (le_value bs') 8)
  end.

(** Modelled from the spec: [mysql.LengthEncodedInt] of the go-mysql
    library, which the sources import but do not contain.  The result is
    the value, the null flag and the number of bytes read, as the callers
    destructure it: a first byte below 0xFB is the value itself, 0xFB is
    null, 0xFC, 0xFD and 0xFE prefix a little-endian value of 2, 3 and 8
    bytes.  With too few bytes nothing is returned; the spec gives 0xFF no
    value, so nothing is returned there either. *)
Definition LengthEncodedInt (b : list ascii) : option (Z * bool * nat) :=
  match b with
  | [] => None
  | c :: rest =>
      if code c <? 251 then Some (code c, false, 1%nat)
      else if code c =? 251 then Some (0, true, 1%nat)
      else if code c =? 252 then
        if (2 <=? length rest)%nat then Some (le_value (take 2 rest), false, 3%nat) else None
      else if code c =? 253 then
        if (3 <=? length rest)%nat then Some (le_value (take 3 rest), false, 4%nat) else None
      else if code c =? 254 then
        if (8 <=? length rest)%nat then Some (le_value (take 8 rest), false, 9%nat) else None
      else None
  end.

(** ** The command payload decoder: [parseComQuery] *)

Inductive comQueryError :=
| ErrEmptyComQuery
| ErrMissingParamSetCount
| ErrParamSetCountNull
| ErrParamsUnsupported (paramCount : Z)
| ErrMissingQueryText.

Definition parseComQuery (data : list ascii) : option (comQueryError + list ascii) :=
  match data with
  | [] => Some (inl ErrEmptyComQuery)
  | firstByte :: _ =>
      if (code firstByte <? 32) || (code firstByte >=? 251) then
        let offset := 0%nat in
        '(paramCount, isNull, bytesRead) ← LengthEncodedInt (drop offset data);
        if isNull || (bytesRead =? 0)%nat then Some (inr data)
        else
          let offset := (offset + bytesRead)%nat in
          if (length data <=? offset)%nat then Some (inl ErrMissingParamSetCount)
          else
            '(paramSetCount, isNull, bytesRead) ← LengthEncodedInt (drop offset data);
            if isNull : bool then Some (inl ErrParamSetCountNull)
            else
              let offset := (offset + bytesRead)%nat in
              if paramCount >? 0 then Some (inl (ErrParamsUnsupported paramCount))
              else if (length data <=? offset)%nat then Some (inl ErrMissingQueryText)
              else Some (inr (drop offset data))
      else Some (inr data)
  end.

(** ** The OK packet decoder: [parseOKPacket] *)

Definition ESC : ascii := byte_of 27.
Definition COLOR_RED : list ascii := ESC :: B "[31m".
Definition COLOR_GREEN : list ascii := ESC :: B "[32m".
Definition COLOR_YELLOW : list ascii := ESC :: B "[33m".
Definition COLOR_CYAN : list ascii := ESC :: B "[36m".
Definition COLOR_WHITE : list ascii := ESC :: B "[37m".
Definition COLOR_DEFAULT : list ascii := ESC :: B "[39m".

(** The verb [%d] of [fmt.Sprintf] on an unsigned integer. *)
Definition fmt_d (n : Z) : list ascii := B (NilEmpty.string_of_uint (N.to_uint (Z.to_N n))).

(** The values [parseOKPacket] decodes: affected rows, last insert id and
    warnings. *)
Definition decodeOK (data : list ascii) : option (Z * Z * Z) :=
  let pos := 1%nat in
  '(affectedRows, _, n) ← LengthEncodedInt (drop pos data);
  let pos := (pos + n)%nat in
  '(lastInsertID, _, n) ← LengthEncodedInt (drop pos data);
  let pos := (pos + n)%nat in
  let warnings :=
    if (pos + 4 <=? length data)%nat then
      let pos := (pos + 2)%nat in
      uint16 (Z.lor (code (at_ data pos)) (uint16 (Z.shiftl (code (at_ data (pos + 1))) 8)))
    else 0 in
  Some (affectedRows, lastInsertID, warnings).

Definition parseOKPacket (data : list ascii) : option (list ascii) :=
  if (length data <? 7)%nat then Some (B "OK")
  else
    '(affectedRows, lastInsertID, warnings) ← decodeOK data;
    let result := COLOR_GREEN ++ B "OK" ++ COLOR_DEFAULT in
    let result :=
      if affectedRows >? 0
      then result ++ B ", " ++ COLOR_YELLOW ++ fmt_d affectedRows ++ B " row(s) affected" ++ COLOR_DEFAULT
      else result in
    let result :=
      if lastInsertID >? 0
      then result ++ B ", " ++ COLOR_CYAN ++ B "last insert ID: " ++ fmt_d lastInsertID ++ COLOR_DEFAULT
      else result in
    let result :=
      if warnings >? 0
      then result ++ B ", " ++ COLOR_YELLOW ++ fmt_d warnings ++ B " warning(s)" ++ COLOR_DEFAULT
      else result in
    Some result.

(** [strings.Contains] for an arbitrary needle. *)
Fixpoint ContainsStr (s sub : list ascii) : bool :=
  hasPrefix sub s ||
  match s with
  | [] => false
  | _ :: s' => ContainsStr s' sub
  end.

(** ** The format template parser: [parseFormat] *)

(** [strings.TrimSpace] on an ASCII string. *)
Fixpoint dropSpace (s : list ascii) : list ascii :=
  match s with
  | c :: s' => if isSpace c then dropSpace s' else s
  | [] => []
  end.

Definition TrimSpace (s : list ascii) : list ascii :=
  reverse (dropSpace (reverse (dropSpace s))).

(** [strings.ToLower] on one ASCII character. *)
Definition ToLower (c : ascii) : ascii :=
  if between 65 90 c then byte_of (code c + 32) else c.

(** The loop [for _, char := range formatstr] with the variables
    [is_special], [curstr] and the global [format]; [do_append] is [F_NONE]
    at the start of every iteration.  The template is taken to be ASCII:
    every character that [range] yields is one byte. *)
Fixpoint parseFormatLoop (chars : list ascii) (is_special : bool)
    (curstr : list ascii) (format : list fitem) : list fitem :=
  match chars with
  | [] => if bool_decide (curstr <> []) then format ++ [FStr curstr] else format
  | char :: chars' =>
      if Ascii.eqb char "#" then
        if is_special then parseFormatLoop chars' false (curstr ++ [char]) format
        else parseFormatLoop chars' true curstr format
      else
        let '(do_append, curstr) :=
          if is_special then
            if Ascii.eqb (ToLower char) "s" then (F_SOURCE, curstr)
            else if Ascii.eqb (ToLower char) "i" then (F_SOURCEIP, curstr)
            else if Ascii.eqb (ToLower char) "r" then (F_ROUTE, curstr)
            else if Ascii.eqb (ToLower char) "q" then (F_QUERY, curstr)
            else (F_NONE, curstr ++ B "#" ++ [char])
          else (F_NONE, curstr ++ [char]) in
        match do_append with
        | F_NONE => parseFormatLoop chars' false curstr format
        | _ =>
            if bool_decide (curstr <> [])
            then parseFormatLoop chars' false [] (format ++ [FStr curstr; FInt do_append])
            else parseFormatLoop chars' false curstr (format ++ [FInt do_append])
        end
  end.

(** [parseFormat(formatstr)] appends to the global [format], here
    [format0]. *)
Definition parseFormat (format0 : list fitem) (formatstr : list ascii) : list fitem :=
  let formatstr := TrimSpace formatstr in
  let formatstr := if bool_decide (formatstr = []) then B "#b:#k" else formatstr in
  parseFormatLoop formatstr false [] format0.

(** ** The flow state machine *)

Definition TIME_BUCKETS : nat := Z.to_nat 10000.

(** [int] is 64 bits wide. *)
Definition int (z : Z) : Z := (z + 2 ^ 63) mod 2 ^ 64 - 2 ^ 63.

(** [time.Duration] saturates at the bounds of [int64]. *)
Definition Duration (z : Z) : Z := Z.max (- 2 ^ 63) (Z.min (2 ^ 63 - 1) z).

Record queryData := QueryData {
  qd_count : Z;
  qd_bytes : Z;
  qd_times : list Z
}.

(** The zero value [&queryData{}]. *)
Definition newQueryData : queryData := QueryData 0 0 (replicate TIME_BUCKETS 0).

(** A flow.  [reqSent] is the optional request timestamp, in nanoseconds;
    [qData] points into [qbuf], whose entries are never removed, and is
    represented by the key of the entry it points to. *)
Record source := Source {
  hostPort : list ascii;
  srcIP : list ascii;
  synced : bool;
  reqBuffer : slice;
  respBuffer : slice;
  reqSent : option Z;
  reqTimes : list Z;
  qBytes : Z;
  qData : option (list ascii);
  qText : list ascii
}.

(** The package-level variables the flow logic updates. *)
Record globals := Globals {
  qbuf : gmap (list ascii) queryData;
  queryCount : Z;
  chmap : gmap (list ascii) source;
  times : list Z;
  rcvd : Z;
  rcvd_sync : Z;
  desyncs : Z;
  streams : Z
}.

Definition set_synced (v : bool) (rs : source) : source :=
  Source (hostPort rs) (srcIP rs) v (reqBuffer rs) (respBuffer rs) (reqSent rs)
         (reqTimes rs) (qBytes rs) (qData rs) (qText rs).
Definition set_reqBuffer (v : slice) (rs : source) : source :=
  Source (hostPort rs) (srcIP rs) (synced rs) v (respBuffer rs) (reqSent rs)
         (reqTimes rs) (qBytes rs) (qData rs) (qText rs).
Definition set_respBuffer (v : slice) (rs : source) : source :=
  Source (hostPort rs) (srcIP rs) (synced rs) (reqBuffer rs) v (reqSent rs)
         (reqTimes rs) (qBytes rs) (qData rs) (qText rs).
Definition set_reqSent (v : option Z) (rs : source) : source :=
  Source (hostPort rs) (srcIP rs) (synced rs) (reqBuffer rs) (respBuffer rs) v
         (reqTimes rs) (qBytes rs) (qData rs) (qText rs).
Definition set_reqTimes (v : list Z) (rs : source) : source :=
  Source (hostPort rs) (srcIP rs) (synced rs) (reqBuffer rs) (respBuffer rs) (reqSent rs)
         v (qBytes rs) (qData rs) (qText rs).
Definition set_query (text : list ascii) (plen : Z) (rs : source) : source :=
  Source (hostPort rs) (srcIP rs) (synced rs) (reqBuffer rs) (respBuffer rs) (reqSent rs)
         (reqTimes rs) plen (Some text) text.

Definition set_qbuf (v : gmap (list ascii) queryData) (g : globals) : globals :=
  Globals v (queryCount g) (chmap g) (times g) (rcvd g) (rcvd_sync g) (desyncs g) (streams g).
Definition set_queryCount (v : Z) (g : globals) : globals :=
  Globals (qbuf g) v (chmap g) (times g) (rcvd g) (rcvd_sync g) (desyncs g) (streams g).
Definition set_chmap (v : gmap (list ascii) source) (g : globals) : globals :=
  Globals (qbuf g) (queryCount g) v (times g) (rcvd g) (rcvd_sync g) (desyncs g) (streams g).
Definition set_times (v : list Z) (g : globals) : globals :=
  Globals (qbuf g) (queryCount g) (chmap g) v (rcvd g) (rcvd_sync g) (desyncs g) (streams g).
Definition set_rcvd (v : Z) (g : globals) : globals :=
  Globals (qbuf g) (queryCount g) (chmap g) (times g) v (rcvd_sync g) (desyncs g) (streams g).
Definition set_rcvd_sync (v : Z) (g : globals) : globals :=
  Globals (qbuf g) (queryCount g) (chmap g) (times g) (rcvd g) v (desyncs g) (streams g).
Definition set_desyncs (v : Z) (g : globals) : globals :=
  Globals (qbuf g) (queryCount g) (chmap g) (times g) (rcvd g) (rcvd_sync g) v (streams g).
Definition set_streams (v : Z) (g : globals) : globals :=
  Globals (qbuf g) (queryCount g) (chmap g) (times g) (rcvd g) (rcvd_sync g) (desyncs g) v.

(** [rs.qData.bytes += n], through the pointer. *)
Definition addBytes (n : Z) (qd : queryData) : queryData :=
  QueryData (qd_count qd) (uint64 (qd_bytes qd + n)) (qd_times qd).

(** The text one format item contributes. *)
Definition formatItem (cfg : config) (rs : source) (pdata : list ascii) (item : fitem)
    : option (list ascii) :=
  match item with
  | FInt F_NONE => None
  | FInt F_QUERY =>
      if dirty cfg then Some pdata else cleanupQuery cfg pdata
  | FInt F_ROUTE =>
      let parts := SplitN pdata " "%char 5 in
      if (4 <=? length parts)%nat && bool_decide (nth 1 parts [] = B "/*")
         && bool_decide (nth 3 parts [] = B "*/") then
        if Contains (nth 2 parts []) ":"%char
        then Some (nth 1 (SplitN (nth 2 parts []) ":"%char 2) [])
        else Some (nth 2 parts [])
      else
        c ← cleanupQuery cfg pdata; Some (B "(unknown) " ++ c)
  | FInt F_SOURCE => Some (hostPort rs)
  | FInt F_SOURCEIP => Some (srcIP rs)
  | FStr s => Some s
  end.

Fixpoint formatItems (cfg : config) (rs : source) (pdata : list ascii)
    (items : list fitem) (text : list ascii) : option (list ascii) :=
  match items with
  | [] => Some text
  | item :: items' =>
      t ← formatItem cfg rs pdata item;
      formatItems cfg rs pdata items' (text ++ t)
  end.

Definition formatQueryText (cfg : config) (rs : source) (pdata : list ascii)
    : option (list ascii) :=
  formatItems cfg rs pdata (format cfg) [].

(** [processRequest(rs, data)] at time [now]. *)
Definition processRequest (cfg : config) (now : Z) (g : globals) (rs : source) (data : slice)
    : option (globals * source) :=
  let '(g, rs) :=
    match respBuffer rs with
    | Some _ => (set_desyncs (uint64 (desyncs g + 1)) g,
                 set_synced false (set_respBuffer None rs))
    | None => (g, rs)
    end in
  let rs := set_reqBuffer data rs in
  let '(buf, carved) := carvePacket (reqBuffer rs) in
  let rs := set_reqBuffer buf rs in
  match carved with
  | inl _ => Some (g, rs)
  | inr (pType, pData) =>
      if negb (synced rs) && negb (code pType =? COM_QUERY) then
        Some (g, set_respBuffer None (set_reqBuffer None rs))
      else
        let rs := if negb (synced rs) then set_synced true rs else rs in
        parsed ← (if code pType =? COM_QUERY then parseComQuery pData
                  else Some (inr pData));
        match parsed with
        | inl _ => Some (g, rs)
        | inr parsedQuery =>
            let rs := set_reqSent (Some now) rs in
            let g := set_queryCount (int (queryCount g + 1)) g in
            text ← formatQueryText cfg rs parsedQuery;
            let plen := uint64 (Z.of_nat (length pData)) in
            let qdata := default newQueryData (qbuf g !! text) in
            let qdata := QueryData (uint64 (qd_count qdata + 1))
                                   (uint64 (qd_bytes qdata + plen)) (qd_times qdata) in
            Some (set_qbuf (<[text := qdata]> (qbuf g)) g, set_query text plen rs)
        end
  end.

(** [processResponse(rs, data)] at time [now], with [randn] the value of
    [rand.Intn(TIME_BUCKETS)].  The verbose display only writes to the log,
    which is not part of the state. *)
Definition processResponse (now : Z) (randn : nat) (g : globals) (rs : source) (data : slice)
    : globals * source :=
  let rs :=
    match respBuffer rs with
    | None => set_respBuffer data rs
    | Some buf => set_respBuffer (Some (buf ++ bytes_of data)) rs
    end in
  let dlen := uint64 (Z.of_nat (length (bytes_of data))) in
  match reqSent rs with
  | None =>
      match qData rs with
      | Some key => (set_qbuf (alter (addBytes dlen) key (qbuf g)) g, rs)
      | None => (g, rs)
      end
  | Some sent =>
      let reqtime := uint64 (Duration (now - sent)) in
      let rs := set_reqTimes (<[randn := reqtime]> (reqTimes rs)) rs in
      let g := set_times (<[randn := reqtime]> (times g)) g in
      let g :=
        match qData rs with
        | Some key =>
            set_qbuf (alter (fun qd => addBytes dlen
                        (QueryData (qd_count qd) (qd_bytes qd) (<[randn := reqtime]> (qd_times qd))))
                        key (qbuf g)) g
        | None => g
        end in
      let rs := set_reqSent None rs in
      let rs := set_respBuffer None rs in
      (g, rs)
  end.

Definition processPacket (cfg : config) (now : Z) (randn : nat) (g : globals)
    (rs : source) (request : bool) (data : slice) : option (globals * source) :=
  let g := set_rcvd (uint64 (rcvd g + 1)) g in
  let g := if synced rs then set_rcvd_sync (uint64 (rcvd_sync g + 1)) g else g in
  if request then processRequest cfg now g rs data
  else Some (processResponse now randn g rs data).

(** One captured segment, as [handlePacket] has it once the layers are
    decoded: the client endpoint [src], the direction, the payload, and the
    two values the processing reads from its environment. *)
Record segment := Segment {
  seg_src : list ascii;
  seg_request : bool;
  seg_payload : list ascii;
  seg_now : Z;
  seg_randn : nat
}.

Definition newSource (src srcIP : list ascii) : source :=
  Source src srcIP false None None None (replicate TIME_BUCKETS 0) 0 None [].

(** The part of [handlePacket] after the decoding of the layers. *)
Definition handlePacket (cfg : config) (g : globals) (seg : segment) : option globals :=
  if (length (seg_payload seg) =? 0)%nat then Some g
  else
    '(g, rs) ← match chmap g !! seg_src seg with
               | Some rs => Some (g, rs)
               | None =>
                   '(ip, _) ← cut ":"%char (seg_src seg);
                   let rs := newSource (seg_src seg) ip in
                   Some (set_streams (uint64 (streams g + 1)) g, rs)
               end;
    '(g, rs) ← processPacket cfg (seg_now seg) (seg_randn seg) g rs
                 (seg_request seg) (Some (seg_payload seg));
    Some (set_chmap (<[seg_src seg := rs]> (chmap g)) g).

(** The capture loop. *)
Fixpoint run (cfg : config) (segs : list segment) (g : globals) : option globals :=
  match segs with
  | [] => Some g
  | seg :: segs' => g' ← handlePacket cfg g seg; run cfg segs' g'
  end.

(** The state at program start. *)
Definition initial : globals :=
  Globals ∅ 0 ∅ (replicate TIME_BUCKETS 0) 0 0 0 0.

(** ** The latency aggregates: [calculateTimes] *)

(** [float64] values, as IEEE 754 binary64 numbers. *)
Definition float64 := spec_float.

(** The conversion [float64(x)] of an unsigned integer, and the quotient of
    two [float64], both rounded to nearest even. *)
Definition float64_of_uint64 (x : Z) : float64 := binary_normalize 53 1024 x 0 false.
Definition float64_div (x y : float64) : float64 := SFdiv 53 1024 x y.

(** The variables of the loop of [calculateTimes]. *)
Record timeAcc := TimeAcc {
  t_counts : Z;
  t_total : Z;
  t_min : Z;
  t_max : Z;
  t_has_min : bool
}.

Definition timeStep (acc : timeAcc) (val : Z) : timeAcc :=
  if val =? 0 then acc
  else
    let '(mn, has_min) :=
      if (val <? t_min acc) || negb (t_has_min acc) then (val, true)
      else (t_min acc, t_has_min acc) in
    let mx := if val >? t_max acc then val else t_max acc in
    TimeAcc (uint64 (t_counts acc + 1)) (uint64 (t_total acc + val)) mn mx has_min.

(** The three [uint64] values [min], [avg], [max] before their conversion. *)
Definition timeStats (timings : list Z) : Z * Z * Z :=
  let acc := fold_left timeStep timings (TimeAcc 0 0 0 0 false) in
  let avg := if t_counts acc >? 0 then t_total acc / t_counts acc else 0 in
  (t_min acc, avg, t_max acc).

(** Nanoseconds to milliseconds: [float64(x) / 1000000]. *)
Definition toMs (x : Z) : float64 := float64_div (float64_of_uint64 x) (float64_of_uint64 1000000).

Definition calculateTimes (timings : list Z) : float64 * float64 * float64 :=
  let '(mn, avg, mx) := timeStats timings in
  (toMs mn, toMs avg, toMs mx).

(** [a <= b + tol] on [float64]. *)
Definition leWithin (tol a b : float64) : bool := SFleb a (SFadd 53 1024 b tol).

(** ** The response framer: [collectAllResponsePackets] *)

(** The loop [for len(buf) >= 4 { ... }] with its variables [buf] and
    [packets]; one unit of fuel per packet taken. *)
Fixpoint collectLoop (fuel : nat) (buf : list ascii) (packets : list (list ascii))
    : option (list (list ascii)) :=
  if (4 <=? length buf)%nat then
    let size := Z.lor (Z.lor (code (at_ buf 0)) (uint32 (Z.shiftl (code (at_ buf 1)) 8)))
                      (uint32 (Z.shiftl (code (at_ buf 2)) 16)) in
    if (size =? 0) || (Z.of_nat (length buf) <? int (int size + 4)) then Some packets
    else
      match fuel with
      | O => None
      | S fuel' =>
          let packetData := drop 4 (take (Z.to_nat (uint32 (size + 4))) buf) in
          collectLoop fuel' (drop (Z.to_nat (uint32 (size + 4))) buf) (packets ++ [packetData])
      end
  else Some packets.

(** Every iteration drops at least five bytes (see
    [collectAllResponsePackets_decomposes]). *)
Definition collectAllResponsePackets (buffer : list ascii) : option (list (list ascii)) :=
  collectLoop (length buffer) buffer [].

(** ** The error packet decoder: [parseErrorPacket] *)

(** [parseErrorPacket(data)].  An index or a slice bound out of range ends
    the process, so every [data[i]] is a lookup and [None] stands for the
    fault. *)
Definition parseErrorPacket (data : list ascii) : option (list ascii) :=
  if (length data <? 9)%nat then Some (B "ERROR")
  else
    let pos := 1%nat in
    lo ← data !! pos;
    hi ← data !! (pos + 1)%nat;
    let errorCode := uint16 (Z.lor (code lo) (uint16 (Z.shiftl (code hi) 8))) in
    let pos := (pos + 2)%nat in
    marker ← data !! pos;
    '(sqlState, message) ←
      (if Ascii.eqb marker "#" then
         let pos := (pos + 1)%nat in
         if (pos + 5 <=? length data)%nat
         then Some (take 5 (drop pos data), drop (pos + 5) data)
         else None
       else Some ([], drop pos data));
    if bool_decide (sqlState <> []) then
      Some (COLOR_RED ++ B "ERROR " ++ fmt_d errorCode ++ B " (" ++ sqlState ++ B "): "
            ++ message ++ COLOR_DEFAULT)
    else
      Some (COLOR_RED ++ B "ERROR " ++ fmt_d errorCode ++ B ": " ++ message ++ COLOR_DEFAULT).

(** ** The sort interface of the status display: [sortableSlice] *)

Record sortable := Sortable {
  value : float64;
  line : list ascii
}.

Abbreviation sortableSlice := (list sortable).

(** [s[i]] for an [int] index; a negative index, or one that is not below
    the length, ends the process. *)
Definition index {A : Type} (s : list A) (i : Z) : option A :=
  if i <? 0 then None else s !! Z.to_nat i.

Definition Len (s : sortableSlice) : Z := int (Z.of_nat (length s)).

(** [s[i].value < s[j].value], the comparison of IEEE 754. *)
Definition Less (s : sortableSlice) (i j : Z) : option bool :=
  a ← index s i; b ← index s j; Some (SFltb (value a) (value b)).

(** [s[i], s[j] = s[j], s[i]]: both entries are read, then [s[i]] and
    [s[j]] are written in this order. *)
Definition Swap (s : sortableSlice) (i j : Z) : option sortableSlice :=
  b ← index s j; a ← index s i;
  Some (<[Z.to_nat j := a]> (<[Z.to_nat i := b]> s)).

(** ** Vocabulary of the canonicalizer claims *)

(** The text joined from the tokens, [strings.Join(qspace, "")], before the
    route comment is rewritten and ["?, "] removed. *)
Definition tokenText (cfg : config) (query : list ascii) : option (list ascii) :=
  qspace ← tokenLoop cfg (length query) query; Some (concat qspace).

(** The two last steps of [cleanupQuery]. *)
Definition finish (tmp : list ascii) : list ascii := ReplaceAll (stripHost tmp) (B "?, ").

(** The tokens of a query with their types and texts: the token loop again,
    keeping what [scanToken] found. *)
Fixpoint lexLoop (cfg : config) (fuel : nat) (query : list ascii)
    : option (list (token * list ascii)) :=
  match query with
  | [] => Some []
  | _ :: _ =>
      match fuel with
      | O => None
      | S fuel' =>
          '(len, toktype) ← scanToken cfg query;
          toks ← lexLoop cfg fuel' (drop len query);
          Some ((toktype, take len query) :: toks)
      end
  end.

Definition lex (cfg : config) (query : list ascii) : option (list (token * list ascii)) :=
  lexLoop cfg (length query) query.

(** The text a list of tokens is joined to. *)
Definition emitAll (toks : list (token * list ascii)) : list ascii :=
  concat (map (fun tk => emit tk.1 tk.2) toks).

(** ** Queries that differ only in literals, lists, whitespace or host *)

(** The number of spaces of a text. *)
Fixpoint spaces (x : list ascii) : nat :=
  match x with
  | [] => 0
  | c :: x' => ((if Ascii.eqb c " " then 1 else 0) + spaces x')%nat
  end.

(** A numeric or string literal. *)
Definition isLiteral (tk : token * list ascii) : Prop :=
  tk.1 = TOKEN_NUMBER \/ tk.1 = TOKEN_QUOTE.

(** The tokens of [ /* ] and [ */ ] with their surrounding whitespace. *)
Definition commentOpen (w1 w2 : list ascii) : list (token * list ascii) :=
  [(TOKEN_WHITESPACE, w1); (TOKEN_OTHER, B "/"); (TOKEN_OTHER, B "*"); (TOKEN_WHITESPACE, w2)].
Definition commentClose (w1 w2 : list ascii) : list (token * list ascii) :=
  [(TOKEN_WHITESPACE, w1); (TOKEN_OTHER, B "*"); (TOKEN_OTHER, B "/"); (TOKEN_WHITESPACE, w2)].

(** One difference between two token lists: the digits of a number, the
    contents of a quoted string, the length of a whitespace run, one more
    literal in a comma-separated list, or a [host:] prefix in the comment
    that follows the first field.  With [strict] the list separator is a
    comma followed by whitespace and the list starts after four spaces of
    the joined text, and neither host nor route contains a colon. *)
Inductive differ (strict : bool) : list (token * list ascii) -> list (token * list ascii) -> Prop :=
| differ_number pre a b post :
    differ strict (pre ++ (TOKEN_NUMBER, a) :: post) (pre ++ (TOKEN_NUMBER, b) :: post)
| differ_quote pre a b post :
    differ strict (pre ++ (TOKEN_QUOTE, a) :: post) (pre ++ (TOKEN_QUOTE, b) :: post)
| differ_space pre a b post :
    differ strict (pre ++ (TOKEN_WHITESPACE, a) :: post) (pre ++ (TOKEN_WHITESPACE, b) :: post)
| differ_list pre l1 w l2 post :
    isLiteral l1 -> isLiteral l2 ->
    (strict = true -> (4 <= spaces (emitAll pre))%nat) ->
    differ strict (pre ++ l1 :: (TOKEN_OTHER, B ",") :: (TOKEN_WHITESPACE, w) :: l2 :: post)
                  (pre ++ l2 :: post)
| differ_list_tight pre l1 l2 post :
    strict = false ->
    isLiteral l1 -> isLiteral l2 ->
    differ strict (pre ++ l1 :: (TOKEN_OTHER, B ",") :: l2 :: post) (pre ++ l2 :: post)
| differ_host pre w1 w2 host route w3 w4 post :
    (" "%char ∉ emitAll pre) -> (" "%char ∉ emitAll host) -> (" "%char ∉ emitAll route) ->
    (strict = true -> (":"%char ∉ emitAll host) /\ (":"%char ∉ emitAll route)) ->
    differ strict
      (pre ++ commentOpen w1 w2 ++ host ++ [(TOKEN_OTHER, B ":")] ++ route
           ++ commentClose w3 w4 ++ post)
      (pre ++ commentOpen w1 w2 ++ route ++ commentClose w3 w4 ++ post).

(** Two queries that differ only in such ways, in any number. *)
Inductive differOnly (strict : bool) (cfg : config) : list ascii -> list ascii -> Prop :=
| differOnly_one q1 q2 ts1 ts2 :
    lex cfg q1 = Some ts1 -> lex cfg q2 = Some ts2 -> differ strict ts1 ts2 ->
    differOnly strict cfg q1 q2
| differOnly_refl q : differOnly strict cfg q q
| differOnly_sym q1 q2 : differOnly strict cfg q1 q2 -> differOnly strict cfg q2 q1
| differOnly_trans q1 q2 q3 :
    differOnly strict cfg q1 q2 -> differOnly strict cfg q2 q3 -> differOnly strict cfg q1 q3.

(** ** Texts the token stage leaves unchanged *)

(** A scan of the text remembers whether the last byte was a space, was
    part of a word, or was anything else. *)
Inductive scanState := SSpace | SOther | SWord.

(** One byte of a text that the tokenizer would emit again unchanged: no
    quote, no whitespace but single spaces (runs of spaces are accepted when
    [runs] is set), digits only inside words. *)
Definition tstep (runs : bool) (s : scanState) (c : ascii) : option scanState :=
  if isQuote c then None
  else if isSpace c then
    if beq c 32 then
      match s with
      | SSpace => if runs then Some SSpace else None
      | _ => Some SSpace
      end
    else None
  else if isDigit c then
    match s with SWord => Some SWord | _ => None end
  else if isLetter c then Some SWord
  else if beq c 36 || beq c 95 then
    match s with SWord => Some SWord | _ => Some SOther end
  else Some SOther.

Fixpoint trun (runs : bool) (s : scanState) (x : list ascii) : option scanState :=
  match x with
  | [] => Some s
  | c :: x' => s' ← tstep runs s c; trun runs s' x'
  end.

(** [stable x]: the token stage maps [x] to itself (see [tokenText_stable]). *)
Definition stable (x : list ascii) : Prop := is_Some (trun false SOther x).

(** The same, except that runs of spaces may occur. *)
Definition stableUpToSpaces (x : list ascii) : Prop := is_Some (trun true SOther x).

(** Removal of ["?, "] written by pattern matching (see [ReplaceAll_elide]). *)
Fixpoint elide (x : list ascii) : list ascii :=
  match x with
  | [] => []
  | c :: x' =>
      match x' with
      | c1 :: c2 :: x'' =>
          if Ascii.eqb c "?" && Ascii.eqb c1 "," && Ascii.eqb c2 " " then elide x''
          else c :: elide x'
      | _ => c :: elide x'
      end
  end.

(** ** Vocabulary of the flow invariants *)

(** The command byte the framer finds in a request payload, if any. *)
Definition framedCommand (payload : list ascii) : option ascii :=
  match carvePacket (Some payload) with
  | (_, inr (pType, _)) => Some pType
  | (_, inl _) => None
  end.

(** Processing the request segment [seg] in state [g] records a command:
    it reaches the statements that stamp [reqSent] and count the query
    ([queryCount++] happens there and nowhere else). *)
Definition recorded (cfg : config) (g : globals) (seg : segment) : Prop :=
  seg_request seg = true /\
  exists g', handlePacket cfg g seg = Some g' /\ queryCount g' <> queryCount g.

(** The same, for a command whose command byte is [COM_QUERY]. *)
Definition recordedComQuery (cfg : config) (g : globals) (seg : segment) : Prop :=
  recorded cfg g seg /\
  exists c, framedCommand (seg_payload seg) = Some c /\ code c = COM_QUERY.

(** [seg] is a response segment of flow [f] that gets processed (a segment
    without payload is dropped before any processing). *)
Definition isResponseOf (f : list ascii) (seg : segment) : Prop :=
  seg_src seg = f /\ seg_request seg = false /\ seg_payload seg <> [].


(** Flow [f] exists in [g] and its request timestamp is set. *)
Definition sent (g : globals) (f : list ascii) : Prop :=
  exists rs, chmap g !! f = Some rs /\ is_Some (reqSent rs).

(** ** Statements of the claims, and sample inputs *)

(** The 24-bit little-endian payload length declared by the header. *)
Definition declaredLength (b : list ascii) : Z :=
  code (at_ b 0) + 256 * code (at_ b 1) + 65536 * code (at_ b 2).

(** The claim on one payload, as worded: with a first byte in 0x00..0x1F or
    0xFB..0xFE both counts are read, the rest is returned when
    [parameter_count] is zero and the unsupported-parameters error when it is
    not; any other first byte returns the payload whole. *)
Definition comQueryAsClaimed (data : list ascii) : Prop :=
  match data with
  | [] => True
  | firstByte :: _ =>
      if between 0 31 firstByte || between 251 254 firstByte then
        forall pc null1 n1 psc null2 n2,
          LengthEncodedInt data = Some (pc, null1, n1) ->
          LengthEncodedInt (drop n1 data) = Some (psc, null2, n2) ->
          (pc = 0 -> parseComQuery data = Some (inr (drop (n1 + n2) data))) /\
          (pc <> 0 -> parseComQuery data = Some (inl (ErrParamsUnsupported pc)))
      else parseComQuery data = Some (inr data)
  end.

(** The result of [parseOKPacket] mentions the affected rows, or the last
    insert id. *)
Definition mentionsAffectedRows (out : list ascii) : bool := ContainsStr out (B "row(s) affected").

Definition mentionsLastInsertID (out : list ascii) : bool := ContainsStr out (B "last insert ID").

(** The default flags, with the format of the default template ["#s:#q"]. *)
Definition cfg0 : config := Config false false false false [FInt F_SOURCE; FStr (B ":"); FInt F_QUERY].

(** A client endpoint. *)
Definition client : list ascii := B "10.0.0.1:5555".

(** A [COM_QUERY] for "hello" split over two request segments. *)
Definition half1 : list ascii := map byte_of [6; 0; 0; 0; 3] ++ B "he".

Definition half2 : list ascii := B "llo".

(** A [COM_QUERY] for "select 1", a response, and a [COM_PING]. *)
Definition q1 : segment := Segment client true (map byte_of [9; 0; 0; 0; 3] ++ B "select 1") 100 7.

Definition r1 : segment := Segment client false (map byte_of [7; 0; 0; 1; 0; 0; 0; 2; 0; 0; 0]) 250 7.

Definition ping : segment := Segment client true (map byte_of [1; 0; 0; 0; 14]) 300 7.


(** A reservoir: [TIME_BUCKETS] slots of [uint64]. *)
Definition reservoir (timings : list Z) : Prop :=
  length timings = TIME_BUCKETS /\ Forall (fun v => 0 <= v < 2 ^ 64) timings.

(** The claim on one reservoir, with a tolerance of one millisecond. *)
Definition timesAsClaimed (timings : list Z) : Prop :=
  let '(fmin, favg, fmax) := calculateTimes timings in
  leWithin (float64_of_uint64 1) fmin favg = true /\
  leWithin (float64_of_uint64 1) favg fmax = true.

(** Two samples of 2^63 ns: their sum wraps to 0, so the average is 0 ms
    while the minimum is 2^63 ns. *)
Definition wrapping : list Z := [2 ^ 63; 2 ^ 63] ++ replicate (TIME_BUCKETS - 2) 0.

(** The invariant of the loop while the running sum has not wrapped. *)
Definition timeInv (acc : timeAcc) : Prop :=
  0 <= t_counts acc /\ 0 <= t_total acc /\
  (t_has_min acc = false ->
   t_counts acc = 0 /\ t_total acc = 0 /\ t_min acc = 0 /\ t_max acc = 0) /\
  (t_has_min acc = true ->
   0 < t_counts acc /\ 0 < t_min acc /\
   t_counts acc * t_min acc <= t_total acc <= t_counts acc * t_max acc).

(** The value [N / D] as the rounding of [SpecFloat] sees it: its integer
    part, whether its fractional part reaches one half, and whether
    anything is left below the half. *)
Definition located (N D : Z) : shr_record :=
  {| shr_m := N / D; shr_r := Z.odd (2 * N / D); shr_s := negb (2 * N mod D =? 0) |}.

(** The integer nearest to [N / D], the even one of the two when [N / D] is
    halfway. *)
Definition nearestEven (N D : Z) : Z :=
  round_nearest_even (shr_m (located N D)) (loc_of_shr_record (located N D)).

(** [(N / D) * 2 ^ e] rounded to a [float64], as [SFdiv] does after the
    integer division. *)
Definition roundAt (N D e : Z) : float64 :=
  binary_round_aux 53 1024 false (N / D) e (new_location D (N mod D)).

(** [SSpace] accepts the fewest continuations and [SWord] the most. *)
Definition sle (s s' : scanState) : Prop :=
  match s, s' with
  | SSpace, _ | SOther, SOther | SOther, SWord | SWord, SWord => True
  | _, _ => False
  end.

(** Canonicalising the fingerprint of [query] once more changes nothing. *)
Definition idempotentAt (cfg : config) (query : list ascii) : Prop :=
  forall F, cleanupQuery cfg query = Some F -> cleanupQuery cfg F = Some F.

(** ** Vocabulary of the further properties *)

(** The class of bytes a NUMBER, WHITESPACE or WORD token is a run of. *)
Definition runClass (t : token) : option (ascii -> bool) :=
  match t with
  | TOKEN_NUMBER => Some isDigit
  | TOKEN_WHITESPACE => Some isSpace
  | TOKEN_WORD => Some isWordChar
  | TOKEN_QUOTE | TOKEN_OTHER => None
  end.

(** Every occurrence of the quote [q] in [body] directly follows a
    backslash. *)
Definition escapedIn (q : ascii) (body : list ascii) : Prop :=
  forall k, body !! k = Some q -> exists j, k = S j /\ body !! j = Some (byte_of 92).

(** A format as [parseFormat] builds it: no [F_NONE] tag, no empty literal,
    no two literals in a row. *)
Fixpoint wellFormed (items : list fitem) : bool :=
  match items with
  | [] => true
  | FInt t :: rest => match t with F_NONE => false | _ => true end && wellFormed rest
  | FStr s :: rest =>
      match s with [] => false | _ :: _ => true end &&
      match rest with FStr _ :: _ => false | _ => true end &&
      wellFormed rest
  end.

(** A template of ASCII characters only: each character is one byte, so
    that [range] yields the bytes one by one, and [strings.TrimSpace] and
    [strings.ToLower] act on single bytes. *)
Definition asciiText (s : list ascii) : Prop := Forall (fun c => code c < 128) s.

(** The flags with the format parsed from a template, as [main] sets them. *)
Definition withTemplate (cfg : config) (formatstr : list ascii) : config :=
  Config (verbose cfg) (noclean cfg) (dirty cfg) (showRows cfg) (parseFormat [] formatstr).

(** [endsWithTag f]: [f] is empty or its last item is a tag. *)
Definition endsWithTag (f : list fitem) : Prop :=
  match last f with Some (FStr _) => False | _ => True end.

(** A packet as it travels: the length of [body] on three bytes, least
    significant first, the sequence byte, then [body]. *)
Definition frame (seq : ascii) (body : list ascii) : list ascii :=
  let L := Z.of_nat (length body) in
  [byte_of (L mod 256); byte_of (L / 256 mod 256); byte_of (L / 65536 mod 256); seq] ++ body.

(** The frames of [bodies], with the sequence bytes [seqs]. *)
Definition frames (seqs : list ascii) (bodies : list (list ascii)) : list ascii :=
  concat (zip_with frame seqs bodies).

(** What the loop cannot take: fewer than four bytes, a declared size of
    zero, or a packet that is not complete. *)
Definition undecodable (rest : list ascii) : Prop :=
  (length rest < 4)%nat \/ declaredLength rest = 0 \/
  Z.of_nat (length rest) < declaredLength rest + 4.

(** The sum of the [count] fields of the entries of [qbuf]. *)
Definition countSum (m : gmap (list ascii) queryData) : Z :=
  map_fold (fun _ qd acc => qd_count qd + acc) 0 m.

(** The segments that carry a payload, the only ones [handlePacket]
    processes. *)
Definition withPayload (segs : list segment) : list segment :=
  filter (fun seg => seg_payload seg <> []) segs.

(** The counters after a run of [n] segments with payload. *)
Definition countersInv (g : globals) (n : Z) : Prop :=
  streams g = uint64 (Z.of_nat (size (chmap g))) /\
  rcvd g = uint64 n /\
  exists s d, 0 <= s <= n /\ 0 <= d <= n /\
    rcvd_sync g = uint64 s /\ desyncs g = uint64 d.

(** The invariant of the table after at most [n] processed segments. *)
Definition qbufInv (g : globals) (n : Z) : Prop :=
  queryCount g = countSum (qbuf g) /\
  0 <= queryCount g <= n /\
  forall key qd, qbuf g !! key = Some qd -> 1 <= qd_count qd <= n.

(** The minimum and the maximum found so far are samples, and bound the
    nonzero samples of [seen]. *)
Definition extremes (acc : timeAcc) (seen : list Z) : Prop :=
  (t_has_min acc = false -> t_max acc = 0 /\ Forall (fun v => v = 0) seen) /\
  (t_has_min acc = true ->
   t_min acc ∈ seen /\ t_max acc ∈ seen /\ 0 < t_min acc /\
   Forall (fun v => v <> 0 -> t_min acc <= v <= t_max acc) seen).

(** * Properties *)

Example cleanup_simple :
  cleanupQuery (Config false false false false []) (B "select * from table where col=1")
  = Some (B "select * from table where col=?").
Proof. vm_compute. reflexivity. Qed.

Example cleanup_in_list :
  cleanupQuery (Config false false false false []) (B "select * from table where x in (1, 2, 'foo')")
  = Some (B "select * from table where x in (?)").
Proof. vm_compute. reflexivity. Qed.

Example cleanup_route :
  cleanupQuery (Config false false false false []) (B "SELECT /* localhost:route1 */ * FROM users")
  = Some (B "SELECT /* route1 */ * FROM users").
Proof. vm_compute. reflexivity. Qed.

Example cleanup_escaped_quote :
  cleanupQuery (Config false false false false [])
    (B "select * from table where col='\'" ++ [byte_of 39])
  = Some (B "select * from table where col=?").
Proof. vm_compute. reflexivity. Qed.

(** ** Progress and termination of the tokenizer *)

Lemma scanQuote_bounds q esc i rest :
  (i <= scanQuote q esc i rest <= i + length rest)%nat.
Proof.
  revert esc i. induction rest as [|c rest IH]; intros esc i; simpl; [lia|].
  destruct (Ascii.eqb c q).
  - destruct esc; [|lia]. specialize (IH false (S i)). lia.
  - destruct (beq c 92); [specialize (IH true (S i)) | specialize (IH false (S i))]; lia.
Qed.

Lemma scanWhile_bounds p i rest :
  (i <= scanWhile p i rest <= i + length rest)%nat.
Proof.
  revert i. induction rest as [|c rest IH]; intros i; simpl; [lia|].
  destruct (p c); [specialize (IH (S i))|]; lia.
Qed.

Lemma scanToken_bounds cfg query n t :
  scanToken cfg query = Some (n, t) -> (1 <= n <= length query)%nat.
Proof.
  unfold scanToken. destruct query as [|b rest]; [discriminate|].
  pose proof (scanQuote_bounds b false 1 rest).
  pose proof (scanWhile_bounds isDigit 1 rest).
  pose proof (scanWhile_bounds isSpace 1 rest).
  pose proof (scanWhile_bounds isWordChar 1 rest).
  repeat case_match; intros [= <- <-]; simpl; lia.
Qed.

Lemma scanToken_nonempty cfg b rest :
  exists n t, scanToken cfg (b :: rest) = Some (n, t).
Proof. unfold scanToken. repeat case_match; eauto. Qed.

Lemma tokenLoop_cons cfg fuel b rest :
  tokenLoop cfg (S fuel) (b :: rest) =
  '(len, toktype) ← scanToken cfg (b :: rest);
  qspace ← tokenLoop cfg fuel (drop len (b :: rest));
  Some (emit toktype (take len (b :: rest)) :: qspace).
Proof. reflexivity. Qed.

Lemma tokenLoop_total cfg fuel query :
  (length query <= fuel)%nat -> is_Some (tokenLoop cfg fuel query).
Proof.
  revert query. induction fuel as [|fuel IH]; intros [|b rest] Hlen;
    try (simpl; eauto; fail); [simpl in Hlen; lia|].
  destruct (scanToken_nonempty cfg b rest) as (n & t & Hs).
  pose proof (scanToken_bounds _ _ _ _ Hs) as Hn.
  destruct (IH (drop n (b :: rest))) as [qs Hqs].
  { rewrite length_drop. simpl in *. lia. }
  rewrite tokenLoop_cons, Hs. simpl. rewrite Hqs. simpl. eauto.
Qed.

Lemma tokenLoop_fuel cfg fuel fuel' query qs :
  tokenLoop cfg fuel query = Some qs -> (fuel <= fuel')%nat ->
  tokenLoop cfg fuel' query = Some qs.
Proof.
  revert fuel' query qs. induction fuel as [|fuel IH]; intros fuel' [|b rest] qs;
    try (simpl; done); try (intros [= <-] _; by destruct fuel').
  intros H Hle. destruct fuel' as [|fuel']; [lia|].
  rewrite tokenLoop_cons in H. rewrite tokenLoop_cons.
  destruct (scanToken cfg (b :: rest)) as [[n t]|]; [|done]. simpl in *.
  destruct (tokenLoop cfg fuel (drop n (b :: rest))) as [qs'|] eqn:E; [|done].
  rewrite (IH fuel' _ _ E); [done | lia].
Qed.

(** C10.  On a non-empty slice [scanToken] returns a token length between 1
    and the length of the input, so each iteration of the token loop of
    [cleanupQuery] leaves a strictly shorter rest, and the loop ends within
    [len(query)] iterations on every input. *)
Theorem scanToken_progress (cfg : config) (query : list ascii) :
  (query <> [] ->
   exists (n : nat) (t : token),
     scanToken cfg query = Some (n, t) /\
     (1 <= n <= length query)%nat /\
     (length (drop n query) < length query)%nat) /\
  is_Some (tokenLoop cfg (length query) query) /\
  is_Some (cleanupQuery cfg query).
Proof.
  split; [|split].
  - destruct query as [|b rest]; [done|]. intros _.
    destruct (scanToken_nonempty cfg b rest) as (n & t & Hs).
    pose proof (scanToken_bounds _ _ _ _ Hs) as Hn.
    exists n, t. split; [done|]. split; [done|].
    rewrite length_drop. simpl in *. lia.
  - by apply tokenLoop_total.
  - unfold cleanupQuery, cleanupQueryFuel.
    destruct (tokenLoop_total cfg (length query) query) as [qs ->]; [lia|].
    simpl. eauto.
Qed.

Lemma scanToken_progress_witness :
  exists (n : nat) (t : token),
    scanToken (Config false false false false []) (B "42abc") = Some (n, t) /\
    (1 <= n <= 5)%nat /\ (length (drop n (B "42abc")) < 5)%nat.
Proof.
  destruct (scanToken_progress (Config false false false false []) (B "42abc")) as [H _].
  apply H. discriminate.
Defined.

(** ** The wire framer *)

Lemma code_range c : 0 <= code c < 256.
Proof.
  unfold code. pose proof (N_ascii_bounded c) as H. lia.
Qed.

Lemma code_byte_of z : 0 <= z < 256 -> code (byte_of z) = z.
Proof.
  intros H. unfold code, byte_of. rewrite N_ascii_embedding; lia.
Qed.

Lemma byte_of_code c : byte_of (code c) = c.
Proof. unfold code, byte_of. rewrite N2Z.id. apply ascii_N_embedding. Qed.

Lemma carvePacket_size b :
  uint32 (code (at_ b 0) + uint32 (Z.shiftl (code (at_ b 1)) 8)
          + uint32 (Z.shiftl (code (at_ b 2)) 16)) = declaredLength b.
Proof.
  unfold declaredLength, uint32. rewrite !Z.shiftl_mul_pow2 by lia.
  pose proof (code_range (at_ b 0)). pose proof (code_range (at_ b 1)).
  pose proof (code_range (at_ b 2)).
  rewrite (Z.mod_small (code (at_ b 1) * 2 ^ 8)) by lia.
  rewrite (Z.mod_small (code (at_ b 2) * 2 ^ 16)) by lia.
  rewrite Z.mod_small by lia. lia.
Qed.

Lemma declaredLength_range b : 0 <= declaredLength b < 2 ^ 24.
Proof.
  unfold declaredLength.
  pose proof (code_range (at_ b 0)). pose proof (code_range (at_ b 1)).
  pose proof (code_range (at_ b 2)). lia.
Qed.

Lemma carvePacket_small (buf : slice) :
  Z.of_nat (length (bytes_of buf)) < 2 ^ 32 ->
  carvePacket buf =
  let b := bytes_of buf in
  let L := declaredLength b in
  if Z.of_nat (length b) <? 5 then (buf, inl ErrHeaderTooSmall)
  else if (L =? 0) || (Z.of_nat (length b) <? L + 4) then (buf, inl ErrIncompletePacket)
  else (if L + 4 >=? Z.of_nat (length b) then None else Some (drop (Z.to_nat (L + 4)) b),
        inr (at_ b 4, drop 5 (take (Z.to_nat (L + 4)) b))).
Proof.
  intros Hlen. pose proof (declaredLength_range (bytes_of buf)) as HL.
  unfold carvePacket. cbv zeta. rewrite carvePacket_size.
  unfold uint32.
  rewrite (Z.mod_small (Z.of_nat (length (bytes_of buf)))) by lia.
  rewrite (Z.mod_small (declaredLength (bytes_of buf) + 4)) by lia.
  reflexivity.
Qed.

(** C3.  For a buffer [B] (shorter than 2^32 bytes, the range of the
    [uint32] the code keeps its length in): if [B] holds fewer than 5 bytes,
    or the declared 24-bit little-endian payload length [L] is zero, or [B]
    holds fewer than [L + 4] bytes, the framer reports an error and leaves
    the buffer as it was; otherwise it returns the command byte [B[4]] and
    the [L - 1] payload bytes after it, and the buffer loses exactly its
    first [L + 4] bytes. *)
Theorem carvePacket_spec (buf : slice) :
  Z.of_nat (length (bytes_of buf)) < 2 ^ 32 ->
  let b := bytes_of buf in
  let L := declaredLength b in
  ((length b < 5)%nat \/ L = 0 \/ Z.of_nat (length b) < L + 4 ->
   exists e, carvePacket buf = (buf, inl e)) /\
  (~ ((length b < 5)%nat \/ L = 0 \/ Z.of_nat (length b) < L + 4) ->
   exists buf' payload,
     carvePacket buf = (buf', inr (at_ b 4, payload)) /\
     payload = take (Z.to_nat (L - 1)) (drop 5 b) /\
     Z.of_nat (length payload) = L - 1 /\
     bytes_of buf' = drop (Z.to_nat (L + 4)) b).
Proof.
  intros Hlen b L. rewrite (carvePacket_small buf Hlen). cbv zeta. fold b. fold L.
  pose proof (declaredLength_range b) as HL. fold L in HL.
  split.
  - intros Hc. destruct (Z.ltb_spec (Z.of_nat (length b)) 5); [eauto|].
    destruct (Z.eqb_spec L 0); simpl; [eauto|].
    destruct (Z.ltb_spec (Z.of_nat (length b)) (L + 4)); [eauto|lia].
  - intros Hc. destruct (Z.ltb_spec (Z.of_nat (length b)) 5); [lia|].
    destruct (Z.eqb_spec L 0); simpl; [lia|].
    destruct (Z.ltb_spec (Z.of_nat (length b)) (L + 4)); [lia|].
    eexists _, _. split; [reflexivity|].
    assert (Hpay : drop 5 (take (Z.to_nat (L + 4)) b)
                   = take (Z.to_nat (L - 1)) (drop 5 b)).
    { rewrite take_drop_commute.
      replace (5 + Z.to_nat (L - 1))%nat with (Z.to_nat (L + 4)) by lia. done. }
    split; [exact Hpay|]. split.
    + rewrite length_drop, length_take. lia.
    + destruct (Z.geb_spec (L + 4) (Z.of_nat (length b))); simpl; [|done].
      rewrite drop_ge; [done | lia].
Qed.

Lemma carvePacket_spec_witness :
  exists buf' payload,
    carvePacket (Some (map byte_of [6; 0; 0; 0; 3] ++ B "hello"))
      = (buf', inr (byte_of 3, payload)) /\
    payload = B "hello" /\ Z.of_nat (length payload) = 5 /\ bytes_of buf' = [].
Proof.
  assert (H : Z.of_nat (length (bytes_of (Some (map byte_of [6; 0; 0; 0; 3] ++ B "hello")))) < 2 ^ 32)
    by (vm_compute; reflexivity).
  destruct (carvePacket_spec _ H) as [_ Hok].
  apply Hok. vm_compute. intros [Hc|[Hc|Hc]]; try discriminate. lia.
Defined.

(** ** The format template parser *)

(** C6.  What the code does on the empty template: the fallback constant
    is ["#b:#k"], whose two tags are unknown, so the parsed format is the
    single literal ["#b:#k"] and not the item list of ["#s:#q"]. *)
Theorem parseFormat_empty_template :
  parseFormat [] (B "") = [FStr (B "#b:#k")] /\
  parseFormat [] (B "#s:#q") = [FInt F_SOURCE; FStr (B ":"); FInt F_QUERY] /\
  parseFormat [] (B "") <> parseFormat [] (B "#s:#q").
Proof. repeat split; vm_compute; congruence. Qed.

(** ** The command payload decoder *)

(** The payload 00 01 (both counts, no query text) is an error and not an
    empty query text; the payload FB 41 (a null first count) is returned
    whole. *)
Lemma parseComQuery_not_as_claimed :
  ~ comQueryAsClaimed (map byte_of [0; 1]) /\
  ~ comQueryAsClaimed (map byte_of [251; 65]).
Proof.
  split; intros H.
  - specialize (H 0 false 1%nat 1 false 1%nat eq_refl eq_refl) as [H _].
    specialize (H eq_refl). vm_compute in H. discriminate.
  - specialize (H 0 true 1%nat 65 false 1%nat eq_refl eq_refl) as [H _].
    specialize (H eq_refl). vm_compute in H. discriminate.
Qed.

Lemma LengthEncodedInt_read b v null n :
  LengthEncodedInt b = Some (v, null, n) -> (1 <= n <= length b)%nat.
Proof.
  unfold LengthEncodedInt. destruct b as [|c rest]; [done|].
  repeat case_match; intros [= <- <- <-]; simpl;
    repeat match goal with H : (_ <=? _)%nat = true |- _ => apply Nat.leb_le in H end; lia.
Qed.

(** C2, amended.  For a non-empty payload whose first byte is 0x20..0xFA,
    or 0xFB (the null marker), the whole payload is the query text.  When
    the first byte is in 0x00..0x1F or 0xFC..0xFE and [parameter_count] can
    be read: a missing [parameter_set_count] and a null one are errors;
    otherwise a nonzero [parameter_count] is the unsupported-parameters
    error, and with [parameter_count] zero the rest of the payload is
    returned when it is not empty and is an error when it is. *)
Theorem parseComQuery_spec (firstByte : ascii) (rest : list ascii) :
  let data := firstByte :: rest in
  (32 <= code firstByte <= 251 -> parseComQuery data = Some (inr data)) /\
  (code firstByte < 32 \/ 252 <= code firstByte <= 254 ->
   forall pc n1, LengthEncodedInt data = Some (pc, false, n1) ->
     ((length data <= n1)%nat -> parseComQuery data = Some (inl ErrMissingParamSetCount)) /\
     (forall psc null2 n2,
        LengthEncodedInt (drop n1 data) = Some (psc, null2, n2) ->
        (null2 = true -> parseComQuery data = Some (inl ErrParamSetCountNull)) /\
        (null2 = false -> pc <> 0 ->
         parseComQuery data = Some (inl (ErrParamsUnsupported pc))) /\
        (null2 = false -> pc = 0 -> drop (n1 + n2) data = [] ->
         parseComQuery data = Some (inl ErrMissingQueryText)) /\
        (null2 = false -> pc = 0 -> drop (n1 + n2) data <> [] ->
         parseComQuery data = Some (inr (drop (n1 + n2) data))))).
Proof.
  intros data. split.
  - intros Hb. unfold parseComQuery, data.
    destruct (Z.ltb_spec (code firstByte) 32); [lia|].
    destruct (Z.geb_spec (code firstByte) 251); simpl; [|done].
    assert (code firstByte = 251) as Hc by lia.
    rewrite Hc. reflexivity.
  - intros Hb pc n1 Hpc.
    assert (Hnew : (code firstByte <? 32) || (code firstByte >=? 251) = true).
    { destruct (Z.ltb_spec (code firstByte) 32); [done|].
      destruct (Z.geb_spec (code firstByte) 251); [done|lia]. }
    pose proof (LengthEncodedInt_read _ _ _ _ Hpc) as Hn1.
    assert (Hpos : forall pc', pc' = pc -> 0 <= pc).
    { intros _ _. unfold LengthEncodedInt, data in Hpc.
      assert (Hle : forall l, 0 <= le_value l).
      { induction l as [|c l IH]; simpl; [lia|].
        apply Z.lor_nonneg. pose proof (code_range c). split; [lia|].
        apply Z.shiftl_nonneg. lia. }
      pose proof (code_range firstByte).
      repeat case_match; try discriminate; injection Hpc as <- _; try apply Hle; lia. }
    specialize (Hpos pc eq_refl).
    subst data. unfold parseComQuery. rewrite Hnew. cbn zeta.
    set (data := firstByte :: rest) in *.
    change (drop 0 data) with data. rewrite Hpc. cbn [mbind option_bind orb].
    destruct (Nat.eqb_spec n1 0); [lia|]. cbn [Nat.add].
    split.
    + intros Hlen. destruct (Nat.leb_spec (length data) n1); [done|lia].
    + intros psc null2 n2 Hpsc.
      pose proof (LengthEncodedInt_read _ _ _ _ Hpsc) as Hn2.
      rewrite length_drop in Hn2.
      destruct (Nat.leb_spec (length data) n1); [lia|].
      rewrite Hpsc. cbn [mbind option_bind].
      repeat split.
      * intros ->. done.
      * intros -> Hnz. destruct (Z.gtb_spec pc 0); [done|lia].
      * intros -> -> Hnil. simpl (0 >? 0).  cbn iota.
        destruct (Nat.leb_spec (length data) (n1 + n2)); [done|].
        apply (f_equal length) in Hnil. rewrite length_drop in Hnil.
        change (length (@nil ascii)) with 0%nat in Hnil. lia.
      * intros -> -> Hnil. simpl (0 >? 0). cbn iota.
        destruct (Nat.leb_spec (length data) (n1 + n2)); [|done].
        rewrite drop_ge in Hnil; [done|lia].
Qed.

Lemma parseComQuery_spec_witness :
  parseComQuery (map byte_of [0; 1] ++ B "select 1") = Some (inr (B "select 1")).
Proof.
  destruct (parseComQuery_spec (byte_of 0) (byte_of 1 :: B "select 1")) as [_ H].
  destruct (H ltac:(left; vm_compute; reflexivity) 0 1%nat eq_refl) as [_ H'].
  destruct (H' 1 false 1%nat eq_refl) as (_ & _ & _ & H'').
  apply H''; [reflexivity | reflexivity | discriminate].
Defined.

(** ** The OK packet decoder *)

Lemma hasPrefix_app sub s : hasPrefix sub s = true -> exists post, s = sub ++ post.
Proof.
  revert s. induction sub as [|a sub IH]; intros s; simpl; [eauto|].
  destruct s as [|b s]; [done|].
  intros [Hab Hp]%andb_prop. apply Ascii.eqb_eq in Hab as ->.
  destruct (IH _ Hp) as [post ->]. eauto.
Qed.

Lemma ContainsStr_elem s sub x : ContainsStr s sub = true -> x ∈ sub -> x ∈ s.
Proof.
  induction s as [|c s IH]; simpl.
  - rewrite orb_false_r. intros [post Hs]%hasPrefix_app.
    destruct sub; [by intros ?%elem_of_nil | done].
  - intros [Hp|Hc]%orb_prop Hx.
    + apply hasPrefix_app in Hp as [post ->]. set_solver.
    + set_solver.
Qed.

Lemma string_of_uint_digits (u : Decimal.uint) :
  Forall (fun c => isDigit c = true) (B (NilEmpty.string_of_uint u)).
Proof. induction u; simpl; constructor; done. Qed.

Lemma fmt_d_not_elem x n : isDigit x = false -> x ∉ fmt_d n.
Proof.
  intros Hx Hin. pose proof (string_of_uint_digits (N.to_uint (Z.to_N n))) as Hd.
  rewrite Forall_forall in Hd. specialize (Hd x Hin). congruence.
Qed.

Ltac not_in_pieces :=
  let Hin := fresh "Hin" in
  cbv zeta; intros Hin;
  repeat first [ rewrite elem_of_app in Hin | rewrite elem_of_cons in Hin
               | match goal with H : _ \/ _ |- _ => destruct H as [H|H] end ];
  first [ discriminate Hin
        | refine (fmt_d_not_elem _ _ _ Hin); reflexivity
        | apply (bool_decide_pack _) in Hin; vm_compute in Hin; exact Hin ].

Lemma parseOKPacket_mentions_only (data out : list ascii) :
  parseOKPacket data = Some out ->
  (mentionsAffectedRows out = true ->
   exists a l w, decodeOK data = Some (a, l, w) /\ a <> 0) /\
  (mentionsLastInsertID out = true ->
   exists a l w, decodeOK data = Some (a, l, w) /\ l <> 0).
Proof.
  unfold parseOKPacket. destruct (length data <? 7)%nat.
  { intros [= <-]. split; intros H; vm_compute in H; discriminate. }
  destruct (decodeOK data) as [[[a l] w]|]; [|done]. cbn [mbind option_bind].
  intros Hout. apply (inj Some) in Hout. subst out. split.
  - intros Hm. exists a, l, w. split; [done|].
    destruct (Z.gtb_spec a 0) as [|Ha]; [lia|]. exfalso.
    assert (Hf : "f"%char ∈ B "row(s) affected") by (apply (bool_decide_unpack _); vm_compute; exact I).
    pose proof (ContainsStr_elem _ _ _ Hm Hf) as Hin. revert Hin.
    destruct (l >? 0), (w >? 0); not_in_pieces.
  - intros Hm. exists a, l, w. split; [done|].
    destruct (Z.gtb_spec l 0) as [|Hl]; [lia|]. exfalso.
    assert (Hf : "l"%char ∈ B "last insert ID") by (apply (bool_decide_unpack _); vm_compute; exact I).
    pose proof (ContainsStr_elem _ _ _ Hm Hf) as Hin. revert Hin.
    destruct (a >? 0), (w >? 0); not_in_pieces.
Qed.

(** C7.  Decoding the OK payload 00 03 64 00 00 01 00 gives a result that
    mentions 3 affected rows, last insert id 100 and 1 warning; and whenever
    the decoder returns a result for a payload, that result mentions the
    affected rows only if the decoded affected-rows value is nonzero, and
    the last insert id only if the decoded last-insert-id value is nonzero. *)
Theorem parseOKPacket_spec :
  (exists out, parseOKPacket (map byte_of [0; 3; 100; 0; 0; 1; 0]) = Some out /\
     ContainsStr out (B "3 row(s) affected") = true /\
     ContainsStr out (B "last insert ID: 100") = true /\
     ContainsStr out (B "1 warning(s)") = true) /\
  (forall data out, parseOKPacket data = Some out ->
     (mentionsAffectedRows out = true ->
      exists a l w, decodeOK data = Some (a, l, w) /\ a <> 0) /\
     (mentionsLastInsertID out = true ->
      exists a l w, decodeOK data = Some (a, l, w) /\ l <> 0)).
Proof.
  split.
  - eexists. split; [vm_compute; reflexivity|]. repeat split; vm_compute; reflexivity.
  - apply parseOKPacket_mentions_only.
Qed.

Lemma parseOKPacket_spec_witness :
  exists a l w, decodeOK (map byte_of [0; 5; 0; 0; 0; 0; 0]) = Some (a, l, w) /\ a <> 0.
Proof.
  destruct parseOKPacket_spec as [_ H].
  destruct (H (map byte_of [0; 5; 0; 0; 0; 0; 0]) _ eq_refl) as [Ha _].
  apply Ha. vm_compute. reflexivity.
Defined.

(** ** The flow state machine *)

Lemma processRequest_overwrites cfg now g rs buf0 data :
  processRequest cfg now g (set_reqBuffer buf0 rs) data = processRequest cfg now g rs data.
Proof. unfold processRequest. destruct rs; simpl. by destruct respBuffer0. Qed.

(** C5.  What the code does with a request segment: [rs.reqBuffer = data]
    replaces the buffer, so the outcome of [processRequest] does not depend
    on the bytes retained before; a [COM_QUERY] split over two segments, which
    the framer would carve from the concatenation, is never framed: after
    both segments no query is counted, the flow is not synced, no timestamp
    is set and the buffer holds the second segment only. *)
Theorem processRequest_drops_retained_bytes :
  (forall cfg now g rs buf0 data,
     processRequest cfg now g (set_reqBuffer buf0 rs) data = processRequest cfg now g rs data) /\
  carvePacket (Some (half1 ++ half2)) = (None, inr (byte_of 3, B "hello")) /\
  exists g rs,
    run cfg0 [Segment client true half1 10 0; Segment client true half2 20 0] initial = Some g /\
    chmap g !! client = Some rs /\
    queryCount g = 0 /\ synced rs = false /\ reqSent rs = None /\
    reqBuffer rs = Some half2.
Proof.
  split; [apply processRequest_overwrites|]. split; [vm_compute; reflexivity|].
  eexists _, _. split; [vm_compute; reflexivity|].
  split; [vm_compute; reflexivity|]. repeat split.
Qed.

Lemma int_succ_ne x : int (x + 1) <> x.
Proof. unfold int. Z.div_mod_to_equations. lia. Qed.

Lemma processRequest_sent cfg now g rs data g' rs' :
  processRequest cfg now g rs data = Some (g', rs') ->
  chmap g' = chmap g /\
  ((queryCount g' <> queryCount g /\ is_Some (reqSent rs')) \/
   (queryCount g' = queryCount g /\ reqSent rs' = reqSent rs)).
Proof.
  unfold processRequest. intros H.
  destruct rs as [hp ip sy rb pb rsent rt qb qd qt]; simpl in H.
  destruct (carvePacket data) as [buf [e|[pType pData]]] eqn:Hcarve.
  - destruct pb; simplify_eq/=; eauto.
  - pose proof (int_succ_ne (queryCount g)).
    destruct pb; simpl in H;
      repeat (case_match; simplify_option_eq; simpl in *; eauto 6).
Qed.

Lemma processResponse_sent now randn g rs data :
  chmap (processResponse now randn g rs data).1 = chmap g /\
  queryCount (processResponse now randn g rs data).1 = queryCount g /\
  reqSent (processResponse now randn g rs data).2 = None.
Proof.
  unfold processResponse.
  destruct rs as [hp ip sy rb pb rsent rt qb qd qt]; simpl.
  destruct pb, rsent, qd; simpl; done.
Qed.

Lemma processPacket_sent cfg now randn g rs request data g' rs' :
  processPacket cfg now randn g rs request data = Some (g', rs') ->
  chmap g' = chmap g /\
  (request = false -> queryCount g' = queryCount g /\ reqSent rs' = None) /\
  (request = true ->
   (queryCount g' <> queryCount g /\ is_Some (reqSent rs')) \/
   (queryCount g' = queryCount g /\ reqSent rs' = reqSent rs)).
Proof.
  unfold processPacket.
  set (g1 := if synced rs then _ else _).
  assert (Hg1 : chmap g1 = chmap g /\ queryCount g1 = queryCount g)
    by (subst g1; destruct (synced rs); done).
  destruct Hg1 as [Hc Hq]. destruct request.
  - intros (Hc' & Hs)%processRequest_sent. rewrite Hc', Hc, <- Hq. by repeat split.
  - intros [= Heq].
    destruct (processResponse_sent now randn g1 rs data) as (Hc' & Hq' & Hs).
    rewrite Heq in Hc', Hq', Hs. simpl in *.
    rewrite Hc', Hc, Hq', Hq. by repeat split.
Qed.

(** The flow a segment is processed on and the state it is processed in:
    the flow found in [chmap], or a fresh one. *)
Lemma handlePacket_inv cfg g seg g' :
  handlePacket cfg g seg = Some g' ->
  seg_payload seg <> [] ->
  exists g2 rs rs',
    (chmap g !! seg_src seg = Some rs \/
     chmap g !! seg_src seg = None /\ reqSent rs = None) /\
    chmap g2 = chmap g /\
    g' = set_chmap (<[seg_src seg := rs']> (chmap g2)) g2 /\
    (seg_request seg = false -> queryCount g2 = queryCount g /\ reqSent rs' = None) /\
    (seg_request seg = true ->
     (queryCount g2 <> queryCount g /\ is_Some (reqSent rs')) \/
     (queryCount g2 = queryCount g /\ reqSent rs' = reqSent rs)).
Proof.
  unfold handlePacket. intros H Hne.
  destruct (seg_payload seg) as [|c p] eqn:Hp; [done|]. simpl in H.
  destruct (chmap g !! seg_src seg) as [rs|] eqn:Hl; simpl in H.
  - destruct (processPacket _ _ _ _ _ _ _) as [[g2 rs']|] eqn:Hpp; [|done].
    simpl in H. injection H as <-.
    apply processPacket_sent in Hpp as (Hc & Hresp & Hreq).
    exists g2, rs, rs'. repeat split; eauto; by apply Hresp.
  - destruct (cut ":" (seg_src seg)) as [[ip ?]|]; [|done]. simpl in H.
    destruct (processPacket _ _ _ _ _ _ _) as [[g2 rs']|] eqn:Hpp; [|done].
    simpl in H. injection H as <-.
    apply processPacket_sent in Hpp as (Hc & Hresp & Hreq).
    exists g2, (newSource (seg_src seg) ip), rs'.
    repeat split; eauto; by apply Hresp.
Qed.

Lemma handlePacket_empty cfg g seg :
  seg_payload seg = [] -> handlePacket cfg g seg = Some g.
Proof. unfold handlePacket. by intros ->. Qed.



Lemma handlePacket_request cfg g seg g' :
  handlePacket cfg g seg = Some g' -> seg_request seg = true ->
  sent g' (seg_src seg) <-> queryCount g' <> queryCount g \/ sent g (seg_src seg).
Proof.
  intros H Hr. destruct (decide (seg_payload seg = [])) as [He|He].
  { rewrite handlePacket_empty in H by done. injection H as <-. tauto. }
  destruct (handlePacket_inv _ _ _ _ H He) as (g2 & rs & rs' & Hrs & Hc & -> & _ & Hreq).
  unfold sent. simpl. rewrite lookup_insert_eq.
  destruct (Hreq Hr) as [[Hq Hs]|[Hq Hs]].
  - split; [by left|]. intros _. eauto.
  - rewrite Hq. split.
    + intros (? & [= <-] & Hs'). right. rewrite Hs in Hs'.
      destruct Hrs as [Hrs|[_ Hrs]]; [eauto|]. rewrite Hrs in Hs'. by destruct Hs'.
    + intros [?|(rs0 & Hl & Hs')]; [done|].
      destruct Hrs as [Hrs|[Hrs _]]; [|congruence].
      exists rs'. split; [done|]. rewrite Hs. congruence.
Qed.

Lemma run_app cfg segs1 segs2 g :
  run cfg (segs1 ++ segs2) g = run cfg segs1 g ≫= run cfg segs2.
Proof.
  revert g. induction segs1 as [|seg segs1 IH]; intros g; simpl; [done|].
  destruct (handlePacket cfg g seg); simpl; [apply IH|done].
Qed.






(** ** Rounding to [float64] is monotone *)

Lemma Zdigits2_size p : digits2_pos p = Pos.size p.
Proof. induction p; simpl; congruence. Qed.

Lemma Zdigits2_bounds m : 0 < m -> 2 ^ (Zdigits2 m - 1) <= m < 2 ^ Zdigits2 m.
Proof.
  destruct m as [|p|p]; try lia. intros _. simpl. rewrite Zdigits2_size.
  pose proof (Pos.size_gt p) as Hgt. pose proof (Pos.size_le p) as Hle.
  assert (Zpos (2 ^ Pos.size p) = 2 ^ Zpos (Pos.size p)) as Hpow by (by rewrite Pos2Z.inj_pow).
  split.
  - assert (2 ^ Zpos (Pos.size p) = 2 * 2 ^ (Zpos (Pos.size p) - 1)) as Hs.
    { rewrite <- Z.pow_succ_r by lia. f_equal. lia. }
    lia.
  - lia.
Qed.

Lemma Zdigits2_unique m d : 2 ^ (d - 1) <= m < 2 ^ d -> 0 < d -> Zdigits2 m = d.
Proof.
  intros Hm Hd. assert (0 < m) as Hpos by (pose proof (Z.pow_pos_nonneg 2 (d - 1)); lia).
  pose proof (Zdigits2_bounds m Hpos) as Hb.
  assert (0 < Zdigits2 m) as Hd' by (destruct m; simpl; lia).
  destruct (Z.lt_trichotomy (Zdigits2 m) d) as [Hlt|[Heq|Hgt]]; [|done|].
  - exfalso. assert (2 ^ Zdigits2 m <= 2 ^ (d - 1)) by (apply Z.pow_le_mono_r; lia). lia.
  - exfalso. assert (2 ^ d <= 2 ^ (Zdigits2 m - 1)) by (apply Z.pow_le_mono_r; lia). lia.
Qed.

Lemma Zdigits2_mono m n : 0 < m -> m <= n -> Zdigits2 m <= Zdigits2 n.
Proof.
  intros Hm Hmn. pose proof (Zdigits2_bounds m Hm) as Hb1.
  pose proof (Zdigits2_bounds n ltac:(lia)) as Hb2.
  destruct (Z.le_gt_cases (Zdigits2 m) (Zdigits2 n)) as [|Hgt]; [done|]. exfalso.
  assert (2 ^ Zdigits2 n <= 2 ^ (Zdigits2 m - 1)) by (apply Z.pow_le_mono_r; lia). lia.
Qed.

Lemma shr_1_nonneg m r s :
  0 <= m ->
  shr_1 {| shr_m := m; shr_r := r; shr_s := s |} =
  {| shr_m := m / 2; shr_r := Z.odd m; shr_s := r || s |}.
Proof.
  intros Hm. destruct m as [|p|p]; [done| |lia].
  destruct p as [p|p|]; simpl.
  - f_equal. change (Zpos p~1) with (2 * Zpos p + 1).
    apply Z.div_unique with 1; lia.
  - f_equal. change (Zpos p~0) with (2 * Zpos p).
    apply Z.div_unique with 0; lia.
  - done.
Qed.

(** The quotient, the bit of the half and the sticky bit of [N / D], from
    the Euclidean division of [2 * N] by [D]. *)
Lemma located_spec N D :
  0 <= N -> 0 < D ->
  exists u rho,
    2 * N = u * D + rho /\ 0 <= rho < D /\ 0 <= u /\
    located N D = {| shr_m := u / 2; shr_r := Z.odd u; shr_s := negb (rho =? 0) |}.
Proof.
  intros HN HD. exists (2 * N / D), (2 * N mod D).
  pose proof (Z.div_mod (2 * N) D ltac:(lia)) as Hdm.
  pose proof (Z.mod_pos_bound (2 * N) D HD) as Hr.
  assert (0 <= 2 * N / D) as Hu by (apply Z.div_pos; lia).
  split; [lia|]. split; [done|]. split; [done|].
  unfold located. f_equal.
  rewrite Z.div_div by lia. rewrite (Z.mul_comm D 2).
  symmetry. apply Z.div_mul_cancel_l; lia.
Qed.

Lemma located_double N D : 0 <= N -> 0 < D -> shr_1 (located N D) = located N (2 * D).
Proof.
  intros HN HD. unfold located.
  rewrite shr_1_nonneg by (apply Z.div_pos; lia).
  pose proof (Z.div_mod (2 * N) D ltac:(lia)) as Hdm.
  pose proof (Z.mod_pos_bound (2 * N) D HD) as Hr.
  pose proof (Z.div_mod N D ltac:(lia)) as Hdm1.
  pose proof (Z.mod_pos_bound N D HD) as Hr1.
  assert (0 <= 2 * N / D) as Hu by (apply Z.div_pos; lia).
  assert (2 * N / (2 * D) = N / D) as H1 by (apply Z.div_mul_cancel_l; lia).
  f_equal.
  - rewrite Z.div_div by lia. by rewrite (Z.mul_comm D 2).
  - by rewrite H1.
  - assert (2 * N mod (2 * D) = 2 * (N mod D)) as H2 by (apply Z.mul_mod_distr_l; lia).
    rewrite H2.
    (* N mod D = 0 iff 2N/D even and 2N mod D = 0 *)
    destruct (Z.eqb_spec (2 * (N mod D)) 0) as [Hz|Hnz]; simpl.
    + assert (N mod D = 0) as Hz' by lia. rewrite Hz' in Hdm1.
      assert (2 * N = (2 * (N / D)) * D + 0) as Heq by lia.
      assert (2 * N / D = 2 * (N / D)) as Hq.
      { symmetry. apply Z.div_unique with 0; lia. }
      assert (2 * N mod D = 0) as Hm.
      { symmetry. apply Z.mod_unique with (2 * (N / D)); lia. }
      rewrite Hq, Hm. rewrite Z.odd_mul. done.
    + destruct (Z.eqb_spec (2 * N mod D) 0) as [Hm|Hm]; simpl; [|by rewrite orb_true_r].
      rewrite orb_false_r.
      (* 2N = u D, and N mod D <> 0: u must be odd *)
      rewrite Hm in Hdm. destruct (Z.odd (2 * N / D)) eqn:Hodd; [done|]. exfalso.
      rewrite <- Z.negb_even in Hodd. apply negb_false_iff, Z.even_spec in Hodd.
      destruct Hodd as [w Hw]. rewrite Hw in Hdm.
      assert (N = w * D) as HNw by nia.
      apply Hnz. rewrite HNw. rewrite Z.mod_mul by lia. done.
Qed.

Lemma pow2_xO p : 2 ^ Zpos p~0 = 2 ^ Zpos p * 2 ^ Zpos p.
Proof. replace (Zpos p~0) with (Zpos p + Zpos p) by lia. by rewrite Z.pow_add_r by lia. Qed.

Lemma pow2_xI p : 2 ^ Zpos p~1 = 2 * (2 ^ Zpos p * 2 ^ Zpos p).
Proof.
  replace (Zpos p~1) with (1 + (Zpos p + Zpos p)) by lia.
  by rewrite !Z.pow_add_r by lia.
Qed.

Lemma located_iter N p : forall D,
  0 <= N -> 0 < D ->
  SpecFloat.iter_pos shr_1 p (located N D) = located N (D * 2 ^ Zpos p).
Proof.
  induction p as [p IH|p IH|]; intros D HN HD; cbn [SpecFloat.iter_pos].
  - pose proof (Z.pow_pos_nonneg 2 (Zpos p) ltac:(lia) ltac:(lia)) as Hpow.
    rewrite located_double by done. rewrite !IH by (try done; nia).
    f_equal. rewrite pow2_xI. ring.
  - pose proof (Z.pow_pos_nonneg 2 (Zpos p) ltac:(lia) ltac:(lia)) as Hpow.
    rewrite !IH by (try done; nia).
    f_equal. rewrite pow2_xO. ring.
  - rewrite located_double by done. f_equal. change (2 ^ 1) with 2. ring.
Qed.

Lemma located_shr N D e n :
  0 <= N -> 0 < D -> 0 <= n ->
  shr (located N D) e n = (located N (D * 2 ^ n), e + n).
Proof.
  intros HN HD Hn. destruct n as [|p|p]; [|by unfold shr; rewrite located_iter|lia].
  simpl. rewrite Z.mul_1_r, Z.add_0_r. done.
Qed.

Lemma new_location_spec D r :
  new_location D r = if r =? 0 then loc_Exact else loc_Inexact (Z.compare (2 * r) D).
Proof.
  unfold new_location, new_location_even, new_location_odd.
  destruct (Z.even D) eqn:He; [done|].
  destruct (r =? 0); [done|]. f_equal.
  rewrite <- Z.negb_odd in He. apply negb_false_iff, Z.odd_spec in He as [w Hw].
  destruct (Z.compare_spec (2 * r + 1) D), (Z.compare_spec (2 * r) D); try done; lia.
Qed.

Lemma located_loc N D :
  0 <= N -> 0 < D ->
  shr_record_of_loc (N / D) (new_location D (N mod D)) = located N D.
Proof.
  intros HN HD.
  pose proof (Z.div_mod N D ltac:(lia)) as Hdm.
  pose proof (Z.mod_pos_bound N D HD) as Hr.
  rewrite new_location_spec.
  set (q := N / D) in *. set (r := N mod D) in *.
  unfold located. fold q.
  destruct (Z.eqb_spec r 0) as [Hz|Hnz].
  - assert (2 * N / D = 2 * q) as Hq by (symmetry; apply Z.div_unique with 0; lia).
    assert (2 * N mod D = 0) as Hm by (symmetry; apply Z.mod_unique with (2 * q); lia).
    rewrite Hq, Hm, Z.odd_mul. done.
  - destruct (Z.compare_spec (2 * r) D) as [Heq|Hlt|Hgt].
    + assert (2 * N / D = 2 * q + 1) as Hq by (symmetry; apply Z.div_unique with 0; lia).
      assert (2 * N mod D = 0) as Hm by (symmetry; apply Z.mod_unique with (2 * q + 1); lia).
      rewrite Hq, Hm. rewrite Z.odd_add, Z.odd_mul. done.
    + assert (2 * N / D = 2 * q) as Hq by (symmetry; apply Z.div_unique with (2 * r); lia).
      assert (2 * N mod D = 2 * r) as Hm by (symmetry; apply Z.mod_unique with (2 * q); lia).
      rewrite Hq, Hm, Z.odd_mul. simpl.
      destruct (Z.eqb_spec (2 * r) 0); [lia|done].
    + assert (2 * N / D = 2 * q + 1) as Hq
        by (symmetry; apply Z.div_unique with (2 * r - D); lia).
      assert (2 * N mod D = 2 * r - D) as Hm
        by (symmetry; apply Z.mod_unique with (2 * q + 1); lia).
      rewrite Hq, Hm. rewrite Z.odd_add, Z.odd_mul. simpl.
      destruct (Z.eqb_spec (2 * r - D) 0); [lia|done].
Qed.

Lemma located_exact m : shr_record_of_loc m loc_Exact = located m 1.
Proof.
  unfold located. simpl shr_record_of_loc. rewrite !Z.div_1_r, Z.mod_1_r.
  by rewrite Z.odd_mul.
Qed.

Lemma located_scale N D c :
  0 <= N -> 0 < D -> 0 < c -> located (N * c) (D * c) = located N D.
Proof.
  intros HN HD Hc. unfold located.
  rewrite Z.div_mul_cancel_r by lia.
  replace (2 * (N * c)) with (2 * N * c) by ring.
  rewrite Z.div_mul_cancel_r by lia.
  rewrite Z.mul_mod_distr_r by lia.
  f_equal. f_equal.
  destruct (Z.eqb_spec (2 * N mod D) 0) as [->|Hne]; [done|].
  destruct (Z.eqb_spec (2 * N mod D * c) 0); [nia|done].
Qed.

Lemma loc_of_record_of_loc m l : loc_of_shr_record (shr_record_of_loc m l) = l.
Proof. by destruct l as [|[]]. Qed.

Lemma shr_m_of_loc m l : shr_m (shr_record_of_loc m l) = m.
Proof. by destruct l as [|[]]. Qed.

(** [nearestEven] in terms of the remainder. *)
Lemma nearestEven_spec N D :
  0 <= N -> 0 < D ->
  nearestEven N D =
  if 2 * (N mod D) <? D then N / D
  else if 2 * (N mod D) =? D then (if Z.even (N / D) then N / D else N / D + 1)
  else N / D + 1.
Proof.
  intros HN HD. unfold nearestEven. rewrite <- located_loc by done.
  rewrite shr_m_of_loc, loc_of_record_of_loc, new_location_spec.
  pose proof (Z.mod_pos_bound N D HD) as Hr.
  destruct (Z.eqb_spec (N mod D) 0) as [Hz|Hnz]; simpl.
  - rewrite Hz. destruct (Z.ltb_spec (2 * 0) D); [done|lia].
  - destruct (Z.compare_spec (2 * (N mod D)) D) as [Heq|Hlt|Hgt]; simpl.
    + destruct (Z.ltb_spec (2 * (N mod D)) D); [lia|].
      destruct (Z.eqb_spec (2 * (N mod D)) D); [done|lia].
    + destruct (Z.ltb_spec (2 * (N mod D)) D); [done|lia].
    + destruct (Z.ltb_spec (2 * (N mod D)) D); [lia|].
      destruct (Z.eqb_spec (2 * (N mod D)) D); [lia|done].
Qed.

Lemma nearestEven_bounds N D :
  0 <= N -> 0 < D -> N / D <= nearestEven N D <= N / D + 1.
Proof.
  intros HN HD. rewrite nearestEven_spec by done.
  repeat case_match; lia.
Qed.

Lemma nearestEven_mono N1 N2 D :
  0 <= N1 -> N1 <= N2 -> 0 < D -> nearestEven N1 D <= nearestEven N2 D.
Proof.
  intros HN1 HN HD.
  assert (N1 / D <= N2 / D) as Hq by (apply Z.div_le_mono; lia).
  destruct (Z.eq_dec (N1 / D) (N2 / D)) as [Heq|Hne].
  - pose proof (Z.div_mod N1 D ltac:(lia)) as Hdm1.
    pose proof (Z.div_mod N2 D ltac:(lia)) as Hdm2.
    assert (N1 mod D <= N2 mod D) as Hr by (rewrite Heq in Hdm1; nia).
    rewrite !nearestEven_spec by lia. rewrite Heq.
    destruct (Z.ltb_spec (2 * (N1 mod D)) D), (Z.ltb_spec (2 * (N2 mod D)) D);
      destruct (Z.eqb_spec (2 * (N1 mod D)) D), (Z.eqb_spec (2 * (N2 mod D)) D);
      destruct (Z.even (N2 / D)); lia.
  - pose proof (nearestEven_bounds N1 D HN1 HD).
    pose proof (nearestEven_bounds N2 D ltac:(lia) HD). lia.
Qed.

Lemma shr_fexp_located mx l N D e :
  shr_record_of_loc mx l = located N D ->
  0 <= N -> 0 < D ->
  0 <= Zdigits2 mx - 53 -> - 1074 <= e ->
  shr_fexp 53 1024 mx e l =
  (located N (D * 2 ^ (Zdigits2 mx - 53)), e + (Zdigits2 mx - 53)).
Proof.
  intros Hrec HN HD Hk He. unfold shr_fexp, fexp, emin. rewrite Hrec.
  replace (Z.max (Zdigits2 mx + e - 53) (3 - 1024 - 53) - e) with (Zdigits2 mx - 53) by lia.
  by apply located_shr.
Qed.

Lemma div_pow2_digits q d k :
  2 ^ (d - 1) <= q < 2 ^ d -> 0 <= k -> k < d ->
  2 ^ (d - k - 1) <= q / 2 ^ k < 2 ^ (d - k).
Proof.
  intros Hq Hk Hd.
  assert (0 < 2 ^ k) as Hp by (apply Z.pow_pos_nonneg; lia).
  assert (2 ^ (d - 1) = 2 ^ (d - k - 1) * 2 ^ k) as H1.
  { rewrite <- Z.pow_add_r by lia. f_equal. lia. }
  assert (2 ^ d = 2 ^ (d - k) * 2 ^ k) as H2.
  { rewrite <- Z.pow_add_r by lia. f_equal. lia. }
  split.
  - apply Z.div_le_lower_bound; lia.
  - apply Z.div_lt_upper_bound; lia.
Qed.

(** What [roundAt] returns on a value of at least 2^52 units: the nearest
    integer at the scale where the value has 53 digits, renormalised when
    the rounding reaches 2^53. *)
Lemma roundAt_spec N D e :
  0 < D -> 2 ^ 52 <= N / D -> - 1074 <= e ->
  e + (Zdigits2 (N / D) - 53) + 1 <= 971 ->
  let k := Zdigits2 (N / D) - 53 in
  let m := nearestEven N (D * 2 ^ k) in
  0 <= k /\ 2 ^ 52 <= m <= 2 ^ 53 /\
  roundAt N D e =
  if m <? 2 ^ 53 then S754_finite false (Z.to_pos m) (e + k)
  else S754_finite false (Z.to_pos (2 ^ 52)) (e + k + 1).
Proof.
  intros HD Hq He Hmax k m.
  assert (0 <= N) as HN.
  { destruct (Z.le_gt_cases 0 N) as [|Hneg]; [done|]. exfalso.
    assert (N / D < 0) by (apply Z.div_lt_upper_bound; lia). lia. }
  pose proof (Zdigits2_bounds (N / D) ltac:(lia)) as Hdig.
  assert (53 <= Zdigits2 (N / D)) as Hd.
  { destruct (Z.le_gt_cases 53 (Zdigits2 (N / D))) as [|Hlt]; [done|]. exfalso.
    assert (2 ^ Zdigits2 (N / D) <= 2 ^ 52) by (apply Z.pow_le_mono_r; lia). lia. }
  assert (0 <= k) as Hk by (subst k; lia).
  assert (0 < 2 ^ k) as Hpk by (apply Z.pow_pos_nonneg; lia).
  assert (2 ^ 52 <= N / (D * 2 ^ k) < 2 ^ 53) as Hqk.
  { rewrite <- Z.div_div by lia.
    pose proof (div_pow2_digits (N / D) (Zdigits2 (N / D)) k Hdig Hk ltac:(subst k; lia)) as H.
    replace (Zdigits2 (N / D) - k - 1) with 52 in H by (subst k; lia).
    replace (Zdigits2 (N / D) - k) with 53 in H by (subst k; lia). done. }
  pose proof (nearestEven_bounds N (D * 2 ^ k) HN ltac:(lia)) as Hm. fold m in Hm.
  split; [done|]. split; [lia|].
  unfold roundAt, binary_round_aux.
  rewrite (shr_fexp_located _ _ N D) by (try done; by apply located_loc).
  fold k. change (round_nearest_even _ _) with m.
  destruct (Z.ltb_spec m (2 ^ 53)) as [Hlt|Hge].
  - assert (Zdigits2 m = 53) as Hdm by (apply Zdigits2_unique; lia).
    rewrite (shr_fexp_located _ _ m 1) by (try lia; apply located_exact).
    rewrite Hdm. change (53 - 53) with 0. rewrite Z.mul_1_l, Z.add_0_r.
    change (2 ^ 0) with 1. unfold located at 1. cbn [shr_m]. rewrite Z.div_1_r.
    destruct m as [|p|p] eqn:Hmp; [lia| |lia].
    destruct (Z.leb_spec (e + k) (1024 - 53)); [done|lia].
  - assert (m = 2 ^ 53) as Hm53 by lia.
    assert (Zdigits2 m = 54) as Hdm by (apply Zdigits2_unique; lia).
    rewrite (shr_fexp_located _ _ m 1) by (try lia; apply located_exact).
    rewrite Hdm. change (54 - 53) with 1. rewrite Z.mul_1_l.
    change (2 ^ 1) with 2. unfold located at 1. cbn [shr_m]. rewrite Hm53.
    change (2 ^ 53 / 2) with (2 ^ 52).
    change (2 ^ 52) with (Zpos (Z.to_pos (2 ^ 52))) at 1.
    cbv iota.
    destruct (Z.leb_spec (e + k + 1) (1024 - 53)); [done|lia].
Qed.

(** On one scale, a greater numerator rounds to a float that is not
    smaller: the exponent is greater, or it is the same and the mantissa is
    not smaller.  Both mantissas have exactly 53 digits. *)
Lemma roundAt_mono N1 N2 D e :
  0 < D -> 2 ^ 52 <= N1 / D -> N1 <= N2 -> - 1074 <= e ->
  e + (Zdigits2 (N2 / D) - 53) + 1 <= 971 ->
  exists m1 e1 m2 e2,
    roundAt N1 D e = S754_finite false m1 e1 /\
    roundAt N2 D e = S754_finite false m2 e2 /\
    2 ^ 52 <= Zpos m1 < 2 ^ 53 /\ 2 ^ 52 <= Zpos m2 < 2 ^ 53 /\
    e <= e1 /\ e2 <= e + (Zdigits2 (N2 / D) - 53) + 1 /\
    (e1 < e2 \/ (e1 = e2 /\ Zpos m1 <= Zpos m2)).
Proof.
  intros HD Hq1 HN He Hmax.
  assert (0 <= N1) as HN1.
  { destruct (Z.le_gt_cases 0 N1) as [|Hneg]; [done|]. exfalso.
    assert (N1 / D < 0) by (apply Z.div_lt_upper_bound; lia). lia. }
  assert (N1 / D <= N2 / D) as Hq by (apply Z.div_le_mono; lia).
  pose proof (Zdigits2_mono (N1 / D) (N2 / D) ltac:(lia) Hq) as Hd.
  destruct (roundAt_spec N1 D e HD Hq1 He ltac:(lia)) as (Hk1 & Hm1 & Hr1).
  destruct (roundAt_spec N2 D e HD ltac:(lia) He Hmax) as (Hk2 & Hm2 & Hr2).
  set (k1 := Zdigits2 (N1 / D) - 53) in *. set (k2 := Zdigits2 (N2 / D) - 53) in *.
  set (m1 := nearestEven N1 (D * 2 ^ k1)) in *. set (m2 := nearestEven N2 (D * 2 ^ k2)) in *.
  assert (k1 <= k2) as Hk by (subst k1 k2; lia).
  assert (Hcase : k1 < k2 \/ (k1 = k2 /\ m1 <= m2)).
  { destruct (Z.eq_dec k1 k2) as [Heq|Hne]; [right|left; lia]. split; [done|].
    subst m1 m2. rewrite Heq. apply nearestEven_mono; lia. }
  rewrite Hr1, Hr2.
  assert (Zpos (Z.to_pos (2 ^ 52)) = 2 ^ 52) as H52 by done.
  assert (forall m, 2 ^ 52 <= m -> Zpos (Z.to_pos m) = m) as Hpos
    by (intros m Hm; apply Z2Pos.id; lia).
  destruct (Z.ltb_spec m1 (2 ^ 53)) as [Hlt1|Hge1],
           (Z.ltb_spec m2 (2 ^ 53)) as [Hlt2|Hge2];
    eexists _, _, _, _; (split; [reflexivity|]); (split; [reflexivity|]);
    rewrite ?Hpos, ?H52 by lia; repeat split; try lia.
Qed.

(** [roundAt] depends on the value only: a common factor of numerator and
    denominator can be dropped, and a power of two can move from the
    denominator to the exponent. *)
Lemma roundAt_cancel N D c e :
  0 <= N -> 0 < D -> 0 < c -> roundAt (N * c) (D * c) e = roundAt N D e.
Proof.
  intros HN HD Hc. unfold roundAt.
  rewrite Z.div_mul_cancel_r by lia. f_equal.
  rewrite !new_location_spec. rewrite Z.mul_mod_distr_r by lia.
  pose proof (Z.mod_pos_bound N D HD) as Hr.
  destruct (Z.eqb_spec (N mod D) 0) as [->|Hne]; [done|].
  destruct (Z.eqb_spec (N mod D * c) 0); [nia|]. f_equal.
  replace (2 * (N mod D * c)) with (2 * (N mod D) * c) by ring.
  destruct (Z.compare_spec (2 * (N mod D)) D), (Z.compare_spec (2 * (N mod D) * c) (D * c));
    try done; nia.
Qed.

Lemma Zdigits2_shift q j :
  0 < q / 2 ^ j -> 0 <= j -> Zdigits2 q = Zdigits2 (q / 2 ^ j) + j.
Proof.
  intros Hq Hj.
  assert (0 < 2 ^ j) as Hp by (apply Z.pow_pos_nonneg; lia).
  pose proof (Zdigits2_bounds _ Hq) as Hb.
  assert (0 < Zdigits2 (q / 2 ^ j)) as Hd by (destruct (q / 2 ^ j); simpl; lia).
  pose proof (Z.div_mod q (2 ^ j) ltac:(lia)) as Hdm.
  pose proof (Z.mod_pos_bound q (2 ^ j) Hp) as Hr.
  apply Zdigits2_unique; [|lia].
  replace (Zdigits2 (q / 2 ^ j) + j - 1) with (Zdigits2 (q / 2 ^ j) - 1 + j) by lia.
  rewrite !Z.pow_add_r by lia. nia.
Qed.

Lemma roundAt_shift N D j e :
  0 < D -> 0 <= j -> 2 ^ 52 <= N / (D * 2 ^ j) -> - 1074 <= e - j ->
  e + (Zdigits2 (N / (D * 2 ^ j)) - 53) + 1 <= 971 ->
  roundAt N (D * 2 ^ j) e = roundAt N D (e - j).
Proof.
  intros HD Hj Hq He Hmax.
  assert (0 < 2 ^ j) as Hp by (apply Z.pow_pos_nonneg; lia).
  assert (N / (D * 2 ^ j) = N / D / 2 ^ j) as Hdiv by (by rewrite Z.div_div by lia).
  assert (Zdigits2 (N / D) = Zdigits2 (N / (D * 2 ^ j)) + j) as Hd.
  { rewrite Hdiv. apply Zdigits2_shift; [|done]. rewrite <- Hdiv. lia. }
  assert (2 ^ 52 <= N / D) as Hq'.
  { rewrite Hdiv in Hq.
    assert (N / D / 2 ^ j <= N / D); [|lia].
    apply Z.div_le_upper_bound; [lia|].
    assert (0 <= N / D); [|nia].
    destruct (Z.le_gt_cases 0 (N / D)) as [|Hneg]; [done|]. exfalso.
    assert (N / D / 2 ^ j < 0) by (apply Z.div_lt_upper_bound; lia). lia. }
  destruct (roundAt_spec N (D * 2 ^ j) e ltac:(lia) Hq ltac:(lia) Hmax) as (_ & _ & ->).
  destruct (roundAt_spec N D (e - j) HD Hq' He ltac:(lia)) as (_ & _ & ->).
  rewrite Hd.
  replace (Zdigits2 (N / (D * 2 ^ j)) + j - 53) with (Zdigits2 (N / (D * 2 ^ j)) - 53 + j) by lia.
  set (k := Zdigits2 (N / (D * 2 ^ j)) - 53).
  assert (0 <= k).
  { subst k. pose proof (Zdigits2_bounds (N / (D * 2 ^ j)) ltac:(lia)) as Hb.
    destruct (Z.le_gt_cases 53 (Zdigits2 (N / (D * 2 ^ j)))) as [|Hlt]; [lia|]. exfalso.
    assert (2 ^ Zdigits2 (N / (D * 2 ^ j)) <= 2 ^ 52) by (apply Z.pow_le_mono_r; lia). lia. }
  replace (D * 2 ^ (k + j)) with (D * 2 ^ j * 2 ^ k) by (rewrite Z.pow_add_r by lia; ring).
  replace (e - j + (k + j)) with (e + k) by lia. done.
Qed.

Lemma roundAt_exact M e :
  roundAt M 1 e = binary_round_aux 53 1024 false M e loc_Exact.
Proof. unfold roundAt. by rewrite Z.div_1_r, Z.mod_1_r. Qed.

Lemma iter_xO p d : Zpos (Pos.iter xO p d) = Zpos p * 2 ^ Zpos d.
Proof.
  induction d as [|d IH] using Pos.peano_ind.
  - simpl. lia.
  - rewrite Pos.iter_succ. rewrite Pos2Z.inj_xO, IH.
    rewrite Pos2Z.inj_succ, Z.pow_succ_r by lia. ring.
Qed.

(** The conversion of an integer below 2^64, as a rounding at the scale
    2^-52. *)
Lemma float64_of_uint64_round x :
  0 < x < 2 ^ 64 -> float64_of_uint64 x = roundAt (x * 2 ^ 52) 1 (- 52).
Proof.
  intros Hx. destruct x as [|p|p]; try lia.
  pose proof (Zdigits2_bounds (Zpos p) ltac:(lia)) as Hb.
  assert (1 <= Zdigits2 (Zpos p) <= 64) as Hd.
  { assert (0 < Zdigits2 (Zpos p)) by (simpl; lia). split; [lia|].
    destruct (Z.le_gt_cases (Zdigits2 (Zpos p)) 64) as [|Hgt]; [done|]. exfalso.
    assert (2 ^ 64 <= 2 ^ (Zdigits2 (Zpos p) - 1)) by (apply Z.pow_le_mono_r; lia). lia. }
  unfold float64_of_uint64, binary_normalize, binary_round, fexp, emin.
  change (Zpos (digits2_pos p)) with (Zdigits2 (Zpos p)).
  replace (Z.max (Zdigits2 (Zpos p) + 0 - 53) (3 - 1024 - 53)) with (Zdigits2 (Zpos p) - 53) by lia.
  unfold shl_align.
  destruct (Zdigits2 (Zpos p) - 53 - 0) as [|s|s] eqn:Hs.
  - (* 53 digits: no alignment *)
    rewrite <- roundAt_exact.
    rewrite <- (roundAt_cancel (Zpos p) 1 (2 ^ 52)) by lia.
    rewrite (roundAt_shift (Zpos p * 2 ^ 52) 1 52 0); [done|lia|lia| |lia|].
    + rewrite Z.div_mul_cancel_r by lia. rewrite Z.div_1_r.
      replace 52 with (Zdigits2 (Zpos p) - 1) by lia. lia.
    + rewrite Z.div_mul_cancel_r by lia. rewrite Z.div_1_r. lia.
  - (* more than 53 digits *)
    rewrite <- roundAt_exact.
    rewrite <- (roundAt_cancel (Zpos p) 1 (2 ^ 52)) by lia.
    rewrite (roundAt_shift (Zpos p * 2 ^ 52) 1 52 0); [done|lia|lia| |lia|].
    + rewrite Z.div_mul_cancel_r by lia. rewrite Z.div_1_r.
      assert (2 ^ 52 <= 2 ^ (Zdigits2 (Zpos p) - 1)) by (apply Z.pow_le_mono_r; lia). lia.
    + rewrite Z.div_mul_cancel_r by lia. rewrite Z.div_1_r. lia.
  - (* fewer than 53 digits: the mantissa is aligned to 53 digits *)
    rewrite iter_xO. rewrite <- roundAt_exact.
    assert (Zpos s = 53 - Zdigits2 (Zpos p)) as Hs' by lia.
    assert (0 < 2 ^ Zpos s) as Hps by (apply Z.pow_pos_nonneg; lia).
    assert (0 < 2 ^ (52 - Zpos s)) as Hpj by (apply Z.pow_pos_nonneg; lia).
    assert (2 ^ 52 = 2 ^ Zpos s * 2 ^ (52 - Zpos s)) as H52.
    { rewrite <- Z.pow_add_r by lia. f_equal. lia. }
    assert (Zdigits2 (Zpos p * 2 ^ Zpos s) = 53) as Hdig.
    { apply Zdigits2_unique; [|lia]. change (53 - 1) with 52.
      assert (2 ^ 52 = 2 ^ (Zdigits2 (Zpos p) - 1) * 2 ^ Zpos s) as Ha.
      { rewrite <- Z.pow_add_r by lia. f_equal. lia. }
      assert (2 ^ 53 = 2 ^ Zdigits2 (Zpos p) * 2 ^ Zpos s) as Hc.
      { rewrite <- Z.pow_add_r by lia. f_equal. lia. }
      nia. }
    pose proof (Zdigits2_bounds (Zpos p * 2 ^ Zpos s) ltac:(nia)) as Hb'.
    rewrite Hdig in Hb'. change (53 - 1) with 52 in Hb'.
    rewrite <- (roundAt_cancel (Zpos p * 2 ^ Zpos s) 1 (2 ^ (52 - Zpos s))) by lia.
    replace (Zpos p * 2 ^ Zpos s * 2 ^ (52 - Zpos s)) with (Zpos p * 2 ^ 52)
      by (rewrite H52; ring).
    replace (Zdigits2 (Zpos p) - 53) with (- Zpos s) by lia.
    rewrite (roundAt_shift (Zpos p * 2 ^ 52) 1 (52 - Zpos s) (- Zpos s)).
    + f_equal. lia.
    + lia.
    + lia.
    + rewrite H52. rewrite Z.mul_assoc. rewrite Z.div_mul_cancel_r by lia.
      rewrite Z.div_1_r. lia.
    + lia.
    + rewrite H52. rewrite Z.mul_assoc. rewrite Z.div_mul_cancel_r by lia.
      rewrite Z.div_1_r. rewrite Hdig. lia.
Qed.

(** The quotient of two positive floats with 53-digit mantissas, as a
    rounding. *)
Lemma float64_div_round m1 e1 m2 e2 :
  Zdigits2 (Zpos m1) = 53 -> Zdigits2 (Zpos m2) = 53 -> - 1074 <= e1 - e2 - 53 ->
  float64_div (S754_finite false m1 e1) (S754_finite false m2 e2) =
  roundAt (Zpos m1 * 2 ^ 53) (Zpos m2) (e1 - e2 - 53).
Proof.
  intros H1 H2 He. unfold float64_div, SFdiv, SFdiv_core_binary, fexp, emin.
  rewrite H1, H2.
  replace (Z.min (Z.max (53 + e1 - (53 + e2) - 53) (3 - 1024 - 53)) (e1 - e2))
    with (e1 - e2 - 53) by lia.
  replace (e1 - e2 - (e1 - e2 - 53)) with 53 by lia.
  rewrite Z.shiftl_mul_pow2 by lia.
  unfold roundAt, Z.div, Z.modulo.
  by destruct (Z.div_eucl (Zpos m1 * 2 ^ 53) (Zpos m2)) as [q r].
Qed.

Lemma SFleb_lex m1 e1 m2 e2 :
  e1 < e2 \/ (e1 = e2 /\ Zpos m1 <= Zpos m2) ->
  SFleb (S754_finite false m1 e1) (S754_finite false m2 e2) = true.
Proof.
  intros H. unfold SFleb, SFcompare.
  destruct (Z.compare_spec e1 e2) as [Heq|Hlt|Hgt]; [|done|lia].
  change (Pos.compare_cont Eq m1 m2) with (Pos.compare m1 m2).
  destruct (Pos.compare_spec m1 m2); [done|done|lia].
Qed.

(** [toMs] on a positive integer below 2^64, as a rounding at the scale
    2^-72 of a numerator that grows with the integer. *)
Lemma toMs_round x :
  0 < x < 2 ^ 64 ->
  exists m1 e1,
    float64_of_uint64 x = S754_finite false m1 e1 /\
    2 ^ 52 <= Zpos m1 < 2 ^ 53 /\ - 52 <= e1 <= 12 /\
    toMs x = roundAt (Zpos m1 * 2 ^ (105 + e1)) 8589934592000000 (- 72).
Proof.
  intros Hx.
  assert (0 < 2 ^ 52) as H52 by done.
  assert (Zdigits2 (x * 2 ^ 52 / 1) <= 116) as Hdx.
  { rewrite Z.div_1_r.
    destruct (Z.le_gt_cases (Zdigits2 (x * 2 ^ 52)) 116) as [|Hgt]; [done|]. exfalso.
    pose proof (Zdigits2_bounds (x * 2 ^ 52) ltac:(lia)) as Hb.
    assert (2 ^ 116 <= 2 ^ (Zdigits2 (x * 2 ^ 52) - 1)) by (apply Z.pow_le_mono_r; lia).
    change (2 ^ 116) with (2 ^ 64 * 2 ^ 52) in *. nia. }
  destruct (roundAt_mono (x * 2 ^ 52) (x * 2 ^ 52) 1 (- 52))
    as (m1 & e1 & m1' & e1' & Hr & Hr' & Hm1 & _ & He1 & He1' & _);
    [lia|rewrite Z.div_1_r; lia|lia|lia|lia|].
  rewrite Hr in Hr'. injection Hr' as <- <-.
  exists m1, e1. rewrite float64_of_uint64_round by lia.
  split; [done|]. split; [done|]. split; [lia|].
  unfold toMs. rewrite float64_of_uint64_round by lia. rewrite Hr.
  change (float64_of_uint64 1000000) with (S754_finite false 8589934592000000 (- 33)).
  rewrite float64_div_round; [|by apply Zdigits2_unique|done|lia].
  assert (0 < 2 ^ (e1 + 52)) as Hpj by (apply Z.pow_pos_nonneg; lia).
  rewrite <- (roundAt_cancel _ _ (2 ^ (e1 + 52))) by lia.
  replace (Zpos m1 * 2 ^ 53 * 2 ^ (e1 + 52)) with (Zpos m1 * 2 ^ (105 + e1)).
  2:{ replace (105 + e1) with (53 + (e1 + 52)) by lia. rewrite Z.pow_add_r by lia. ring. }
  assert (2 ^ 52 <= Zpos m1 * 2 ^ (105 + e1) / (8589934592000000 * 2 ^ (e1 + 52))
          < 2 ^ 54) as Hq.
  { replace (105 + e1) with (53 + (e1 + 52)) by lia. rewrite Z.pow_add_r by lia.
    rewrite Z.mul_assoc. rewrite Z.div_mul_cancel_r by lia. split.
    - apply Z.div_le_lower_bound; lia.
    - apply Z.div_lt_upper_bound; lia. }
  rewrite roundAt_shift; [f_equal; lia|lia|lia|lia|lia|].
  assert (Zdigits2 (Zpos m1 * 2 ^ (105 + e1) / (8589934592000000 * 2 ^ (e1 + 52))) <= 54);
    [|lia].
  set (q := Zpos m1 * 2 ^ (105 + e1) / (8589934592000000 * 2 ^ (e1 + 52))) in *.
  destruct (Z.le_gt_cases (Zdigits2 q) 54) as [|Hgt]; [done|]. exfalso.
  pose proof (Zdigits2_bounds q ltac:(lia)) as Hb.
  assert (2 ^ 54 <= 2 ^ (Zdigits2 q - 1)) by (apply Z.pow_le_mono_r; lia). lia.
Qed.

(** [toMs] on the values of a [uint64] keeps their order: on positive
    integers the two results are positive normalised numbers, compared first
    by exponent, then by mantissa. *)
Lemma toMs_lex x y :
  0 < x -> x <= y -> y < 2 ^ 64 ->
  exists m1 e1 m2 e2,
    toMs x = S754_finite false m1 e1 /\
    toMs y = S754_finite false m2 e2 /\
    2 ^ 52 <= Zpos m1 < 2 ^ 53 /\ 2 ^ 52 <= Zpos m2 < 2 ^ 53 /\
    - 72 <= e1 /\ e2 <= - 5 /\
    (e1 < e2 \/ (e1 = e2 /\ Zpos m1 <= Zpos m2)).
Proof.
  intros Hx Hxy Hy.
  destruct (toMs_round y ltac:(lia)) as (m2 & e2 & Hc2 & Hm2 & He2 & Hr2).
  destruct (toMs_round x ltac:(lia)) as (m1 & e1 & Hc1 & Hm1 & He1 & Hr1).
  assert (Hframe : forall m e, 2 ^ 52 <= Zpos m < 2 ^ 53 -> - 52 <= e <= 12 ->
            2 ^ 52 <= Zpos m * 2 ^ (105 + e) / 8589934592000000 /\
            Zdigits2 (Zpos m * 2 ^ (105 + e) / 8589934592000000) <= 119).
  { intros m e Hm He.
    assert (0 < 2 ^ (52 + e)) as Hp by (apply Z.pow_pos_nonneg; lia).
    assert (2 ^ (105 + e) = 2 ^ 53 * 2 ^ (52 + e)) as Hpow.
    { rewrite <- Z.pow_add_r by lia. f_equal. lia. }
    assert (2 ^ (52 + e) <= 2 ^ 64) as Hp64 by (apply Z.pow_le_mono_r; lia).
    assert (2 ^ 52 <= Zpos m * 2 ^ (105 + e) / 8589934592000000) as Hlo.
    { apply Z.div_le_lower_bound; [done|]. rewrite Hpow. nia. }
    split; [done|].
    set (q := Zpos m * 2 ^ (105 + e) / 8589934592000000) in *.
    assert (q < 2 ^ 119).
    { subst q. apply Z.div_lt_upper_bound; [done|]. rewrite Hpow.
      change (2 ^ 119) with (2 ^ 2 * 2 ^ 53 * 2 ^ 64). nia. }
    destruct (Z.le_gt_cases (Zdigits2 q) 119) as [|Hgt]; [done|]. exfalso.
    pose proof (Zdigits2_bounds q ltac:(lia)) as Hb.
    assert (2 ^ 119 <= 2 ^ (Zdigits2 q - 1)) by (apply Z.pow_le_mono_r; lia). lia. }
  (* the conversions of x and y are ordered *)
  destruct (roundAt_mono (x * 2 ^ 52) (y * 2 ^ 52) 1 (- 52))
    as (m1' & e1' & m2' & e2' & Hx1 & Hy1 & _ & _ & _ & _ & Hlex);
    [lia|rewrite Z.div_1_r; lia|lia|lia| |].
  { rewrite Z.div_1_r.
    assert (Zdigits2 (y * 2 ^ 52) <= 116); [|lia].
    destruct (Z.le_gt_cases (Zdigits2 (y * 2 ^ 52)) 116) as [|Hgt]; [done|]. exfalso.
    pose proof (Zdigits2_bounds (y * 2 ^ 52) ltac:(lia)) as Hb.
    assert (2 ^ 116 <= 2 ^ (Zdigits2 (y * 2 ^ 52) - 1)) by (apply Z.pow_le_mono_r; lia).
    change (2 ^ 116) with (2 ^ 64 * 2 ^ 52) in *. nia. }
  rewrite <- float64_of_uint64_round in Hx1, Hy1 by lia.
  rewrite Hc1 in Hx1. rewrite Hc2 in Hy1.
  injection Hx1 as <- <-. injection Hy1 as <- <-.
  (* hence so are the numerators of the two quotients *)
  assert (Zpos m1 * 2 ^ (105 + e1) <= Zpos m2 * 2 ^ (105 + e2)) as HN.
  { destruct Hlex as [Hlt|[-> Hle]].
    - assert (0 < 2 ^ (105 + e1)) as Hp by (apply Z.pow_pos_nonneg; lia).
      assert (2 ^ (105 + e2) = 2 ^ (105 + e1) * 2 ^ (e2 - e1)) as Hpow.
      { rewrite <- Z.pow_add_r by lia. f_equal. lia. }
      assert (2 ^ 1 <= 2 ^ (e2 - e1)) as H2 by (apply Z.pow_le_mono_r; lia).
      change (2 ^ 1) with 2 in H2. rewrite Hpow. nia.
    - assert (0 < 2 ^ (105 + e2)) as Hp by (apply Z.pow_pos_nonneg; lia). nia. }
  destruct (Hframe m1 e1 Hm1 He1) as [Hlo1 _].
  destruct (Hframe m2 e2 Hm2 He2) as [_ Hdig2].
  destruct (roundAt_mono _ _ 8589934592000000 (- 72) ltac:(done) Hlo1 HN ltac:(lia) ltac:(lia))
    as (n1 & f1 & n2 & f2 & Hq1 & Hq2 & Hn1 & Hn2 & Hf1 & Hf2 & Hlex2).
  exists n1, f1, n2, f2. rewrite Hr1, Hr2.
  split; [done|]. split; [done|]. split; [done|]. split; [done|].
  split; [done|]. split; [lia|done].
Qed.

(** A normalised number is its own rounding. *)
Lemma roundAt_representable m e :
  2 ^ 52 <= Zpos m < 2 ^ 53 -> - 1074 <= e <= 970 ->
  roundAt (Zpos m) 1 e = S754_finite false m e.
Proof.
  intros Hm He.
  assert (Zdigits2 (Zpos m / 1) = 53) as Hd.
  { rewrite Z.div_1_r. by apply Zdigits2_unique. }
  destruct (roundAt_spec (Zpos m) 1 e) as (_ & _ & ->);
    [done|rewrite Z.div_1_r; lia|lia|lia|].
  rewrite Hd. change (53 - 53) with 0. change (1 * 2 ^ 0) with 1.
  rewrite nearestEven_spec by lia. rewrite Z.mod_1_r, Z.div_1_r.
  change (2 * 0 <? 1) with true. cbv iota.
  destruct (Z.ltb_spec (Zpos m) (2 ^ 53)); [|lia].
  rewrite Z.add_0_r. done.
Qed.

Lemma shl_align_value m e ez :
  ez <= e -> Zpos (fst (shl_align m e ez)) = Zpos m * 2 ^ (e - ez).
Proof.
  intros He. unfold shl_align.
  destruct (ez - e) as [|d|d] eqn:Hd; simpl fst.
  - replace (e - ez) with 0 by lia. simpl. lia.
  - lia.
  - rewrite iter_xO. f_equal. f_equal. lia.
Qed.

(** An integer of 53 digits or more is normalised by one rounding. *)
Lemma binary_normalize_round M e :
  2 ^ 52 <= M -> binary_normalize 53 1024 M e false = roundAt M 1 e.
Proof.
  intros HM. destruct M as [|p|p]; try lia.
  assert (53 <= Zdigits2 (Zpos p)) as Hd.
  { change 53 with (Zdigits2 (2 ^ 52)). by apply Zdigits2_mono. }
  unfold binary_normalize, binary_round, fexp, emin, shl_align.
  change (Zpos (digits2_pos p)) with (Zdigits2 (Zpos p)).
  rewrite roundAt_exact.
  destruct (Z.max (Zdigits2 (Zpos p) + e - 53) (3 - 1024 - 53) - e) eqn:Hs; [done|done|lia].
Qed.

(** Adding the tolerance 1.0 to a normalised number between 2^-20 and 2^48
    does not decrease it. *)
Lemma SFadd_one_lex m e :
  2 ^ 52 <= Zpos m < 2 ^ 53 -> - 72 <= e <= - 5 ->
  exists m' e',
    SFadd 53 1024 (S754_finite false m e) (float64_of_uint64 1) = S754_finite false m' e' /\
    (e < e' \/ (e = e' /\ Zpos m <= Zpos m')).
Proof.
  intros Hm He.
  change (float64_of_uint64 1) with (S754_finite false 4503599627370496 (- 52)).
  unfold SFadd, cond_Zopp.
  set (ez := Z.min e (- 52)).
  assert (- 72 <= ez <= e /\ ez <= - 52) as Hez by lia.
  rewrite !shl_align_value by lia.
  assert (0 < 2 ^ (e - ez)) as Hp1 by (apply Z.pow_pos_nonneg; lia).
  assert (0 < 2 ^ (- 52 - ez)) as Hp2 by (apply Z.pow_pos_nonneg; lia).
  assert (2 ^ (e - ez) <= 2 ^ 67) as Hq1 by (apply Z.pow_le_mono_r; lia).
  assert (2 ^ (- 52 - ez) <= 2 ^ 20) as Hq2 by (apply Z.pow_le_mono_r; lia).
  set (N1 := Zpos m * 2 ^ (e - ez)).
  set (N2 := N1 + 4503599627370496 * 2 ^ (- 52 - ez)).
  assert (2 ^ 52 <= N1) as HN1 by (subst N1; nia).
  assert (N1 <= N2) as HN by (subst N2; lia).
  assert (N2 < 2 ^ 121) as HN2.
  { subst N2 N1. change (2 ^ 121) with (2 * (2 ^ 53 * 2 ^ 67)).
    change 4503599627370496 with (2 ^ 52). nia. }
  rewrite binary_normalize_round by lia.
  destruct (roundAt_mono N1 N2 1 ez) as (m1 & e1 & m2 & e2 & Hr1 & Hr2 & _ & _ & _ & _ & Hlex);
    [lia|rewrite Z.div_1_r; lia|lia|lia| |].
  { rewrite Z.div_1_r. assert (Zdigits2 N2 <= 121); [|lia].
    destruct (Z.le_gt_cases (Zdigits2 N2) 121) as [|Hgt]; [done|]. exfalso.
    pose proof (Zdigits2_bounds N2 ltac:(lia)) as Hb.
    assert (2 ^ 121 <= 2 ^ (Zdigits2 N2 - 1)) by (apply Z.pow_le_mono_r; lia). lia. }
  assert (roundAt N1 1 ez = S754_finite false m e) as Hself.
  { rewrite <- (roundAt_representable m e) by lia.
    rewrite <- (roundAt_cancel (Zpos m) 1 (2 ^ (e - ez)) e) by lia.
    fold N1. rewrite roundAt_shift; [f_equal; lia|lia|lia| |lia|].
    - subst N1. rewrite Z.div_mul_cancel_r by lia. rewrite Z.div_1_r. lia.
    - subst N1. rewrite Z.div_mul_cancel_r by lia. rewrite Z.div_1_r.
      rewrite (Zdigits2_unique (Zpos m) 53) by (done || lia). lia. }
  rewrite Hr1 in Hself. injection Hself as -> ->.
  exists m2, e2. by rewrite Hr2.
Qed.

(** Ordered results of [toMs] are ordered within the tolerance 1.0 too. *)
Lemma toMs_leWithin x y :
  0 < x -> x <= y -> y < 2 ^ 64 ->
  SFltb (S754_zero false) (toMs x) = true /\
  SFleb (toMs x) (toMs y) = true /\
  leWithin (float64_of_uint64 1) (toMs x) (toMs y) = true.
Proof.
  intros Hx Hxy Hy.
  destruct (toMs_lex x y Hx Hxy Hy)
    as (m1 & e1 & m2 & e2 & -> & -> & Hm1 & Hm2 & He1 & He2 & Hlex).
  split; [done|]. split; [by apply SFleb_lex|].
  unfold leWithin.
  destruct (SFadd_one_lex m2 e2 Hm2 ltac:(lia)) as (m3 & e3 & -> & Hlex3).
  apply SFleb_lex. lia.
Qed.

(** ** The latency aggregates *)

Example timesAsClaimed_sample :
  timesAsClaimed ([1000000; 5000000; 10000000] ++ replicate (TIME_BUCKETS - 3) 0).
Proof. vm_compute. split; reflexivity. Qed.

(** On the reservoir [wrapping] the sum of the two samples wraps to 0: the
    average is 0 ms, far below the minimum of 2^63 ns. *)
Lemma calculateTimes_not_as_claimed :
  reservoir wrapping /\ timeStats wrapping = (2 ^ 63, 0, 2 ^ 63) /\ ~ timesAsClaimed wrapping.
Proof.
  split; [|split].
  - split; [vm_compute; reflexivity|].
    apply Forall_app. split.
    + repeat constructor; lia.
    + apply Forall_replicate. lia.
  - vm_compute. reflexivity.
  - intros [H _]. vm_compute in H. discriminate H.
Qed.

Lemma timeStep_inv acc val :
  timeInv acc -> 0 <= val -> t_total acc + val < 2 ^ 64 ->
  timeInv (timeStep acc val) /\
  t_total (timeStep acc val) = t_total acc + val /\
  (val <> 0 -> t_has_min (timeStep acc val) = true) /\
  (val = 0 -> timeStep acc val = acc).
Proof.
  intros Hinv Hv Hsum. pose proof Hinv as (Hc & Ht & Hf & Htr). unfold timeStep.
  destruct (Z.eqb_spec val 0) as [->|Hnz].
  { split; [exact Hinv|]. split; [lia|]. split; [by intros []|done]. }
  clear Hinv.
  destruct acc as [c t mn mx hm]; simpl in *.
  assert (Hct : c <= t).
  { destruct hm; [|destruct Hf as (-> & -> & _); done]. destruct (Htr eq_refl) as (? & ? & ? & ?). nia. }
  unfold uint64. rewrite !Z.mod_small by lia.
  assert (Hgoal : forall mn' mx' : Z,
            0 < mn' -> mn' <= val -> val <= mx' ->
            (hm = true -> mn' <= mn /\ mx <= mx') ->
            timeInv (TimeAcc (c + 1) (t + val) mn' mx' true)).
  { intros mn' mx' ? ? ? Hold. unfold timeInv. simpl.
    split; [lia|]. split; [lia|]. split; [intros [=]|]. intros _.
    split; [lia|]. split; [lia|].
    destruct hm.
    - destruct (Htr eq_refl) as (? & ? & ? & ?). destruct (Hold eq_refl). nia.
    - destruct (Hf eq_refl) as (-> & -> & _). lia. }
  destruct hm; simpl.
  - destruct (Htr eq_refl) as (Hc0 & Hm0 & Hlo & Hhi).
    rewrite orb_false_r.
    destruct (Z.ltb_spec val mn), (Z.gtb_spec val mx); simpl;
      (split; [apply Hgoal; lia|]; split; [reflexivity|];
       split; [reflexivity|]; intros Hz; destruct (Hnz Hz)).
  - destruct (Hf eq_refl) as (-> & -> & -> & ->). rewrite orb_true_r. simpl.
    destruct (Z.gtb_spec val 0); [|lia].
    split; [apply Hgoal; try lia; intros [=]|]. split; [reflexivity|].
    split; [reflexivity|]. intros Hz; destruct (Hnz Hz).
Qed.

Lemma timeLoop_inv timings : forall acc,
  timeInv acc ->
  Forall (fun v => 0 <= v) timings ->
  t_total acc + foldr Z.add 0 timings < 2 ^ 64 ->
  timeInv (fold_left timeStep timings acc) /\
  (t_has_min acc = true \/ Exists (fun v => v <> 0) timings ->
   t_has_min (fold_left timeStep timings acc) = true).
Proof.
  induction timings as [|val timings IH]; intros acc Hinv Hall Hsum; simpl in *.
  - split; [done|]. intros [?|Hex]; [done|]. by apply Exists_nil in Hex.
  - apply Forall_cons in Hall as [Hv Hall].
    assert (Hrest : 0 <= foldr Z.add 0 timings).
    { clear -Hall. induction Hall; simpl; lia. }
    destruct (timeStep_inv acc val Hinv Hv) as (Hinv' & Ht' & Hnz & Hz); [lia|].
    destruct (IH (timeStep acc val) Hinv' Hall) as [Hfin Hhas]; [lia|].
    split; [done|]. intros [Hacc|Hex]; apply Hhas.
    + destruct (Z.eq_dec val 0) as [->|?]; [rewrite Hz by done; by left|left; by apply Hnz].
    + apply Exists_cons in Hex as [?|?]; [left; by apply Hnz|by right].
Qed.

(** The maximum stays below any bound of the slots. *)
Lemma timeLoop_max (bound : Z) timings : forall acc,
  Forall (fun v => v < bound) timings ->
  t_max acc < bound ->
  t_max (fold_left timeStep timings acc) < bound.
Proof.
  induction timings as [|val timings IH]; intros acc Hall Hacc; simpl; [done|].
  apply Forall_cons in Hall as [Hv Hall]. apply IH; [done|].
  unfold timeStep. destruct (val =? 0); [done|].
  destruct ((val <? t_min acc) || negb (t_has_min acc)); simpl;
    by destruct (val >? t_max acc).
Qed.

(** C9, amended.  For every reservoir with at least one nonzero slot whose
    slots sum to less than 2^64, the three [float64] values that
    [calculateTimes] returns satisfy [0 < min <= avg <= max] exactly, and so
    within the tolerance of one millisecond too.  They are the quotients by
    1000000 of the nanosecond values [min], [avg] (integer division of the
    sum by the count) and [max] computed over the nonzero slots, which
    satisfy [0 < min <= avg <= max] themselves. *)
Theorem calculateTimes_ordered (timings : list Z) :
  Forall (fun v => 0 <= v < 2 ^ 64) timings ->
  Exists (fun v => v <> 0) timings ->
  foldr Z.add 0 timings < 2 ^ 64 ->
  exists mn avg mx,
    timeStats timings = (mn, avg, mx) /\
    calculateTimes timings = (toMs mn, toMs avg, toMs mx) /\
    0 < mn <= avg /\ avg <= mx /\
    SFltb (S754_zero false) (toMs mn) = true /\
    SFleb (toMs mn) (toMs avg) = true /\
    SFleb (toMs avg) (toMs mx) = true /\
    timesAsClaimed timings.
Proof.
  intros Hall Hex Hsum.
  destruct (timeLoop_inv timings (TimeAcc 0 0 0 0 false)) as [Hinv Hhas].
  { repeat split; simpl; try done; try lia. }
  { eapply Forall_impl; [exact Hall|]. simpl. lia. }
  { simpl. lia. }
  specialize (Hhas (or_intror Hex)).
  pose proof (timeLoop_max (2 ^ 64) timings (TimeAcc 0 0 0 0 false)) as Hmax.
  unfold timesAsClaimed, calculateTimes, timeStats.
  set (acc := fold_left timeStep timings _) in *.
  destruct Hinv as (_ & _ & _ & Htr). destruct (Htr Hhas) as (Hc & Hm & Hlo & Hhi).
  destruct (Z.gtb_spec (t_counts acc) 0); [|lia].
  assert (t_min acc <= t_total acc / t_counts acc) as Hle1
    by (apply Z.div_le_lower_bound; lia).
  assert (t_total acc / t_counts acc <= t_max acc) as Hle2
    by (apply Z.div_le_upper_bound; lia).
  assert (t_max acc < 2 ^ 64) as Hlt.
  { apply Hmax; [|done]. eapply Forall_impl; [exact Hall|]. simpl. lia. }
  destruct (toMs_leWithin (t_min acc) (t_total acc / t_counts acc)) as (Hpos & Hf1 & Ht1);
    [lia..|].
  destruct (toMs_leWithin (t_total acc / t_counts acc) (t_max acc)) as (_ & Hf2 & Ht2);
    [lia..|].
  eexists _, _, _. split; [reflexivity|]. split; [reflexivity|].
  split; [lia|]. split; [lia|]. by repeat split.
Qed.

Lemma calculateTimes_ordered_witness :
  exists mn avg mx,
    timeStats [1000000; 0; 5000000; 10000000] = (mn, avg, mx) /\
    calculateTimes [1000000; 0; 5000000; 10000000] = (toMs mn, toMs avg, toMs mx) /\
    0 < mn <= avg /\ avg <= mx /\
    SFltb (S754_zero false) (toMs mn) = true /\
    SFleb (toMs mn) (toMs avg) = true /\
    SFleb (toMs avg) (toMs mx) = true /\
    timesAsClaimed [1000000; 0; 5000000; 10000000].
Proof.
  apply calculateTimes_ordered.
  - repeat constructor; lia.
  - apply Exists_cons_hd. lia.
  - vm_compute. reflexivity.
Defined.

(** ** The token stage *)

Ltac bool_to_Z :=
  repeat match goal with
    | H : _ && _ = true |- _ => apply andb_true_iff in H; destruct H
    | H : _ || _ = true |- _ => apply orb_true_iff in H
    | H : _ && _ = false |- _ => apply andb_false_iff in H
    | H : _ || _ = false |- _ => apply orb_false_iff in H; destruct H
    | H : (_ =? _) = true |- _ => apply Z.eqb_eq in H
    | H : (_ =? _) = false |- _ => apply Z.eqb_neq in H
    | H : (_ <=? _) = true |- _ => apply Z.leb_le in H
    | H : (_ <=? _) = false |- _ => apply Z.leb_gt in H
    end.

(** Decides an equation between byte classes from the ranges of the codes. *)
Ltac classes :=
  unfold isWordChar, isQuote, isDigit, isSpace, isLetter, beq, between in *;
  match goal with
  | |- ?b = false => destruct b eqn:?; [exfalso|reflexivity]
  | |- ?b = true => destruct b eqn:?; [reflexivity|exfalso]
  | |- _ => idtac
  end;
  bool_to_Z; lia.

Lemma beq_eq c z : beq c z = true -> c = byte_of z.
Proof. unfold beq. intros H%Z.eqb_eq. rewrite <- H. symmetry. apply byte_of_code. Qed.

Lemma eqb_code c d : Ascii.eqb c d = (code c =? code d).
Proof.
  destruct (Ascii.eqb_spec c d) as [->|Hne]; [by rewrite Z.eqb_refl|].
  symmetry. apply Z.eqb_neq. intros Heq. apply Hne.
  rewrite <- (byte_of_code c), <- (byte_of_code d). by rewrite Heq.
Qed.

Lemma tokenLoop_length cfg fuel query qs :
  tokenLoop cfg fuel query = Some qs ->
  tokenLoop cfg (length query) query = Some qs.
Proof.
  intros H. destruct (tokenLoop_total cfg (length query) query) as [qs' Hqs']; [lia|].
  destruct (Nat.le_ge_cases fuel (length query)).
  - by rewrite (tokenLoop_fuel _ _ _ _ _ H).
  - rewrite Hqs'. rewrite (tokenLoop_fuel _ _ _ _ _ Hqs') in H by done. done.
Qed.

Lemma tokenText_nil cfg : tokenText cfg [] = Some [].
Proof. reflexivity. Qed.

Lemma tokenText_cons cfg b rest n t :
  scanToken cfg (b :: rest) = Some (n, t) ->
  tokenText cfg (b :: rest) =
  tx ← tokenText cfg (drop n (b :: rest)); Some (emit t (take n (b :: rest)) ++ tx).
Proof.
  intros Hs. unfold tokenText. change (length (b :: rest)) with (S (length rest)).
  rewrite tokenLoop_cons, Hs. cbn [mbind option_bind].
  pose proof (scanToken_bounds _ _ _ _ Hs) as Hn.
  destruct (tokenLoop_total cfg (length (drop n (b :: rest))) (drop n (b :: rest)))
    as [qs Hqs]; [lia|].
  rewrite Hqs. rewrite (tokenLoop_fuel _ _ _ _ _ Hqs); [done|].
  rewrite length_drop. simpl in *. lia.
Qed.

Lemma cleanupQuery_finish cfg query :
  cleanupQuery cfg query = tx ← tokenText cfg query; Some (finish tx).
Proof.
  unfold cleanupQuery, cleanupQueryFuel, tokenText, finish.
  by destruct (tokenLoop cfg (length query) query).
Qed.

Lemma tokenText_total cfg query : is_Some (tokenText cfg query).
Proof.
  unfold tokenText. destruct (tokenLoop_total cfg (length query) query) as [qs ->]; [lia|].
  simpl. eauto.
Qed.

(** In the debug mode the token stage is the identity. *)
Lemma tokenText_noclean cfg query :
  verbose cfg && noclean cfg = true -> tokenText cfg query = Some query.
Proof.
  intros Hm. destruct query as [|b rest]; [done|].
  erewrite tokenText_cons; [|unfold scanToken; rewrite Hm; reflexivity].
  rewrite drop_all, take_ge by done. simpl. by rewrite app_nil_r.
Qed.

Lemma scanWhile_split p i rest :
  exists w r, rest = w ++ r /\ scanWhile p i rest = (i + length w)%nat /\
    Forall (fun c => p c = true) w /\
    match r with [] => True | c :: _ => p c = false end.
Proof.
  revert i. induction rest as [|c rest IH]; intros i; simpl.
  - exists [], []. repeat split; [simpl; lia|constructor].
  - destruct (p c) eqn:Hc.
    + destruct (IH (S i)) as (w & r & -> & Hn & Hw & Hr).
      exists (c :: w), r. repeat split; [simpl; lia|by constructor|done].
    + exists [], (c :: rest). repeat split; [simpl; lia|constructor|done].
Qed.

(** ** Texts the token stage leaves unchanged *)

Lemma tstep_mono runs s s' c t :
  tstep runs s c = Some t -> sle s s' -> exists t', tstep runs s' c = Some t' /\ sle t t'.
Proof.
  unfold tstep. intros H Hle.
  destruct (isQuote c); [done|].
  destruct (isSpace c).
  { destruct (beq c 32); [|done].
    destruct s, s', runs; simpl in Hle; try done; simplify_eq/=;
      (eexists; split; [reflexivity|exact I]). }
  destruct (isDigit c).
  { destruct s, s'; simpl in Hle; try done; simplify_eq/=;
      (eexists; split; [reflexivity|exact I]). }
  destruct (isLetter c).
  { simplify_eq. eexists; split; [reflexivity|exact I]. }
  destruct (beq c 36 || beq c 95); destruct s, s'; simpl in Hle; try done;
    simplify_eq/=; (eexists; split; [reflexivity|exact I]).
Qed.

Lemma trun_mono runs x : forall s s',
  is_Some (trun runs s x) -> sle s s' -> is_Some (trun runs s' x).
Proof.
  induction x as [|c x IH]; intros s s' H Hle; simpl in *; [eauto|].
  destruct (tstep runs s c) as [t|] eqn:Ht; [|by destruct H]. simpl in H.
  destruct (tstep_mono _ _ _ _ _ Ht Hle) as (t' & -> & Hle'). simpl. eauto.
Qed.

Lemma trun_app runs s x y :
  trun runs s (x ++ y) = s' ← trun runs s x; trun runs s' y.
Proof.
  revert s. induction x as [|c x IH]; intros s; simpl; [done|].
  destruct (tstep runs s c); simpl; [apply IH|done].
Qed.

Lemma trun_cons runs s c x :
  trun runs s (c :: x) = s' ← tstep runs s c; trun runs s' x.
Proof. reflexivity. Qed.

Lemma trun_word runs w : Forall (fun c => isWordChar c = true) w ->
  trun runs SWord w = Some SWord.
Proof.
  induction 1 as [|c w Hc _ IH]; simpl; [done|].
  assert (tstep runs SWord c = Some SWord) as ->; [|done].
  unfold tstep.
  assert (isQuote c = false) as -> by classes.
  assert (isSpace c = false) as -> by classes.
  destruct (isDigit c) eqn:?; [done|]. destruct (isLetter c) eqn:?; [done|].
  assert (beq c 36 || beq c 95 = true) as ->; [|done].
  unfold isWordChar in Hc. rewrite Heqb, Heqb0 in Hc. done.
Qed.

(** What the token stage emits is stable: in state [s], provided the query
    does not begin with whitespace when the text before ends with a space. *)
Lemma tokenText_trun cfg :
  verbose cfg && noclean cfg = false ->
  forall n query tx s,
    (length query <= n)%nat ->
    tokenText cfg query = Some tx ->
    (s = SSpace -> match query with c :: _ => isSpace c = false | [] => True end) ->
    is_Some (trun false s tx).
Proof.
  intros Hm. induction n as [|n IH]; intros [|b rest] tx s Hn Htx Hs;
    try (injection Htx as <-; simpl; eauto; fail); [simpl in Hn; lia|].
  destruct (scanToken_nonempty cfg b rest) as (len & t & Hscan).
  pose proof (scanToken_bounds _ _ _ _ Hscan) as Hlen.
  rewrite (tokenText_cons _ _ _ _ _ Hscan) in Htx.
  destruct (tokenText cfg (drop len (b :: rest))) as [tx'|] eqn:Hrest; [|done].
  injection Htx as <-.
  assert (Hshort : (length (drop len (b :: rest)) <= n)%nat).
  { rewrite length_drop. simpl in *. lia. }
  unfold scanToken in Hscan. rewrite Hm in Hscan.
  destruct (isQuote b) eqn:Hq; [|destruct (isDigit b) eqn:Hd; [|destruct (isSpace b) eqn:Hsp;
    [|destruct (isLetter b) eqn:Hl]]]; injection Hscan as <- <-.
  - (* a quoted string: "?" *)
    simpl emit. simpl app. rewrite trun_cons.
    assert (tstep false s "?" = Some SOther) as -> by (by destruct s).
    simpl. eapply IH; [exact Hshort|exact Hrest|done].
  - (* a number: "?" *)
    simpl emit. simpl app. rewrite trun_cons.
    assert (tstep false s "?" = Some SOther) as -> by (by destruct s).
    simpl. eapply IH; [exact Hshort|exact Hrest|done].
  - (* whitespace: " " *)
    simpl emit. simpl app. rewrite trun_cons.
    assert (tstep false s " " = Some SSpace) as ->.
    { destruct s; try done. specialize (Hs eq_refl). simpl in Hs. congruence. }
    simpl. eapply IH; [exact Hshort|exact Hrest|]. intros _.
    destruct (scanWhile_split isSpace 1 rest) as (w & r & -> & Hw & _ & Hr).
    rewrite Hw. change (b :: w ++ r) with ((b :: w) ++ r).
    rewrite drop_app_length'; [done|simpl; lia].
  - (* a word, verbatim *)
    simpl emit.
    destruct (scanWhile_split isWordChar 1 rest) as (w & r & -> & Hw & Hall & Hr).
    rewrite Hw in *. change (b :: w ++ r) with ((b :: w) ++ r) in *.
    rewrite take_app_length' by (simpl; lia).
    rewrite drop_app_length' in Hrest by (simpl; lia).
    rewrite trun_app. cbn [trun].
    assert (tstep false s b = Some SWord) as ->.
    { unfold tstep. rewrite Hq, Hsp, Hd, Hl. done. }
    simpl. rewrite (trun_word _ _ Hall). simpl.
    eapply IH; [|exact Hrest|done].
    rewrite length_app in Hn. simpl in *. lia.
  - (* any other byte, verbatim *)
    simpl emit. rewrite take_0. simpl take. cbn [app trun].
    simpl drop in Hrest. rewrite drop_0 in Hrest.
    assert (exists s', tstep false s b = Some s' /\ s' <> SSpace) as (s' & -> & Hs').
    { unfold tstep. rewrite Hq, Hsp, Hd, Hl.
      destruct (beq b 36 || beq b 95), s; eauto. }
    simpl. eapply IH; [|exact Hrest|done]. simpl in Hn. lia.
Qed.

Lemma tokenText_is_stable cfg query tx :
  verbose cfg && noclean cfg = false ->
  tokenText cfg query = Some tx -> stable tx.
Proof.
  intros Hm Htx. by eapply (tokenText_trun cfg Hm (length query) query tx SOther).
Qed.

(** A stable text is a fixed point of the token stage. *)
Lemma tokenText_stable cfg : forall n x,
  (length x <= n)%nat -> stable x -> tokenText cfg x = Some x.
Proof.
  destruct (verbose cfg && noclean cfg) eqn:Hm.
  { intros. by apply tokenText_noclean. }
  unfold stable. induction n as [|n IH]; intros [|b rest] Hn Hst; try done; [simpl in Hn; lia|].
  simpl in Hst. destruct (tstep false SOther b) as [s1|] eqn:Hstep; [|by destruct Hst].
  simpl in Hst. unfold tstep in Hstep.
  destruct (isQuote b) eqn:Hq; [done|].
  destruct (isSpace b) eqn:Hsp.
  { (* one space *)
    destruct (beq b 32) eqn:H32; [|done]. injection Hstep as <-.
    apply beq_eq in H32 as ->.
    assert (Hhead : scanWhile isSpace 1 rest = 1%nat).
    { destruct rest as [|c rest']; [done|]. simpl in *.
      destruct (isSpace c) eqn:Hc; [|done].
      unfold tstep in Hst.
      destruct (isQuote c); [by destruct Hst|]. rewrite Hc in Hst.
      destruct (beq c 32); by destruct Hst. }
    erewrite tokenText_cons; [|unfold scanToken; rewrite Hm, Hq; simpl; rewrite Hhead; reflexivity].
    simpl drop. rewrite drop_0. rewrite IH; [done|simpl in Hn; lia|].
    eapply trun_mono; [exact Hst|done]. }
  destruct (isDigit b) eqn:Hd; [done|].
  destruct (isLetter b) eqn:Hl.
  { (* a word *)
    injection Hstep as <-.
    destruct (scanWhile_split isWordChar 1 rest) as (w & r & -> & Hw & Hall & Hr).
    erewrite tokenText_cons; [|unfold scanToken; rewrite Hm, Hq, Hd, Hsp, Hl, Hw; reflexivity].
    change (b :: w ++ r) with ((b :: w) ++ r).
    rewrite take_app_length', drop_app_length' by (simpl; lia).
    rewrite trun_app, (trun_word _ _ Hall) in Hst. simpl in Hst.
    rewrite IH; [done| |].
    - simpl in Hn. rewrite length_app in Hn. lia.
    - destruct r as [|c r']; [simpl; eauto|]. simpl in *.
      destruct (tstep false SWord c) as [s2|] eqn:Hc; [|by destruct Hst].
      assert (tstep false SOther c = Some s2) as ->; [|done].
      revert Hc. unfold tstep. destruct (isQuote c); [done|].
      destruct (isSpace c); [done|].
      unfold isWordChar in Hr. apply orb_false_iff in Hr as [Hr1 Hr3].
      apply orb_false_iff in Hr1 as [Hr1 Hr2]. rewrite Hr1, Hr2, Hr3. done. }
  (* another byte *)
  erewrite tokenText_cons; [|unfold scanToken; rewrite Hm, Hq, Hd, Hsp, Hl; reflexivity].
  simpl drop. rewrite drop_0. simpl take. simpl emit.
  assert (s1 = SOther) as -> by (destruct (beq b 36 || beq b 95); congruence).
  rewrite IH; [done|simpl in Hn; lia|done].
Qed.

Lemma tokenText_idempotent cfg query tx :
  tokenText cfg query = Some tx -> tokenText cfg tx = Some tx.
Proof.
  intros Htx. destruct (verbose cfg && noclean cfg) eqn:Hm.
  { by apply tokenText_noclean. }
  apply (tokenText_stable cfg (length tx)); [done|]. by eapply tokenText_is_stable.
Qed.

(** ** The route comment and the removal of ["?, "] *)

Lemma cut_spec sep s l r :
  cut sep s = Some (l, r) -> s = l ++ sep :: r /\ sep ∉ l.
Proof.
  revert l. induction s as [|c s IH]; intros l; simpl; [done|].
  destruct (Ascii.eqb_spec c sep) as [->|Hne].
  - intros [= <- <-]. split; [done|]. apply not_elem_of_nil.
  - destruct (cut sep s) as [[l' r']|]; [|done]. intros [= <- <-].
    destruct (IH l' eq_refl) as [-> Hl]. split; [done|].
    intros [?|?]%elem_of_cons; congruence.
Qed.

Lemma cut_None sep s : cut sep s = None -> sep ∉ s.
Proof.
  induction s as [|c s IH]; simpl; [intros _; apply not_elem_of_nil|].
  destruct (Ascii.eqb_spec c sep) as [->|Hne]; [done|].
  destruct (cut sep s) as [[l' r']|]; [done|]. intros _.
  intros [?|?]%elem_of_cons; [congruence|by apply IH].
Qed.

Lemma cut_app sep l r : sep ∉ l -> cut sep (l ++ sep :: r) = Some (l, r).
Proof.
  induction l as [|c l IH]; simpl; intros Hl.
  - by rewrite Ascii.eqb_refl.
  - apply not_elem_of_cons in Hl as [Hc Hl].
    destruct (Ascii.eqb_spec c sep); [congruence|]. by rewrite IH.
Qed.

(** The five fields of [SplitN(s, sep, 5)]. *)
Lemma SplitN_5 s sep p0 p1 p2 p3 p4 :
  SplitN s sep 5 = [p0; p1; p2; p3; p4] <->
  s = p0 ++ sep :: (p1 ++ sep :: (p2 ++ sep :: (p3 ++ sep :: p4))) /\
  (sep ∉ p0) /\ (sep ∉ p1) /\ (sep ∉ p2) /\ (sep ∉ p3).
Proof.
  split.
  - simpl.
    destruct (cut sep s) as [[l0 r0]|] eqn:H0; [|done].
    destruct (cut sep r0) as [[l1 r1]|] eqn:H1; [|done].
    destruct (cut sep r1) as [[l2 r2]|] eqn:H2; [|done].
    destruct (cut sep r2) as [[l3 r3]|] eqn:H3; [|done].
    intros [= <- <- <- <- <-].
    apply cut_spec in H0 as [-> ?]. apply cut_spec in H1 as [-> ?].
    apply cut_spec in H2 as [-> ?]. apply cut_spec in H3 as [-> ?]. done.
  - intros (-> & ? & ? & ? & ?). simpl.
    rewrite cut_app by done. rewrite cut_app by done.
    rewrite cut_app by done. rewrite cut_app by done. done.
Qed.

(** The route comment is rewritten exactly on the texts
    [p0 /* host:route */ p4] whose first field [p0] and comment body have
    no space, the host being what precedes the first colon. *)
Lemma stripHost_shape p0 host route p4 :
  " "%char ∉ p0 -> " "%char ∉ host ++ ":"%char :: route -> ":"%char ∉ host ->
  stripHost (p0 ++ B " /* " ++ host ++ B ":" ++ route ++ B " */ " ++ p4)
  = p0 ++ B " /* " ++ route ++ B " */ " ++ p4.
Proof.
  intros Hp0 Hp2 Hh. unfold stripHost.
  assert (Hsplit : SplitN (p0 ++ B " /* " ++ host ++ B ":" ++ route ++ B " */ " ++ p4) " " 5
                   = [p0; B "/*"; host ++ ":"%char :: route; B "*/"; p4]).
  { apply SplitN_5. split; [|split; [done|split; [|split; [done|]]]].
    - simpl. by rewrite <- !app_assoc.
    - apply (bool_decide_unpack _). vm_compute. exact I.
    - apply (bool_decide_unpack _). vm_compute. exact I. }
  rewrite Hsplit. cbv iota beta.
  rewrite !bool_decide_eq_true_2 by done. simpl andb. cbv iota.
  unfold Contains. rewrite bool_decide_eq_true_2 by set_solver.
  simpl SplitN. rewrite cut_app by done. done.
Qed.

Lemma stripHost_cases x :
  stripHost x = x \/
  exists p0 host route p4,
    x = p0 ++ B " /* " ++ host ++ B ":" ++ route ++ B " */ " ++ p4 /\
    (" "%char ∉ p0) /\ (" "%char ∉ host ++ ":"%char :: route) /\ (":"%char ∉ host) /\
    stripHost x = p0 ++ B " /* " ++ route ++ B " */ " ++ p4.
Proof.
  unfold stripHost.
  destruct (SplitN x " " 5) as [|p0 [|p1 [|p2 [|p3 [|p4 [|]]]]]] eqn:Hs; try by left.
  destruct (bool_decide (p1 = B "/*")) eqn:H1; [|by left].
  destruct (bool_decide (p3 = B "*/")) eqn:H3; [|by left].
  apply bool_decide_eq_true in H1 as ->. apply bool_decide_eq_true in H3 as ->.
  unfold Contains. destruct (bool_decide (":"%char ∈ p2)) eqn:Hc; [|by left].
  apply bool_decide_eq_true in Hc.
  destruct (cut ":" p2) as [[host route]|] eqn:Hcut; [|by apply cut_None in Hcut].
  apply cut_spec in Hcut as [-> Hh]. apply SplitN_5 in Hs as (-> & ? & _ & ? & _).
  right. exists p0, host, route, p4. simpl SplitN. rewrite cut_app by done. simpl andb.
  cbv iota. simpl nth. repeat split; try done. simpl. by rewrite <- !app_assoc.
Qed.

Lemma elide_cons3 c c1 c2 x :
  elide (c :: c1 :: c2 :: x) =
  if Ascii.eqb c "?" && Ascii.eqb c1 "," && Ascii.eqb c2 " " then elide x
  else c :: elide (c1 :: c2 :: x).
Proof. reflexivity. Qed.

Lemma removeAll_match c c1 c2 x :
  removeAll (B "?, ") 0 (c :: c1 :: c2 :: x) =
  if Ascii.eqb c "?" && Ascii.eqb c1 "," && Ascii.eqb c2 " " then removeAll (B "?, ") 0 x
  else c :: removeAll (B "?, ") 0 (c1 :: c2 :: x).
Proof.
  change (removeAll (B "?, ") 0 (c :: c1 :: c2 :: x)) with
    (if Ascii.eqb "?" c && (Ascii.eqb "," c1 && (Ascii.eqb " " c2 && true))
     then removeAll (B "?, ") 0 x
     else c :: removeAll (B "?, ") 0 (c1 :: c2 :: x)).
  rewrite (Ascii.eqb_sym "?" c), (Ascii.eqb_sym "," c1), (Ascii.eqb_sym " " c2).
  by rewrite andb_true_r, andb_assoc.
Qed.

Lemma ReplaceAll_elide x : ReplaceAll x (B "?, ") = elide x.
Proof.
  change (ReplaceAll x (B "?, ")) with (removeAll (B "?, ") 0 x).
  remember (length x) as n eqn:Hn. revert x Hn.
  induction n as [n IH] using lt_wf_ind. intros [|c x'] Hn; [done|].
  destruct x' as [|c1 [|c2 x'']].
  - simpl. by rewrite andb_false_r.
  - simpl. by rewrite !andb_false_r.
  - rewrite removeAll_match, elide_cons3.
    destruct (Ascii.eqb c "?" && Ascii.eqb c1 "," && Ascii.eqb c2 " ").
    + apply (IH (length x'')); [simpl in Hn; lia|done].
    + f_equal. apply (IH (length (c1 :: c2 :: x''))); [simpl in *; lia|done].
Qed.

Lemma tstep_runs_space c : tstep true SSpace c = tstep true SOther c.
Proof. unfold tstep. by repeat case_match. Qed.

Lemma trun_runs_space x : is_Some (trun true SOther x) -> is_Some (trun true SSpace x).
Proof. destruct x as [|c x]; simpl; [eauto|]. by rewrite tstep_runs_space. Qed.

Lemma trun_last_space runs s x t : trun runs s (x ++ [" "%char]) = Some t -> t = SSpace.
Proof.
  rewrite trun_app. destruct (trun runs s x) as [s'|]; [|done]. simpl.
  destruct s', runs; vm_compute; congruence.
Qed.

Lemma trun_last_colon runs s x t : trun runs s (x ++ [":"%char]) = Some t -> t = SOther.
Proof.
  rewrite trun_app. destruct (trun runs s x) as [s'|]; [|done]. simpl.
  destruct s', runs; vm_compute; congruence.
Qed.

Lemma stripHost_upToSpaces x : stableUpToSpaces x -> stableUpToSpaces (stripHost x).
Proof.
  unfold stableUpToSpaces.
  destruct (stripHost_cases x) as [->|(p0 & host & route & p4 & -> & _ & _ & _ & ->)]; [done|].
  set (tail := route ++ B " */ " ++ p4).
  change (B " /* ") with (B " /*" ++ [" "%char]).
  change (B ":") with ([":"%char]).
  rewrite <- !(app_assoc (B " /*")), !(app_assoc p0 (B " /*")).
  rewrite !(app_assoc (p0 ++ B " /*") [" "%char]), (app_assoc host).
  rewrite !(trun_app _ _ (_ ++ [" "%char])).
  destruct (trun true SOther ((p0 ++ B " /*") ++ [" "%char])) as [s1|] eqn:H1; [|done].
  apply trun_last_space in H1 as ->. simpl.
  rewrite trun_app.
  destruct (trun true SSpace (host ++ [":"%char])) as [s2|] eqn:H2; [|by intros []].
  apply trun_last_colon in H2 as ->. simpl. apply trun_runs_space.
Qed.

Lemma elide_upToSpaces_from : forall n x s s',
  (length x <= n)%nat -> is_Some (trun true s x) -> sle s s' ->
  is_Some (trun true s' (elide x)).
Proof.
  induction n as [|n IH]; intros [|c x'] s s' Hn Hx Hle; try (simpl; eauto; fail);
    [simpl in Hn; lia|].
  assert (Hkeep : is_Some (trun true s' (c :: elide x'))).
  { simpl in Hx |- *. destruct (tstep true s c) as [t|] eqn:Ht; [|by destruct Hx].
    destruct (tstep_mono _ _ _ _ _ Ht Hle) as (t' & -> & Hle'). simpl in *.
    eapply IH; [|exact Hx|exact Hle']. simpl in Hn. lia. }
  destruct x' as [|c1 [|c2 x'']]; try exact Hkeep.
  cbn [elide]. cbn [elide] in Hkeep.
  destruct (Ascii.eqb_spec c "?") as [->|]; [|exact Hkeep].
  destruct (Ascii.eqb_spec c1 ",") as [->|]; [|exact Hkeep].
  destruct (Ascii.eqb_spec c2 " ") as [->|]; [|exact Hkeep].
  simpl andb. cbv iota.
  apply (IH x'' SSpace s'); [simpl in Hn; lia| |by destruct s'].
  change ("?"%char :: ","%char :: " "%char :: x'') with (B "?, " ++ x'') in Hx.
  rewrite trun_app in Hx.
  destruct (trun true s (B "?, ")) as [t|] eqn:Ht; [|by destruct Hx].
  assert (t = SSpace) as -> by (destruct s; vm_compute in Ht; congruence). done.
Qed.

Lemma finish_upToSpaces tx : stableUpToSpaces tx -> stableUpToSpaces (finish tx).
Proof.
  intros H. unfold finish. rewrite ReplaceAll_elide.
  apply (elide_upToSpaces_from (length (stripHost tx)) _ SOther SOther); [done| |done].
  by apply stripHost_upToSpaces.
Qed.

Lemma trun_runs runs s x : is_Some (trun false s x) -> is_Some (trun runs s x).
Proof.
  destruct runs; [|done]. revert s. induction x as [|c x IH]; intros s; simpl; [eauto|].
  destruct (tstep false s c) as [t|] eqn:Ht; [|by intros []].
  assert (tstep true s c = Some t) as ->; [|apply IH].
  revert Ht. unfold tstep. by repeat case_match.
Qed.

(** A text stable up to runs of spaces that has no two adjacent spaces is
    stable. *)
Lemma trun_no_runs : forall x s,
  is_Some (trun true s x) ->
  ContainsStr x (B "  ") = false ->
  (s = SSpace -> match x with c :: _ => beq c 32 = false | [] => True end) ->
  is_Some (trun false s x).
Proof.
  induction x as [|c x IH]; intros s Hx Hno Hs; [simpl; eauto|].
  simpl in Hx. destruct (tstep true s c) as [t|] eqn:Ht; [|by destruct Hx]. simpl in Hx.
  cbn [ContainsStr] in Hno. apply orb_false_iff in Hno as [Hpre Hno].
  assert (Ht' : tstep false s c = Some t).
  { revert Ht. unfold tstep. destruct (isQuote c); [done|].
    destruct (isSpace c); [|done]. destruct (beq c 32) eqn:H32; [|done].
    destruct s; try done. specialize (Hs eq_refl). simpl in Hs. congruence. }
  simpl. rewrite Ht'. simpl. apply IH; [done..|].
  intros ->. destruct x as [|c' x]; [done|].
  assert (Hc : c = " "%char).
  { change " "%char with (byte_of 32).
    revert Ht. unfold tstep. repeat case_match; try done; intros _; by apply beq_eq. }
  subst c.
  change (hasPrefix (B "  ") (" "%char :: c' :: x))
    with (Ascii.eqb " " " " && (Ascii.eqb " " c' && true)) in Hpre.
  rewrite Ascii.eqb_refl, andb_true_r, andb_true_l in Hpre.
  apply Ascii.eqb_neq in Hpre.
  destruct (beq c' 32) eqn:E; [|done]. apply beq_eq in E. by subst c'.
Qed.

(** The two ways canonicalisation fails to be idempotent: a route comment
    with two colons loses one prefix per application, and removing ["?, "]
    can bring a new ["?, "] together. *)
Lemma cleanupQuery_not_idempotent :
  ~ idempotentAt cfg0 (B "SELECT /* db1:users:list */ * FROM t") /\
  ~ idempotentAt cfg0 (B "select 1 from t where x in (??, , )").
Proof.
  split; intros H.
  - specialize (H (B "SELECT /* users:list */ * FROM t") ltac:(vm_compute; reflexivity)).
    vm_compute in H. discriminate H.
  - specialize (H (B "select ? from t where x in (?, )") ltac:(vm_compute; reflexivity)).
    vm_compute in H. discriminate H.
Qed.

(** C8, amended.  The token stage of canonicalisation (literals replaced by
    [?], whitespace runs collapsed) is idempotent on every query; and
    canonicalisation maps a fingerprint [F = canonicalize(Q)] to itself
    whenever [F] contains no ["?, "], has no [host:] prefix that the route
    rewriting would strip, and has no two adjacent spaces. *)
Theorem cleanupQuery_idempotent_when_settled (cfg : config) (query F : list ascii) :
  cleanupQuery cfg query = Some F ->
  (forall tx, tokenText cfg query = Some tx -> tokenText cfg tx = Some tx) /\
  (ReplaceAll F (B "?, ") = F -> stripHost F = F -> ContainsStr F (B "  ") = false ->
   cleanupQuery cfg F = Some F).
Proof.
  intros HF. split; [intros tx; apply tokenText_idempotent|].
  intros HR HH Hno. rewrite cleanupQuery_finish in HF |- *.
  destruct (tokenText cfg query) as [tx|] eqn:Htx; [|done]. injection HF as <-.
  assert (Hfix : tokenText cfg (finish tx) = Some (finish tx)).
  { destruct (verbose cfg && noclean cfg) eqn:Hm; [by apply tokenText_noclean|].
    apply (tokenText_stable cfg (length (finish tx))); [done|].
    apply trun_no_runs; [|done|done].
    apply finish_upToSpaces. apply (trun_runs true).
    by eapply tokenText_is_stable. }
  rewrite Hfix. simpl. f_equal. unfold finish at 1. by rewrite HH.
Qed.

Lemma cleanupQuery_idempotent_when_settled_witness :
  cleanupQuery cfg0 (B "select * from table where x in (?)")
  = Some (B "select * from table where x in (?)").
Proof.
  destruct (cleanupQuery_idempotent_when_settled cfg0
              (B "select * from table where x in (1, 2, 'foo')")
              (B "select * from table where x in (?)")) as [_ H].
  - vm_compute. reflexivity.
  - apply H; vm_compute; reflexivity.
Defined.

(** ** Queries that differ only in literals, lists, whitespace or host *)

Lemma tokenLoop_lexLoop cfg fuel : forall query,
  tokenLoop cfg fuel query =
  toks ← lexLoop cfg fuel query; Some (map (fun tk => emit tk.1 tk.2) toks).
Proof.
  induction fuel as [|fuel IH]; intros [|b rest]; try done.
  rewrite tokenLoop_cons. cbn [lexLoop].
  destruct (scanToken cfg (b :: rest)) as [[len t]|]; [|done]. cbn [mbind option_bind].
  rewrite IH. by destruct (lexLoop cfg fuel (drop len (b :: rest))).
Qed.

Lemma tokenText_lex cfg query :
  tokenText cfg query = toks ← lex cfg query; Some (emitAll toks).
Proof.
  unfold tokenText, lex, emitAll. rewrite tokenLoop_lexLoop.
  by destruct (lexLoop cfg (length query) query).
Qed.

Lemma cleanupQuery_lex cfg query toks :
  lex cfg query = Some toks -> cleanupQuery cfg query = Some (finish (emitAll toks)).
Proof. intros H. by rewrite cleanupQuery_finish, tokenText_lex, H. Qed.

Lemma emitAll_app ts1 ts2 : emitAll (ts1 ++ ts2) = emitAll ts1 ++ emitAll ts2.
Proof. unfold emitAll. by rewrite map_app, concat_app. Qed.

Lemma emitAll_cons tk ts : emitAll (tk :: ts) = emit tk.1 tk.2 ++ emitAll ts.
Proof. reflexivity. Qed.

Lemma emit_literal tk : isLiteral tk -> emit tk.1 tk.2 = B "?".
Proof. by intros [->| ->]. Qed.

Lemma elide_app_mark w y :
  elide (w ++ "?"%char :: y) = elide w ++ elide ("?"%char :: y).
Proof.
  remember (length w) as n eqn:Hn. revert w Hn.
  induction n as [n IH] using lt_wf_ind. intros [|c [|c1 [|c2 w']]] Hn.
  - done.
  - destruct y as [|y1 y']; [done|].
    change ([c] ++ "?"%char :: y1 :: y') with (c :: "?"%char :: y1 :: y').
    rewrite elide_cons3. change (Ascii.eqb "?" ",") with false.
    by rewrite andb_false_r.
  - change ([c; c1] ++ "?"%char :: y) with (c :: c1 :: "?"%char :: y).
    rewrite elide_cons3. change (Ascii.eqb "?" " ") with false. rewrite andb_false_r.
    change (c1 :: "?"%char :: y) with ([c1] ++ "?"%char :: y).
    rewrite (IH 1%nat) by (simpl in *; done || lia). done.
  - change ((c :: c1 :: c2 :: w') ++ "?"%char :: y)
      with (c :: c1 :: c2 :: (w' ++ "?"%char :: y)).
    rewrite !elide_cons3.
    destruct (Ascii.eqb c "?" && Ascii.eqb c1 "," && Ascii.eqb c2 " ").
    + apply (IH (length w')); [simpl in Hn; lia|done].
    + change (c1 :: c2 :: w' ++ "?"%char :: y) with ((c1 :: c2 :: w') ++ "?"%char :: y).
      rewrite (IH (length (c1 :: c2 :: w'))) by (simpl in *; done || lia). done.
Qed.

(** One more ["?, "] in front of a [?] does not change what is left when
    every ["?, "] is removed. *)
Lemma elide_insert w v :
  elide (w ++ B "?, " ++ "?"%char :: v) = elide (w ++ "?"%char :: v).
Proof.
  change (B "?, " ++ "?"%char :: v) with ("?"%char :: ","%char :: " "%char :: "?"%char :: v).
  by rewrite !elide_app_mark, elide_cons3.
Qed.

Lemma spaces_cut u :
  (1 <= spaces u)%nat ->
  exists l r, u = l ++ " "%char :: r /\ (" "%char ∉ l) /\ spaces u = S (spaces r).
Proof.
  induction u as [|c u IH]; simpl; [lia|].
  destruct (Ascii.eqb_spec c " ") as [->|Hne].
  - intros _. exists [], u. repeat split. apply not_elem_of_nil.
  - intros Hu. destruct (IH Hu) as (l & r & -> & Hl & Hs).
    exists (c :: l), r. repeat split; [|done].
    intros [?|?]%elem_of_cons; congruence.
Qed.

(** The rewriting of the route comment only looks at the text up to the
    fourth space. *)
Lemma stripHost_prefix u :
  (4 <= spaces u)%nat -> exists w, forall x, stripHost (u ++ x) = w ++ x.
Proof.
  intros Hu.
  destruct (spaces_cut u) as (p0 & u1 & -> & H0 & Hs0); [lia|].
  destruct (spaces_cut u1) as (p1 & u2 & -> & H1 & Hs1); [lia|].
  destruct (spaces_cut u2) as (p2 & u3 & -> & H2 & Hs2); [lia|].
  destruct (spaces_cut u3) as (p3 & u4 & -> & H3 & Hs3); [lia|].
  assert (Hsplit : forall x,
    SplitN ((p0 ++ " "%char :: p1 ++ " "%char :: p2 ++ " "%char :: p3 ++ " "%char :: u4) ++ x) " " 5
    = [p0; p1; p2; p3; u4 ++ x]).
  { intros x. apply SplitN_5. split; [|done].
    rewrite <- !app_assoc. simpl. rewrite <- !app_assoc. simpl.
    rewrite <- !app_assoc. simpl. by rewrite <- !app_assoc. }
  unfold stripHost.
  destruct (bool_decide (p1 = B "/*") && bool_decide (p3 = B "*/")) eqn:Hshape;
    [destruct (Contains p2 ":") eqn:Hc|].
  - exists (p0 ++ B " /* " ++ nth 1 (SplitN p2 ":" 2) [] ++ B " */ " ++ u4).
    intros x. rewrite Hsplit, Hshape, Hc. by rewrite <- !app_assoc.
  - eexists. intros x. rewrite Hsplit, Hshape, Hc. reflexivity.
  - eexists. intros x. rewrite Hsplit, Hshape. reflexivity.
Qed.

Lemma finish_list u v :
  (4 <= spaces u)%nat ->
  finish (u ++ B "?" ++ B "," ++ B " " ++ B "?" ++ v) = finish (u ++ B "?" ++ v).
Proof.
  intros Hu. destruct (stripHost_prefix u Hu) as [w Hw].
  unfold finish. rewrite !Hw, !ReplaceAll_elide. apply elide_insert.
Qed.

Lemma finish_host p h r s :
  " "%char ∉ p -> " "%char ∉ h -> " "%char ∉ r -> ":"%char ∉ h -> ":"%char ∉ r ->
  finish (p ++ B " /* " ++ h ++ B ":" ++ r ++ B " */ " ++ s)
  = finish (p ++ B " /* " ++ r ++ B " */ " ++ s).
Proof.
  intros Hp Hh Hr Hch Hcr. unfold finish. f_equal.
  rewrite stripHost_shape; [|done| |done].
  - unfold stripHost.
    assert (Hsplit : SplitN (p ++ B " /* " ++ r ++ B " */ " ++ s) " " 5
                     = [p; B "/*"; r; B "*/"; s]).
    { apply SplitN_5. split; [|split; [done|split; [|split; [done|]]]].
      - simpl. by rewrite <- ?app_assoc.
      - apply (bool_decide_unpack _). vm_compute. exact I.
      - apply (bool_decide_unpack _). vm_compute. exact I. }
    rewrite Hsplit. cbv iota beta. unfold Contains.
    rewrite (bool_decide_eq_false_2 (":"%char ∈ r)) by done.
    by destruct (bool_decide (B "/*" = B "/*") && bool_decide (B "*/" = B "*/")).
  - rewrite elem_of_app, elem_of_cons.
    intros [?|[?|?]]; [done|discriminate|done].
Qed.

Lemma differ_finish ts1 ts2 :
  differ true ts1 ts2 -> finish (emitAll ts1) = finish (emitAll ts2).
Proof.
  destruct 1 as [pre a b post|pre a b post|pre a b post|pre l1 w l2 post Hl1 Hl2 Hsp
                |pre l1 l2 post Hstrict|pre w1 w2 host route w3 w4 post Hp Hh Hr Hc];
    try (by rewrite !emitAll_app, !emitAll_cons); [|].
  - rewrite !emitAll_app, !emitAll_cons, (emit_literal _ Hl1), (emit_literal _ Hl2).
    apply finish_list. by apply Hsp.
  - destruct (Hc eq_refl) as [Hch Hcr].
    rewrite !emitAll_app. apply finish_host; done.
Qed.

(** The claim as worded fails on a list written without spaces, on a list in
    the first field before a route comment, and on a route that contains a
    colon. *)
Lemma cleanupQuery_not_as_claimed :
  (differOnly false cfg0 (B "select * from t where x in (1,2)")
                         (B "select * from t where x in (2)") /\
   cleanupQuery cfg0 (B "select * from t where x in (1,2)")
   <> cleanupQuery cfg0 (B "select * from t where x in (2)")) /\
  (differOnly false cfg0 (B "f(1, 2) /* db1:list */ x") (B "f(2) /* db1:list */ x") /\
   cleanupQuery cfg0 (B "f(1, 2) /* db1:list */ x")
   <> cleanupQuery cfg0 (B "f(2) /* db1:list */ x")) /\
  (differOnly false cfg0 (B "SELECT /* db1:users:list */ * FROM t")
                         (B "SELECT /* users:list */ * FROM t") /\
   cleanupQuery cfg0 (B "SELECT /* db1:users:list */ * FROM t")
   <> cleanupQuery cfg0 (B "SELECT /* users:list */ * FROM t")).
Proof.
  pose (tk := fun p : token * string => (p.1, B p.2)).
  split; [|split]; (split; [|vm_compute; discriminate]).
  - pose (pre := map tk
                [(TOKEN_WORD, "select"); (TOKEN_WHITESPACE, " "); (TOKEN_OTHER, "*");
                 (TOKEN_WHITESPACE, " "); (TOKEN_WORD, "from"); (TOKEN_WHITESPACE, " ");
                 (TOKEN_WORD, "t"); (TOKEN_WHITESPACE, " "); (TOKEN_WORD, "where");
                 (TOKEN_WHITESPACE, " "); (TOKEN_WORD, "x"); (TOKEN_WHITESPACE, " ");
                 (TOKEN_WORD, "in"); (TOKEN_WHITESPACE, " "); (TOKEN_OTHER, "(")]).
    apply (differOnly_one false cfg0 _ _
             (pre ++ (TOKEN_NUMBER, B "1") :: (TOKEN_OTHER, B ",") :: (TOKEN_NUMBER, B "2")
                  :: [(TOKEN_OTHER, B ")")])
             (pre ++ (TOKEN_NUMBER, B "2") :: [(TOKEN_OTHER, B ")")]));
      [vm_compute; reflexivity..|].
    apply differ_list_tight; [done|by left|by left].
  - pose (pre := [(TOKEN_WORD, B "f"); (TOKEN_OTHER, B "(")]).
    pose (post := map tk
                [(TOKEN_OTHER, ")"); (TOKEN_WHITESPACE, " "); (TOKEN_OTHER, "/");
                 (TOKEN_OTHER, "*"); (TOKEN_WHITESPACE, " "); (TOKEN_WORD, "db1");
                 (TOKEN_OTHER, ":"); (TOKEN_WORD, "list"); (TOKEN_WHITESPACE, " ");
                 (TOKEN_OTHER, "*"); (TOKEN_OTHER, "/"); (TOKEN_WHITESPACE, " ");
                 (TOKEN_WORD, "x")]).
    apply (differOnly_one false cfg0 _ _
             (pre ++ (TOKEN_NUMBER, B "1") :: (TOKEN_OTHER, B ",") :: (TOKEN_WHITESPACE, B " ")
                  :: (TOKEN_NUMBER, B "2") :: post)
             (pre ++ (TOKEN_NUMBER, B "2") :: post));
      [vm_compute; reflexivity..|].
    apply differ_list; [by left|by left|discriminate].
  - pose (pre := [(TOKEN_WORD, B "SELECT")]).
    pose (host := [(TOKEN_WORD, B "db1")]).
    pose (route := [(TOKEN_WORD, B "users"); (TOKEN_OTHER, B ":"); (TOKEN_WORD, B "list")]).
    pose (post := map tk
                [(TOKEN_OTHER, "*"); (TOKEN_WHITESPACE, " "); (TOKEN_WORD, "FROM");
                 (TOKEN_WHITESPACE, " "); (TOKEN_WORD, "t")]).
    apply (differOnly_one false cfg0 _ _
             (pre ++ commentOpen (B " ") (B " ") ++ host ++ [(TOKEN_OTHER, B ":")] ++ route
                  ++ commentClose (B " ") (B " ") ++ post)
             (pre ++ commentOpen (B " ") (B " ") ++ route
                  ++ commentClose (B " ") (B " ") ++ post));
      [vm_compute; reflexivity..|].
    apply differ_host; try (apply (bool_decide_unpack _); vm_compute; exact I);
      discriminate.
Qed.

(** C4, amended.  Outside the debug mode the query
    [select * from table where x in (1, 2, 'foo')] has the fingerprint
    [select * from table where x in (?)]; and two queries have the same
    fingerprint whenever they differ only in the digits of numbers, the
    contents of quoted strings, the lengths of whitespace runs, the number
    of literals of a list whose separator is a comma followed by whitespace
    and which starts after the fourth space of the joined text, or a
    [host:] prefix of the route comment that follows the first field, host
    and route being free of colons. *)
Theorem cleanupQuery_differOnly (cfg : config) :
  (verbose cfg && noclean cfg = false ->
   cleanupQuery cfg (B "select * from table where x in (1, 2, 'foo')")
   = Some (B "select * from table where x in (?)")) /\
  (forall q1 q2, differOnly true cfg q1 q2 -> cleanupQuery cfg q1 = cleanupQuery cfg q2).
Proof.
  split.
  - destruct cfg as [v n d s f]. simpl. intros Hm.
    destruct v, n; try discriminate Hm; vm_compute; reflexivity.
  - induction 1 as [q1 q2 ts1 ts2 H1 H2 Hd| | |]; try congruence.
    rewrite (cleanupQuery_lex _ _ _ H1), (cleanupQuery_lex _ _ _ H2).
    f_equal. by apply differ_finish.
Qed.

Lemma cleanupQuery_differOnly_witness :
  cleanupQuery cfg0 (B "select a from t where x  in (1, 2, 'foo')")
  = cleanupQuery cfg0 (B "select a from t where x in ('bar')").
Proof.
  destruct (cleanupQuery_differOnly cfg0) as [_ H]. apply H.
  pose (tk := fun p : token * string => (p.1, B p.2)).
  pose (pre := map tk
                [(TOKEN_WORD, "select"); (TOKEN_WHITESPACE, " "); (TOKEN_WORD, "a");
                 (TOKEN_WHITESPACE, " "); (TOKEN_WORD, "from"); (TOKEN_WHITESPACE, " ");
                 (TOKEN_WORD, "t"); (TOKEN_WHITESPACE, " "); (TOKEN_WORD, "where");
                 (TOKEN_WHITESPACE, " "); (TOKEN_WORD, "x")]).
  pose (mid := map tk [(TOKEN_WORD, "in"); (TOKEN_WHITESPACE, " "); (TOKEN_OTHER, "(")]).
  pose (close := [(TOKEN_OTHER, B ")")]).
  pose (sep := [(TOKEN_OTHER, B ","); (TOKEN_WHITESPACE, B " ")]).
  apply (differOnly_trans _ _ _ (B "select a from t where x in (1, 2, 'foo')")).
  { apply (differOnly_one true cfg0 _ _
             (pre ++ (TOKEN_WHITESPACE, B "  ") :: mid ++ (TOKEN_NUMBER, B "1") :: sep
                  ++ (TOKEN_NUMBER, B "2") :: sep ++ (TOKEN_QUOTE, B "'foo'") :: close)
             (pre ++ (TOKEN_WHITESPACE, B " ") :: mid ++ (TOKEN_NUMBER, B "1") :: sep
                  ++ (TOKEN_NUMBER, B "2") :: sep ++ (TOKEN_QUOTE, B "'foo'") :: close));
      [vm_compute; reflexivity..|].
    apply differ_space. }
  apply (differOnly_trans _ _ _ (B "select a from t where x in (2, 'foo')")).
  { apply (differOnly_one true cfg0 _ _
             ((pre ++ (TOKEN_WHITESPACE, B " ") :: mid) ++ (TOKEN_NUMBER, B "1")
                  :: (TOKEN_OTHER, B ",") :: (TOKEN_WHITESPACE, B " ")
                  :: (TOKEN_NUMBER, B "2") :: sep ++ (TOKEN_QUOTE, B "'foo'") :: close)
             ((pre ++ (TOKEN_WHITESPACE, B " ") :: mid)
                  ++ (TOKEN_NUMBER, B "2") :: sep ++ (TOKEN_QUOTE, B "'foo'") :: close));
      [vm_compute; reflexivity..|].
    apply differ_list; [by left|by left|intros _; vm_compute; lia]. }
  apply (differOnly_trans _ _ _ (B "select a from t where x in ('foo')")).
  { apply (differOnly_one true cfg0 _ _
             ((pre ++ (TOKEN_WHITESPACE, B " ") :: mid) ++ (TOKEN_NUMBER, B "2")
                  :: (TOKEN_OTHER, B ",") :: (TOKEN_WHITESPACE, B " ")
                  :: (TOKEN_QUOTE, B "'foo'") :: close)
             ((pre ++ (TOKEN_WHITESPACE, B " ") :: mid) ++ (TOKEN_QUOTE, B "'foo'") :: close));
      [vm_compute; reflexivity..|].
    apply differ_list; [by left|by right|intros _; vm_compute; lia]. }
  apply (differOnly_one true cfg0 _ _
           ((pre ++ (TOKEN_WHITESPACE, B " ") :: mid) ++ (TOKEN_QUOTE, B "'foo'") :: close)
           ((pre ++ (TOKEN_WHITESPACE, B " ") :: mid) ++ (TOKEN_QUOTE, B "'bar'") :: close));
    [vm_compute; reflexivity..|].
  apply differ_quote.
Defined.

(** * Further properties *)

(** ** Tokens *)

Lemma scanWhile_run p rest : forall i,
  Forall (fun c => p c = true) (take (scanWhile p i rest - i) rest) /\
  (forall c, rest !! (scanWhile p i rest - i)%nat = Some c -> p c = false).
Proof.
  induction rest as [|c rest IH]; intros i; simpl.
  - rewrite Nat.sub_diag. split; [constructor|]. intros c. discriminate.
  - destruct (p c) eqn:Hc.
    + pose proof (scanWhile_bounds p (S i) rest) as Hb.
      destruct (IH (S i)) as [H1 H2].
      replace (scanWhile p (S i) rest - i)%nat with (S (scanWhile p (S i) rest - S i)) by lia.
      simpl. split; [by constructor|exact H2].
    + rewrite Nat.sub_diag. simpl. split; [constructor|]. intros c' [= <-]. exact Hc.
Qed.

(** X1.  Outside the debug mode, a NUMBER, WHITESPACE or WORD token is a
    maximal run: its [n] bytes all belong to the class of the token (digits;
    whitespace; letters, digits, [$] and [_]), and the byte that follows the
    token, if there is one, does not. *)
Theorem scanToken_maximal_run (cfg : config) (query : list ascii) (n : nat) (t : token)
    (allowed : ascii -> bool) :
  verbose cfg && noclean cfg = false ->
  scanToken cfg query = Some (n, t) ->
  runClass t = Some allowed ->
  Forall (fun c => allowed c = true) (take n query) /\
  (forall c, query !! n = Some c -> allowed c = false).
Proof.
  intros Hdbg Hscan Hcls. destruct query as [|b rest]; [discriminate|].
  unfold scanToken in Hscan. rewrite Hdbg in Hscan.
  assert (Hgen : forall p, p b = true -> n = scanWhile p 1 rest ->
            Forall (fun c => p c = true) (take n (b :: rest)) /\
            (forall c, (b :: rest) !! n = Some c -> p c = false)).
  { intros p Hb ->. pose proof (scanWhile_bounds p 1 rest) as Hb'.
    destruct (scanWhile_run p rest 1%nat) as [H1 H2].
    destruct (scanWhile p 1 rest) as [|m] eqn:Hm; [lia|].
    simpl in *. rewrite Nat.sub_0_r in *. split; [by constructor|exact H2]. }
  destruct (isQuote b) eqn:Hq; [by simplify_eq|].
  destruct (isDigit b) eqn:Hd.
  { simplify_eq. simpl in Hcls. simplify_eq. by apply Hgen. }
  destruct (isSpace b) eqn:Hs.
  { simplify_eq. simpl in Hcls. simplify_eq. by apply Hgen. }
  destruct (isLetter b) eqn:Hl.
  { simplify_eq. simpl in Hcls. simplify_eq. apply Hgen; [|done].
    unfold isWordChar. rewrite Hl. by rewrite orb_true_r. }
  by simplify_eq.
Qed.

Lemma scanToken_maximal_run_witness :
  Forall (fun c => isDigit c = true) (take 2 (B "42abc")) /\
  (forall c, B "42abc" !! 2%nat = Some c -> isDigit c = false).
Proof.
  apply (scanToken_maximal_run (Config false false false false []) (B "42abc") 2 TOKEN_NUMBER);
    reflexivity.
Defined.

Lemma isQuote_not_backslash q : isQuote q = true -> q <> byte_of 92.
Proof. intros H ->. vm_compute in H. discriminate. Qed.

Lemma scanQuote_escaped q : isQuote q = true -> forall rest esc i,
  (forall k, rest !! k = Some q ->
     match k with O => esc = true | S j => rest !! j = Some (byte_of 92) end) ->
  scanQuote q esc i rest = (i + length rest)%nat.
Proof.
  intros Hq. induction rest as [|c rest IH]; intros esc i H; simpl; [lia|].
  destruct (Ascii.eqb c q) eqn:Hc.
  - apply Ascii.eqb_eq in Hc. subst c.
    rewrite (H 0%nat eq_refl). rewrite IH; [lia|].
    intros [|j] Hk.
    + specialize (H 1%nat Hk). simpl in H. simplify_eq.
    + exact (H (S (S j)) Hk).
  - apply Ascii.eqb_neq in Hc.
    assert (Hrest : forall e, (e = true <-> c = byte_of 92) ->
              forall k, rest !! k = Some q ->
                match k with O => e = true | S j => rest !! j = Some (byte_of 92) end).
    { intros e He [|j] Hk.
      - specialize (H 1%nat Hk). simpl in H. simplify_eq. by apply He.
      - exact (H (S (S j)) Hk). }
    destruct (beq c 92) eqn:Hb.
    + apply beq_eq in Hb. rewrite IH; [lia|]. by apply Hrest.
    + rewrite IH; [lia|]. apply Hrest. split; [done|]. intros ->. vm_compute in Hb. discriminate.
Qed.

Lemma scanQuote_closes q rest : isQuote q = true -> forall body esc i,
  (forall k, body !! k = Some q ->
     match k with O => esc = true | S j => body !! j = Some (byte_of 92) end) ->
  match last body with Some c => c <> byte_of 92 | None => esc = false end ->
  scanQuote q esc i (body ++ q :: rest) = (i + length body + 1)%nat.
Proof.
  intros Hq. induction body as [|c body IH]; intros esc i H Hlast; simpl.
  - rewrite Ascii.eqb_refl. simpl in Hlast. subst esc. lia.
  - assert (Hlast' : forall e, (e = true <-> c = byte_of 92) ->
              match last body with Some c' => c' <> byte_of 92 | None => e = false end).
    { intros e He. clear IH H. destruct body as [|c' body'].
      - simpl in Hlast |- *. destruct e; [|done]. by destruct Hlast; apply He.
      - change (last (c :: c' :: body')) with (last (c' :: body')) in Hlast.
        destruct (last (c' :: body')) eqn:E; [exact Hlast|].
        by apply last_None in E. }
    assert (Hrest : forall e, (e = true <-> c = byte_of 92) ->
              forall k, body !! k = Some q ->
                match k with O => e = true | S j => body !! j = Some (byte_of 92) end).
    { intros e He [|j] Hk.
      - specialize (H 1%nat Hk). simpl in H. simplify_eq. by apply He.
      - exact (H (S (S j)) Hk). }
    destruct (Ascii.eqb c q) eqn:Hc.
    + apply Ascii.eqb_eq in Hc. subst c.
      rewrite (H 0%nat eq_refl).
      assert (He : false = true <-> q = byte_of 92).
      { split; [done|]. intros ->. vm_compute in Hq. discriminate. }
      rewrite IH; [lia| by apply Hrest | by apply Hlast'].
    + destruct (beq c 92) eqn:Hb.
      * apply beq_eq in Hb. rewrite IH; [lia| by apply Hrest | by apply Hlast'].
      * assert (He : false = true <-> c = byte_of 92).
        { split; [done|]. intros ->. vm_compute in Hb. discriminate. }
        rewrite IH; [lia| by apply Hrest | by apply Hlast'].
Qed.

Lemma escapedIn_start q body k :
  escapedIn q body -> body !! k = Some q ->
  match k with O => false = true | S j => body !! j = Some (byte_of 92) end.
Proof. intros H Hk. destruct (H k Hk) as (j & -> & Hj). exact Hj. Qed.

(** X2.  Outside the debug mode, a QUOTE token ends at the first occurrence
    of its opening quote that does not directly follow a backslash: when
    every quote inside [body] follows a backslash and [body] does not end
    with a backslash, the token of [q body q rest] is [q body q], whatever
    [rest] is. *)
Theorem scanToken_quote_closed (cfg : config) (q : ascii) (body rest : list ascii) :
  verbose cfg && noclean cfg = false ->
  isQuote q = true ->
  escapedIn q body ->
  last body <> Some (byte_of 92) ->
  scanToken cfg (q :: body ++ q :: rest) = Some (S (S (length body)), TOKEN_QUOTE).
Proof.
  intros Hdbg Hq Hesc Hlast. unfold scanToken. rewrite Hdbg, Hq.
  rewrite (scanQuote_closes q rest Hq body false 1).
  - do 2 f_equal. lia.
  - intros k Hk. by apply (escapedIn_start q).
  - destruct (last body); [congruence|done].
Qed.

Lemma scanToken_quote_closed_witness :
  scanToken (Config false false false false []) (B "'it\'s' and more")
  = Some (7%nat, TOKEN_QUOTE).
Proof.
  apply (scanToken_quote_closed (Config false false false false []) "'"%char (B "it\'s") (B " and more")).
  - reflexivity.
  - reflexivity.
  - intros [|[|[|[|[|k]]]]] Hk; try discriminate Hk. by exists 2%nat.
  - discriminate.
Defined.

(** X3.  Outside the debug mode, a quote that is never closed swallows the
    rest of the query: when every later occurrence of the opening quote
    directly follows a backslash (in particular when there is none), the
    QUOTE token is the whole input.  A backslash escapes the next byte even
    when it is itself escaped, so ['a\\'] is not closed by its last
    quote. *)
Theorem scanToken_quote_unclosed (cfg : config) (q : ascii) (rest : list ascii) :
  verbose cfg && noclean cfg = false ->
  isQuote q = true ->
  escapedIn q rest ->
  scanToken cfg (q :: rest) = Some (length (q :: rest), TOKEN_QUOTE).
Proof.
  intros Hdbg Hq Hesc. unfold scanToken. rewrite Hdbg, Hq.
  rewrite (scanQuote_escaped q Hq rest false 1); [done|].
  intros k Hk. by apply (escapedIn_start q).
Qed.

Lemma scanToken_quote_unclosed_witness :
  scanToken (Config false false false false []) (B "'a\\' or b")
  = Some (10%nat, TOKEN_QUOTE).
Proof.
  apply (scanToken_quote_unclosed (Config false false false false []) "'"%char (B "a\\' or b")).
  - reflexivity.
  - reflexivity.
  - intros [|[|[|[|[|[|[|[|[|k]]]]]]]]] Hk; try discriminate Hk. by exists 2%nat.
Defined.

(** ** Size and alphabet of a fingerprint *)

Lemma emit_length t text : text <> [] -> (length (emit t text) <= length text)%nat.
Proof. destruct text; [done|]. intros _. destruct t; simpl; lia. Qed.

Lemma tokenText_length cfg : forall n query tx,
  (length query <= n)%nat -> tokenText cfg query = Some tx ->
  (length tx <= length query)%nat.
Proof.
  induction n as [|n IH]; intros [|b rest] tx Hn; simpl in Hn; try lia.
  - rewrite tokenText_nil. by intros [= <-].
  - rewrite tokenText_nil. by intros [= <-].
  - destruct (scanToken_nonempty cfg b rest) as (k & t & Hscan).
    pose proof (scanToken_bounds _ _ _ _ Hscan) as Hk.
    rewrite (tokenText_cons _ _ _ _ _ Hscan).
    destruct (tokenText cfg (drop k (b :: rest))) as [tx'|] eqn:Htx'; [|done].
    intros [= <-]. rewrite length_app.
    assert (length tx' <= length (drop k (b :: rest)))%nat as H1.
    { apply IH; [|done]. rewrite length_drop. simpl in *. lia. }
    assert (length (emit t (take k (b :: rest))) <= length (take k (b :: rest)))%nat as H2.
    { apply emit_length. destruct k; [lia|done]. }
    rewrite length_take in H2. rewrite length_drop in H1. lia.
Qed.

Lemma stripHost_length x : (length (stripHost x) <= length x)%nat.
Proof.
  destruct (stripHost_cases x) as [->|(p0 & host & route & p4 & -> & _ & _ & _ & ->)]; [done|].
  rewrite !length_app. lia.
Qed.

Lemma elide_length : forall n x, (length x <= n)%nat -> (length (elide x) <= length x)%nat.
Proof.
  induction n as [|n IH]; intros [|c x] Hn; simpl in Hn; try lia; try done.
  destruct x as [|c1 [|c2 x'']].
  - done.
  - done.
  - rewrite elide_cons3.
    destruct (Ascii.eqb c "?" && Ascii.eqb c1 "," && Ascii.eqb c2 " ").
    + specialize (IH x''). simpl in *. lia.
    + specialize (IH (c1 :: c2 :: x'')). simpl in *. lia.
Qed.

(** X4.  [cleanupQuery] returns on every query, in every mode, and the
    fingerprint is never longer than the query. *)
Theorem cleanupQuery_never_longer (cfg : config) (query : list ascii) :
  exists F, cleanupQuery cfg query = Some F /\ (length F <= length query)%nat.
Proof.
  rewrite cleanupQuery_finish.
  destruct (tokenText_total cfg query) as [tx Htx]. rewrite Htx. simpl.
  exists (finish tx). split; [done|].
  pose proof (tokenText_length cfg _ query tx (Nat.le_refl _) Htx).
  unfold finish. rewrite ReplaceAll_elide.
  pose proof (elide_length _ (stripHost tx) (Nat.le_refl _)).
  pose proof (stripHost_length tx). lia.
Qed.

Lemma tstep_word runs s c : tstep runs s c = Some SWord -> isWordChar c = true.
Proof.
  unfold tstep, isWordChar.
  destruct (isQuote c); [done|]. destruct (isSpace c).
  { destruct (beq c 32); [|done]. destruct s, runs; done. }
  destruct (isDigit c); [done|]. destruct (isLetter c); [done|].
  destruct (beq c 36 || beq c 95); [done|]. done.
Qed.

Lemma tstep_alphabet runs s c t :
  tstep runs s c = Some t ->
  isQuote c = false /\ (isSpace c = true -> c = " "%char) /\ (isDigit c = true -> s = SWord).
Proof.
  unfold tstep. destruct (isQuote c); [done|]. intros H. split; [done|].
  destruct (isSpace c) eqn:Hs.
  { destruct (beq c 32) eqn:Hb; [|done]. split.
    - intros _. by apply beq_eq in Hb.
    - intros Hd. exfalso. clear H. revert Hd Hs Hb. classes. }
  split; [done|]. intros Hd. rewrite Hd in H. by destruct s.
Qed.

Lemma trun_alphabet runs : forall x s t,
  trun runs s x = Some t ->
  Forall (fun c => isQuote c = false /\ (isSpace c = true -> c = " "%char)) x /\
  (forall i c, x !! i = Some c -> isDigit c = true ->
     match i with
     | O => s = SWord
     | S j => exists p, x !! j = Some p /\ isWordChar p = true
     end).
Proof.
  induction x as [|c x IH]; intros s t; simpl.
  - intros _. split; [constructor|]. intros i c. by rewrite lookup_nil.
  - destruct (tstep runs s c) as [s'|] eqn:Hstep; [|done]. simpl. intros Hrun.
    destruct (tstep_alphabet _ _ _ _ Hstep) as (Hq & Hs & Hd).
    destruct (IH _ _ Hrun) as [Hall Hdig]. split; [by constructor|].
    intros [|i] d Hi Hdd; simpl in Hi.
    + simplify_eq. by apply Hd.
    + specialize (Hdig i d Hi Hdd). destruct i as [|j].
      * subst s'. exists c. split; [done|]. by eapply tstep_word.
      * exact Hdig.
Qed.

(** X5.  Outside the debug mode, a fingerprint contains no quote
    character, no whitespace byte other than the space, and no digit except
    directly after a letter, a digit, [$] or [_]: no literal survives. *)
Theorem cleanupQuery_alphabet (cfg : config) (query F : list ascii) :
  verbose cfg && noclean cfg = false ->
  cleanupQuery cfg query = Some F ->
  Forall (fun c => isQuote c = false /\ (isSpace c = true -> c = " "%char)) F /\
  (forall i c, F !! i = Some c -> isDigit c = true ->
     exists j p, i = S j /\ F !! j = Some p /\ isWordChar p = true).
Proof.
  intros Hdbg. rewrite cleanupQuery_finish.
  destruct (tokenText cfg query) as [tx|] eqn:Htx; [|done]. simpl. intros [= <-].
  pose proof (tokenText_is_stable _ _ _ Hdbg Htx) as Hst.
  pose proof (finish_upToSpaces tx (trun_runs true SOther tx Hst)) as [t Ht].
  destruct (trun_alphabet _ _ _ _ Ht) as [Hall Hdig]. split; [exact Hall|].
  intros i c Hi Hd. specialize (Hdig i c Hi Hd). destruct i as [|j]; [done|].
  destruct Hdig as (p & Hp & Hw). by exists j, p.
Qed.

Lemma cleanupQuery_alphabet_witness :
  Forall (fun c => isQuote c = false /\ (isSpace c = true -> c = " "%char))
    (B "select ? from t1 where a=?") /\
  (forall i c, B "select ? from t1 where a=?" !! i = Some c -> isDigit c = true ->
     exists j p, i = S j /\ B "select ? from t1 where a=?" !! j = Some p /\ isWordChar p = true).
Proof.
  apply (cleanupQuery_alphabet (Config false false false false [])
           (B "select  'x'  from t1 where a=12")); [reflexivity|vm_compute; reflexivity].
Defined.

(** X6.  In the debug mode (verbose with no-clean) the literals are kept:
    the fingerprint is the query itself, with only the route comment
    rewritten and the occurrences of ["?, "] removed. *)
Theorem cleanupQuery_noclean (cfg : config) (query : list ascii) :
  verbose cfg && noclean cfg = true ->
  cleanupQuery cfg query = Some (ReplaceAll (stripHost query) (B "?, ")).
Proof.
  intros Hdbg. rewrite cleanupQuery_finish. by rewrite (tokenText_noclean cfg query Hdbg).
Qed.

Lemma cleanupQuery_noclean_witness :
  cleanupQuery (Config true true false false []) (B "select 'x' from t where a in (1, 2)")
  = Some (B "select 'x' from t where a in (1, 2)").
Proof.
  apply (cleanupQuery_noclean (Config true true false false [])
           (B "select 'x' from t where a in (1, 2)")).
  reflexivity.
Defined.

(** ** The format template parser, continued *)

Lemma parseFormatLoop_app chars : forall sp cur f0 f,
  parseFormatLoop chars sp cur (f0 ++ f) = f0 ++ parseFormatLoop chars sp cur f.
Proof.
  induction chars as [|c chars IH]; intros sp cur f0 f; simpl.
  - case_bool_decide; [by rewrite app_assoc|done].
  - destruct (Ascii.eqb c "#").
    + destruct sp; apply IH.
    + destruct sp; [|simpl; apply IH].
      assert (Htag : forall t cur',
                (if bool_decide (cur' <> [])
                 then parseFormatLoop chars false [] ((f0 ++ f) ++ [FStr cur'; FInt t])
                 else parseFormatLoop chars false cur' ((f0 ++ f) ++ [FInt t])) =
                f0 ++
                (if bool_decide (cur' <> [])
                 then parseFormatLoop chars false [] (f ++ [FStr cur'; FInt t])
                 else parseFormatLoop chars false cur' (f ++ [FInt t]))).
      { intros t cur'. case_bool_decide; rewrite <- app_assoc; apply IH. }
      destruct (Ascii.eqb (ToLower c) "s"); [by apply Htag|].
      destruct (Ascii.eqb (ToLower c) "i"); [by apply Htag|].
      destruct (Ascii.eqb (ToLower c) "r"); [by apply Htag|].
      destruct (Ascii.eqb (ToLower c) "q"); [by apply Htag|].
      apply IH.
Qed.

(** X7.  [parseFormat] never resets the global [format]: the items of the
    template are appended to the items already there. *)
Theorem parseFormat_appends (format0 : list fitem) (formatstr : list ascii) :
  parseFormat format0 formatstr = format0 ++ parseFormat [] formatstr.
Proof.
  unfold parseFormat. rewrite <- (app_nil_r format0) at 1. apply parseFormatLoop_app.
Qed.

Lemma wellFormed_snoc_tag f t :
  wellFormed f = true -> t <> F_NONE -> wellFormed (f ++ [FInt t]) = true.
Proof.
  intros Hf Ht. induction f as [|[t'|s] f IH]; simpl in *.
  - by destruct t.
  - apply andb_true_iff in Hf as [-> Hf]. by rewrite IH.
  - apply andb_true_iff in Hf as [Hf1 Hf]. apply andb_true_iff in Hf1 as [-> Hf1].
    rewrite IH by done. destruct f as [|[|] f]; done.
Qed.

Lemma wellFormed_snoc_str f s :
  wellFormed f = true -> endsWithTag f -> s <> [] -> wellFormed (f ++ [FStr s]) = true.
Proof.
  intros Hf He Hs. induction f as [|[t'|s'] f IH]; simpl in *.
  - by destruct s.
  - apply andb_true_iff in Hf as [-> Hf]. rewrite IH; [done|done|].
    unfold endsWithTag in *. destruct f; [done|]. exact He.
  - apply andb_true_iff in Hf as [Hf1 Hf]. apply andb_true_iff in Hf1 as [-> Hf1].
    destruct f as [|it f]; [done|].
    rewrite IH; [|done|exact He]. by destruct it.
Qed.

Lemma endsWithTag_snoc f t : endsWithTag (f ++ [FInt t]).
Proof. unfold endsWithTag. by rewrite last_snoc. Qed.

Lemma parseFormatLoop_wellFormed chars : forall sp cur f,
  wellFormed f = true -> endsWithTag f ->
  wellFormed (parseFormatLoop chars sp cur f) = true.
Proof.
  induction chars as [|c chars IH]; intros sp cur f Hf He; simpl.
  - case_bool_decide; [by apply wellFormed_snoc_str|done].
  - destruct (Ascii.eqb c "#").
    + destruct sp; by apply IH.
    + assert (Htag : forall t cur', t <> F_NONE ->
                wellFormed
                  (if bool_decide (cur' <> [])
                   then parseFormatLoop chars false [] (f ++ [FStr cur'; FInt t])
                   else parseFormatLoop chars false cur' (f ++ [FInt t])) = true).
      { intros t cur' Ht. case_bool_decide.
        - apply IH.
          + change (f ++ [FStr cur'; FInt t]) with (f ++ [FStr cur'] ++ [FInt t]).
            rewrite app_assoc. apply wellFormed_snoc_tag; [|done].
            by apply wellFormed_snoc_str.
          + change (f ++ [FStr cur'; FInt t]) with (f ++ [FStr cur'] ++ [FInt t]).
            rewrite app_assoc. apply endsWithTag_snoc.
        - apply IH; [by apply wellFormed_snoc_tag|apply endsWithTag_snoc]. }
      destruct sp; [|simpl; by apply IH].
      destruct (Ascii.eqb (ToLower c) "s"); [by apply Htag|].
      destruct (Ascii.eqb (ToLower c) "i"); [by apply Htag|].
      destruct (Ascii.eqb (ToLower c) "r"); [by apply Htag|].
      destruct (Ascii.eqb (ToLower c) "q"); [by apply Htag|].
      by apply IH.
Qed.

(** X8.  Whatever the template, the format parsed from it holds no
    [F_NONE] tag and no empty literal, and never two literals in a row. *)
Theorem parseFormat_wellFormed (formatstr : list ascii) :
  wellFormed (parseFormat [] formatstr) = true.
Proof. unfold parseFormat. by apply parseFormatLoop_wellFormed. Qed.

Lemma wellFormed_no_F_NONE f : wellFormed f = true -> FInt F_NONE ∉ f.
Proof.
  induction f as [|[t|s] f IH]; simpl; intros Hf.
  - apply not_elem_of_nil.
  - apply andb_true_iff in Hf as [Ht Hf].
    intros [?|?]%elem_of_cons; [by simplify_eq|by apply IH].
  - apply andb_true_iff in Hf as [_ Hf].
    intros [?|?]%elem_of_cons; [congruence|by apply IH].
Qed.

Lemma cleanupQuery_total cfg query : is_Some (cleanupQuery cfg query).
Proof.
  rewrite cleanupQuery_finish. destruct (tokenText_total cfg query) as [tx ->]. by eexists.
Qed.

Lemma formatItem_total cfg rs pdata item :
  item <> FInt F_NONE -> is_Some (formatItem cfg rs pdata item).
Proof.
  intros Hne. destruct item as [[]|s]; simpl; try done.
  - destruct (dirty cfg); [done|apply cleanupQuery_total].
  - destruct (cleanupQuery_total cfg pdata) as [c ->].
    repeat case_match; done.
Qed.

Lemma formatItems_total cfg rs pdata items : forall text,
  FInt F_NONE ∉ items -> is_Some (formatItems cfg rs pdata items text).
Proof.
  induction items as [|item items IH]; intros text Hne; simpl; [done|].
  apply not_elem_of_cons in Hne as [Hne1 Hne].
  destruct (formatItem_total cfg rs pdata item) as [t ->]; [done|]. simpl. by apply IH.
Qed.

(** X9.  With the format parsed from any template and any flags,
    [formatQueryText] returns a text for every flow and every payload: the
    [log.Fatalf] branches are never reached. *)
Theorem formatQueryText_never_fatal (cfg : config) (formatstr : list ascii)
    (rs : source) (pdata : list ascii) :
  is_Some (formatQueryText (withTemplate cfg formatstr) rs pdata).
Proof.
  unfold formatQueryText. apply formatItems_total.
  apply wellFormed_no_F_NONE. unfold withTemplate, parseFormat. simpl.
  by apply parseFormatLoop_wellFormed.
Qed.

Lemma parseFormatLoop_literal chars : forall cur f,
  "#"%char ∉ chars ->
  parseFormatLoop chars false cur f =
  if bool_decide (cur ++ chars <> []) then f ++ [FStr (cur ++ chars)] else f.
Proof.
  induction chars as [|c chars IH]; intros cur f Hno; simpl.
  - by rewrite app_nil_r.
  - apply not_elem_of_cons in Hno as [Hc Hno].
    destruct (Ascii.eqb_spec c "#"); [done|].
    rewrite IH by done. by rewrite <- app_assoc.
Qed.

Lemma dropSpace_suffix s : exists pre, s = pre ++ dropSpace s.
Proof.
  induction s as [|c s [pre IH]]; simpl; [by exists []|].
  destruct (isSpace c); [|by exists []].
  exists (c :: pre). simpl. by f_equal.
Qed.

Lemma TrimSpace_elem c s : c ∈ TrimSpace s -> c ∈ s.
Proof.
  unfold TrimSpace. rewrite elem_of_reverse. intros H.
  destruct (dropSpace_suffix (reverse (dropSpace s))) as [pre Hpre].
  assert (c ∈ reverse (dropSpace s)) as H1 by (rewrite Hpre; set_solver).
  rewrite elem_of_reverse in H1.
  destruct (dropSpace_suffix s) as [pre' Hpre']. rewrite Hpre'. set_solver.
Qed.

(** X10.  An ASCII template without [#] that is not blank is parsed to a
    single literal, the template with its surrounding whitespace trimmed. *)
Theorem parseFormat_literal (formatstr : list ascii) :
  asciiText formatstr ->
  "#"%char ∉ formatstr ->
  TrimSpace formatstr <> [] ->
  parseFormat [] formatstr = [FStr (TrimSpace formatstr)].
Proof.
  intros _ Hno Hne. unfold parseFormat. rewrite bool_decide_eq_false_2 by done.
  rewrite parseFormatLoop_literal.
  - simpl. by rewrite bool_decide_eq_true_2.
  - intros H. by apply Hno, TrimSpace_elem.
Qed.

Lemma parseFormat_literal_witness :
  parseFormat [] (B "  all queries ") = [FStr (B "all queries")].
Proof.
  apply (parseFormat_literal (B "  all queries ")).
  - apply (bool_decide_unpack _). vm_compute. exact I.
  - apply (bool_decide_unpack _). vm_compute. exact I.
  - discriminate.
Defined.

(** ** The route item *)

(** X11.  For a payload [p0 /* host:route */ p4] whose first field [p0],
    [host] and [route] contain no space and whose [host] contains no colon,
    the route item of the format yields exactly [route]; the payload is read
    as it came, before any canonicalisation. *)
Theorem formatItem_route (cfg : config) (rs : source) (p0 host route p4 : list ascii) :
  " "%char ∉ p0 -> " "%char ∉ host -> ":"%char ∉ host -> " "%char ∉ route ->
  formatItem cfg rs (p0 ++ B " /* " ++ host ++ B ":" ++ route ++ B " */ " ++ p4) (FInt F_ROUTE)
  = Some route.
Proof.
  intros Hp0 Hh Hc Hr.
  assert (Hsplit : SplitN (p0 ++ B " /* " ++ host ++ B ":" ++ route ++ B " */ " ++ p4) " " 5
                   = [p0; B "/*"; host ++ ":"%char :: route; B "*/"; p4]).
  { apply SplitN_5. split; [|split; [done|split; [|split; [|]]]].
    - simpl. by rewrite <- !app_assoc.
    - apply (bool_decide_unpack _). vm_compute. exact I.
    - intros [?|[?|?]%elem_of_cons]%elem_of_app; [done|discriminate|done].
    - apply (bool_decide_unpack _). vm_compute. exact I. }
  unfold formatItem. rewrite Hsplit. simpl length. simpl nth.
  rewrite !bool_decide_eq_true_2 by done. simpl andb. cbv iota.
  unfold Contains. rewrite bool_decide_eq_true_2.
  - simpl SplitN. rewrite cut_app by done. done.
  - apply elem_of_app. right. by constructor.
Qed.

Lemma formatItem_route_witness :
  formatItem cfg0 (newSource client (B "10.0.0.1"))
    (B "SELECT /* web1:users.list */ * FROM users WHERE id=7") (FInt F_ROUTE)
  = Some (B "users.list").
Proof.
  apply (formatItem_route cfg0 (newSource client (B "10.0.0.1"))
           (B "SELECT") (B "web1") (B "users.list") (B "* FROM users WHERE id=7"));
    apply (bool_decide_unpack _); vm_compute; exact I.
Defined.

(** ** Frames *)

Lemma lor_shiftl a b n :
  0 <= n -> 0 <= a < 2 ^ n -> Z.lor a (Z.shiftl b n) = a + b * 2 ^ n.
Proof.
  intros Hn Ha. rewrite Z.shiftl_mul_pow2 by done.
  assert (Z.land a (b * 2 ^ n) = 0) as Hland.
  { apply Z.bits_inj'. intros m Hm. rewrite Z.land_spec, Z.bits_0.
    destruct (Z.lt_ge_cases m n) as [Hlt|Hge].
    - rewrite Z.mul_pow2_bits_low by done. apply andb_false_r.
    - destruct (Z.eq_dec a 0) as [->|Hne]; [by rewrite Z.bits_0|].
      rewrite (Z.bits_above_log2 a m); [done|lia|].
      apply Z.lt_le_trans with n; [|done]. apply Z.log2_lt_pow2; lia. }
  rewrite <- Z.lxor_lor by done. symmetry. by apply Z.add_nocarry_lxor.
Qed.

Lemma collect_size b :
  Z.lor (Z.lor (code (at_ b 0)) (uint32 (Z.shiftl (code (at_ b 1)) 8)))
        (uint32 (Z.shiftl (code (at_ b 2)) 16)) = declaredLength b.
Proof.
  pose proof (code_range (at_ b 0)). pose proof (code_range (at_ b 1)).
  pose proof (code_range (at_ b 2)). unfold declaredLength, uint32.
  rewrite !Z.shiftl_mul_pow2 by lia.
  rewrite (Z.mod_small (code (at_ b 1) * 2 ^ 8)) by lia.
  rewrite (Z.mod_small (code (at_ b 2) * 2 ^ 16)) by lia.
  rewrite <- !Z.shiftl_mul_pow2 by lia.
  rewrite (lor_shiftl (code (at_ b 0))) by lia.
  rewrite lor_shiftl by lia. lia.
Qed.

Lemma int_small z : - 2 ^ 63 <= z < 2 ^ 63 -> int z = z.
Proof. intros H. unfold int. rewrite Z.mod_small by lia. lia. Qed.

Lemma collectLoop_unfold fuel buf packets :
  collectLoop fuel buf packets =
  let L := declaredLength buf in
  if (4 <=? length buf)%nat then
    if (L =? 0) || (Z.of_nat (length buf) <? L + 4) then Some packets
    else
      match fuel with
      | O => None
      | S fuel' =>
          collectLoop fuel' (drop (Z.to_nat (L + 4)) buf)
            (packets ++ [drop 4 (take (Z.to_nat (L + 4)) buf)])
      end
  else Some packets.
Proof.
  pose proof (declaredLength_range buf) as HL.
  destruct fuel; simpl; rewrite !collect_size;
    rewrite (int_small (declaredLength buf)) by lia;
    rewrite (int_small (declaredLength buf + 4)) by lia;
    unfold uint32; rewrite ?(Z.mod_small (declaredLength buf + 4)) by lia; done.
Qed.

Lemma declaredLength_frame seq body rest :
  Z.of_nat (length body) < 2 ^ 24 ->
  declaredLength (frame seq body ++ rest) = Z.of_nat (length body).
Proof.
  intros HL. unfold declaredLength, frame, at_. simpl.
  rewrite !code_byte_of by (Z.div_mod_to_equations; lia).
  Z.div_mod_to_equations. lia.
Qed.

Lemma frame_length seq body : length (frame seq body) = (4 + length body)%nat.
Proof. done. Qed.

(** X12.  Framing round trip: from a buffer that starts with the frame of
    the command byte [c] and [payload] (fewer than 2^24 bytes in all, the
    buffer shorter than 2^32), [carvePacket] returns [c] and [payload] and
    leaves the bytes after the frame, or the nil slice when there are
    none. *)
Theorem carvePacket_frame (seq c : ascii) (payload rest : list ascii) :
  Z.of_nat (length (c :: payload)) < 2 ^ 24 ->
  Z.of_nat (length (frame seq (c :: payload) ++ rest)) < 2 ^ 32 ->
  carvePacket (Some (frame seq (c :: payload) ++ rest)) =
  (match rest with [] => None | _ :: _ => Some rest end, inr (c, payload)).
Proof.
  intros HL Hlen. rewrite carvePacket_small by exact Hlen.
  cbv zeta.
  change (bytes_of (Some (frame seq (c :: payload) ++ rest)))
    with (frame seq (c :: payload) ++ rest).
  rewrite declaredLength_frame by done.
  rewrite length_app, frame_length in *.
  set (L := length (c :: payload)) in *.
  assert (1 <= L)%nat as HL1 by (subst L; simpl; lia).
  destruct (Z.ltb_spec (Z.of_nat (4 + L + length rest)) 5); [lia|].
  destruct (Z.eqb_spec (Z.of_nat L) 0); [lia|].
  destruct (Z.ltb_spec (Z.of_nat (4 + L + length rest)) (Z.of_nat L + 4)); [lia|].
  simpl orb. cbv iota.
  replace (Z.to_nat (Z.of_nat L + 4)) with (length (frame seq (c :: payload))) by
    (rewrite frame_length; lia).
  rewrite take_app_length, drop_app_length. f_equal.
  destruct rest as [|r rest'].
  - simpl length. destruct (Z.geb_spec (Z.of_nat L + 4) (Z.of_nat (4 + L + 0))); [done|lia].
  - simpl length. destruct (Z.geb_spec (Z.of_nat L + 4) (Z.of_nat (4 + L + S (length rest')))); [lia|done].
Qed.

Lemma carvePacket_frame_witness :
  carvePacket (Some (frame (byte_of 0) (byte_of 3 :: B "select 1") ++ B "tail")) =
  (Some (B "tail"), inr (byte_of 3, B "select 1")).
Proof.
  apply (carvePacket_frame (byte_of 0) (byte_of 3) (B "select 1") (B "tail")).
  - vm_compute. reflexivity.
  - vm_compute. reflexivity.
Defined.

Lemma collectLoop_acc fuel : forall buf acc,
  collectLoop fuel buf acc = (fun pkts => acc ++ pkts) <$> collectLoop fuel buf [].
Proof.
  induction fuel as [|fuel IH]; intros buf acc; rewrite !(collectLoop_unfold _ buf); cbv zeta.
  - destruct (4 <=? length buf)%nat; [|simpl; by rewrite app_nil_r].
    destruct (_ || _); simpl; by rewrite ?app_nil_r.
  - destruct (4 <=? length buf)%nat; [|simpl; by rewrite app_nil_r].
    destruct (_ || _); [simpl; by rewrite app_nil_r|].
    rewrite IH. rewrite (IH _ ([] ++ _)).
    destruct (collectLoop fuel _ []); simpl; [|done]. by rewrite <- app_assoc.
Qed.

Lemma collectLoop_fuel fuel : forall fuel' buf acc,
  (length buf <= fuel)%nat -> (length buf <= fuel')%nat ->
  collectLoop fuel buf acc = collectLoop fuel' buf acc.
Proof.
  induction fuel as [|fuel IH]; intros fuel' buf acc H1 H2;
    rewrite (collectLoop_unfold _ buf), (collectLoop_unfold fuel' buf); cbv zeta.
  - destruct buf; [|simpl in H1; lia]. done.
  - pose proof (declaredLength_range buf) as HL.
    destruct (4 <=? length buf)%nat eqn:H4; [|done]. apply Nat.leb_le in H4.
    destruct ((declaredLength buf =? 0) || (Z.of_nat (length buf) <? declaredLength buf + 4))
      eqn:Hc; [done|].
    destruct fuel' as [|fuel']; [lia|].
    apply IH; rewrite length_drop; lia.
Qed.

Lemma collect_step seq body rest :
  body <> [] -> Z.of_nat (length body) < 2 ^ 24 ->
  collectAllResponsePackets (frame seq body ++ rest) =
  (fun pkts => body :: pkts) <$> collectAllResponsePackets rest.
Proof.
  intros Hne HL. unfold collectAllResponsePackets.
  rewrite length_app, frame_length.
  assert (1 <= length body)%nat by (destruct body; [done|simpl; lia]).
  replace (4 + length body + length rest)%nat with (S (3 + length body + length rest)) by lia.
  rewrite collectLoop_unfold. cbv zeta.
  rewrite declaredLength_frame by done. rewrite length_app, frame_length.
  destruct (Nat.leb_spec 4 (4 + length body + length rest)); [|lia].
  destruct (Z.eqb_spec (Z.of_nat (length body)) 0); [lia|].
  destruct (Z.ltb_spec (Z.of_nat (4 + length body + length rest)) (Z.of_nat (length body) + 4)); [lia|].
  simpl orb. cbv iota.
  replace (Z.to_nat (Z.of_nat (length body) + 4)) with (length (frame seq body)) by
    (rewrite frame_length; lia).
  rewrite take_app_length, drop_app_length.
  change (drop 4 (frame seq body)) with body.
  rewrite collectLoop_acc.
  rewrite (collectLoop_fuel _ (length rest)); [done|lia|lia].
Qed.

(** X13.  [collectAllResponsePackets] inverts framing: on the frames of
    non-empty packets of fewer than 2^24 bytes each, followed by [tail], it
    returns these packets, in order, followed by what it returns on [tail];
    the sequence bytes are ignored. *)
Theorem collectAllResponsePackets_frames (seqs : list ascii) (bodies : list (list ascii))
    (tail : list ascii) :
  length seqs = length bodies ->
  Forall (fun body => body <> [] /\ Z.of_nat (length body) < 2 ^ 24) bodies ->
  collectAllResponsePackets (frames seqs bodies ++ tail) =
  (fun pkts => bodies ++ pkts) <$> collectAllResponsePackets tail.
Proof.
  revert seqs. induction bodies as [|body bodies IH]; intros [|seq seqs] Hlen Hall;
    simpl in Hlen; try lia.
  - unfold frames. simpl. by destruct (collectAllResponsePackets tail).
  - apply Forall_cons in Hall as [[Hne HL] Hall].
    change (frames (seq :: seqs) (body :: bodies))
      with (frame seq body ++ frames seqs bodies).
    rewrite <- app_assoc.
    rewrite collect_step by done. rewrite IH; [|lia|done].
    by destruct (collectAllResponsePackets tail).
Qed.

Lemma collectAllResponsePackets_frames_witness :
  collectAllResponsePackets
    (frames [byte_of 1; byte_of 2] [B "ab"; B "c"] ++ map byte_of [9; 9]) =
  (fun pkts => [B "ab"; B "c"] ++ pkts) <$> collectAllResponsePackets (map byte_of [9; 9]).
Proof.
  apply (collectAllResponsePackets_frames [byte_of 1; byte_of 2] [B "ab"; B "c"]).
  - reflexivity.
  - repeat constructor; try discriminate; vm_compute; reflexivity.
Defined.

Lemma frame_take_drop buf :
  (4 <= length buf)%nat ->
  declaredLength buf <> 0 -> declaredLength buf + 4 <= Z.of_nat (length buf) ->
  buf = frame (at_ buf 3) (drop 4 (take (Z.to_nat (declaredLength buf + 4)) buf))
        ++ drop (Z.to_nat (declaredLength buf + 4)) buf.
Proof.
  intros H4 H0 Hlen. pose proof (declaredLength_range buf) as HL.
  rewrite <- (take_drop (Z.to_nat (declaredLength buf + 4)) buf) at 1. f_equal.
  set (n := Z.to_nat (declaredLength buf + 4)).
  assert (length (drop 4 (take n buf)) = Z.to_nat (declaredLength buf)) as Hbody.
  { rewrite length_drop, length_take. lia. }
  unfold frame. rewrite Hbody. rewrite Z2Nat.id by lia.
  destruct buf as [|b0 [|b1 [|b2 [|b3 buf']]]]; simpl in H4; try lia.
  replace n with (S (S (S (S (Z.to_nat (declaredLength (b0 :: b1 :: b2 :: b3 :: buf')))))))
    by lia.
  simpl take. simpl drop. unfold declaredLength, at_. simpl nth.
  pose proof (code_range b0). pose proof (code_range b1). pose proof (code_range b2).
  simpl app. f_equal; [|f_equal; [|f_equal]].
  - rewrite <- (byte_of_code b0) at 1. f_equal. Z.div_mod_to_equations. lia.
  - rewrite <- (byte_of_code b1) at 1. f_equal. Z.div_mod_to_equations. lia.
  - rewrite <- (byte_of_code b2) at 1. f_equal. Z.div_mod_to_equations. lia.
Qed.

Lemma collect_decompose : forall n buffer, (length buffer <= n)%nat ->
  exists pkts seqs rest,
    collectAllResponsePackets buffer = Some pkts /\
    length seqs = length pkts /\
    buffer = frames seqs pkts ++ rest /\
    Forall (fun pkt => pkt <> []) pkts /\
    undecodable rest.
Proof.
  induction n as [|n IH]; intros buffer Hn.
  - destruct buffer; [|simpl in Hn; lia].
    exists [], [], []. repeat split; try done. left. simpl. lia.
  - pose proof (declaredLength_range buffer) as HL.
    destruct (Nat.leb_spec 4 (length buffer)) as [H4|H4].
    2:{ exists [], [], buffer. unfold collectAllResponsePackets.
        rewrite collectLoop_unfold. cbv zeta.
        destruct (Nat.leb_spec 4 (length buffer)); [lia|].
        repeat split; try done. by left. }
    destruct (Z.eq_dec (declaredLength buffer) 0) as [H0|H0].
    { exists [], [], buffer. unfold collectAllResponsePackets.
      rewrite collectLoop_unfold. cbv zeta.
      destruct (Nat.leb_spec 4 (length buffer)); [|lia].
      rewrite H0. simpl. repeat split; try done. right. by left. }
    destruct (Z.lt_ge_cases (Z.of_nat (length buffer)) (declaredLength buffer + 4)) as [Hlt|Hge].
    { exists [], [], buffer. unfold collectAllResponsePackets.
      rewrite collectLoop_unfold. cbv zeta.
      destruct (Nat.leb_spec 4 (length buffer)); [|lia].
      destruct (Z.ltb_spec (Z.of_nat (length buffer)) (declaredLength buffer + 4)); [|lia].
      rewrite orb_true_r. repeat split; try done. right. by right. }
    pose proof (frame_take_drop buffer H4 H0 Hge) as Hbuf.
    set (body := drop 4 (take (Z.to_nat (declaredLength buffer + 4)) buffer)) in *.
    set (rest := drop (Z.to_nat (declaredLength buffer + 4)) buffer) in *.
    assert (length body = Z.to_nat (declaredLength buffer)) as Hbody.
    { subst body. rewrite length_drop, length_take. lia. }
    destruct (IH rest) as (pkts & seqs & rest' & Hc & Hlen & Hrest & Hall & Hun).
    { subst rest. rewrite length_drop. lia. }
    exists (body :: pkts), (at_ buffer 3 :: seqs), rest'.
    rewrite Hbuf at 1. rewrite collect_step; [|destruct body; [simpl in Hbody; lia|done]|lia].
    rewrite Hc. split; [done|]. split; [simpl; by rewrite Hlen|].
    split; [|split; [|done]].
    + change (frames (at_ buffer 3 :: seqs) (body :: pkts))
        with (frame (at_ buffer 3) body ++ frames seqs pkts).
      rewrite <- app_assoc, <- Hrest. exact Hbuf.
    + constructor; [|done]. destruct body; [simpl in Hbody; lia|done].
Qed.

(** X14.  [collectAllResponsePackets] returns on every buffer; the packets
    it returns are non-empty, the buffer is exactly their frames followed by
    a rest, and the rest is where the loop stops: fewer than four bytes, a
    declared size of zero, or an incomplete packet. *)
Theorem collectAllResponsePackets_decomposes (buffer : list ascii) :
  exists pkts seqs rest,
    collectAllResponsePackets buffer = Some pkts /\
    length seqs = length pkts /\
    buffer = frames seqs pkts ++ rest /\
    Forall (fun pkt => pkt <> []) pkts /\
    undecodable rest.
Proof. by apply (collect_decompose (length buffer)). Qed.

(** X15.  The request framer and the response framer agree: when
    [carvePacket] takes a command [c] with [payload] from a buffer shorter
    than 2^32 bytes, [collectAllResponsePackets] on the same buffer returns
    [c :: payload] as its first packet, followed by what it returns on the
    bytes [carvePacket] left. *)
Theorem carvePacket_collect (b : list ascii) (buf' : slice) (c : ascii) (payload : list ascii) :
  Z.of_nat (length b) < 2 ^ 32 ->
  carvePacket (Some b) = (buf', inr (c, payload)) ->
  collectAllResponsePackets b =
  (fun pkts => (c :: payload) :: pkts) <$> collectAllResponsePackets (bytes_of buf').
Proof.
  intros Hlen. rewrite carvePacket_small by exact Hlen. cbv zeta.
  change (bytes_of (Some b)) with b.
  pose proof (declaredLength_range b) as HL.
  destruct (Z.ltb_spec (Z.of_nat (length b)) 5) as [|H5]; [done|].
  destruct (Z.eqb_spec (declaredLength b) 0) as [|H0]; [done|].
  destruct (Z.ltb_spec (Z.of_nat (length b)) (declaredLength b + 4)) as [|Hge]; [done|].
  simpl orb. cbv iota. intros [= <- <- <-].
  assert (4 <= length b)%nat as H4 by lia.
  pose proof (frame_take_drop b H4 H0 Hge) as Hbuf.
  set (n := Z.to_nat (declaredLength b + 4)) in *.
  assert (length (drop 4 (take n b)) = Z.to_nat (declaredLength b)) as Hbody.
  { rewrite length_drop, length_take. lia. }
  assert (drop 4 (take n b) = at_ b 4 :: drop 5 (take n b)) as Hcons.
  { destruct b as [|b0 [|b1 [|b2 [|b3 [|b4 b']]]]]; simpl in H5; try lia.
    replace n with (S (S (S (S (S (n - 5)))))) by lia. done. }
  match goal with |- context [bytes_of ?s] => assert (bytes_of s = drop n b) as Hrest end.
  { destruct (Z.geb_spec (declaredLength b + 4) (Z.of_nat (length b))); [|done].
    simpl. rewrite drop_ge; [done|lia]. }
  rewrite Hrest. rewrite Hbuf at 1. rewrite collect_step.
  - by rewrite Hcons.
  - rewrite Hcons. done.
  - lia.
Qed.

Lemma carvePacket_collect_witness :
  collectAllResponsePackets (map byte_of [2; 0; 0; 0; 3; 65; 1; 0; 0; 1; 14]) =
  (fun pkts => (byte_of 3 :: B "A") :: pkts) <$>
    collectAllResponsePackets (bytes_of (Some (map byte_of [1; 0; 0; 1; 14]))).
Proof.
  apply (carvePacket_collect (map byte_of [2; 0; 0; 0; 3; 65; 1; 0; 0; 1; 14])).
  - vm_compute. reflexivity.
  - vm_compute. reflexivity.
Defined.

(** ** The command payload decoder, continued *)

Lemma LengthEncodedInt_size b v null n :
  LengthEncodedInt b = Some (v, null, n) -> (n <= 9)%nat.
Proof.
  unfold LengthEncodedInt. destruct b as [|c rest]; [done|].
  repeat case_match; intros [= <- <- <-]; lia.
Qed.

(** X16.  The query text [parseComQuery] returns is never empty and is
    always the end of the payload, after at most 18 bytes of counts. *)
Theorem parseComQuery_returns_suffix (data q : list ascii) :
  parseComQuery data = Some (inr q) ->
  q <> [] /\ exists counts, data = counts ++ q /\ (length counts <= 18)%nat.
Proof.
  unfold parseComQuery. destruct data as [|firstByte rest] eqn:Hdata; [done|].
  rewrite <- Hdata.
  assert (data <> []) as Hne by (by subst data).
  assert (Hwhole : Some (@inr comQueryError _ data) = Some (inr q) ->
            q <> [] /\ exists counts, data = counts ++ q /\ (length counts <= 18)%nat).
  { intros [= <-]. split; [done|]. exists []. split; [done|simpl; lia]. }
  clear Hdata.
  destruct ((code firstByte <? 32) || (code firstByte >=? 251)); [|exact Hwhole].
  rewrite drop_0.
  destruct (LengthEncodedInt data) as [[[pc null1] n1]|] eqn:H1; [|done]. simpl.
  pose proof (LengthEncodedInt_size _ _ _ _ H1) as Hn1.
  destruct (null1 || (n1 =? 0)%nat); [exact Hwhole|].
  destruct (length data <=? n1)%nat; [done|].
  destruct (LengthEncodedInt (drop n1 data)) as [[[psc null2] n2]|] eqn:H2; [|done]. simpl.
  pose proof (LengthEncodedInt_size _ _ _ _ H2) as Hn2.
  destruct null2; [done|]. destruct (pc >? 0); [done|].
  destruct (Nat.leb_spec (length data) (n1 + n2)) as [|Hlt]; [done|].
  intros [= <-]. split.
  - intros Hnil. apply (f_equal length) in Hnil. rewrite length_drop in Hnil. simpl in Hnil. lia.
  - exists (take (n1 + n2) data). split; [by rewrite take_drop|].
    rewrite length_take. lia.
Qed.

Lemma parseComQuery_returns_suffix_witness :
  B "select 1" <> [] /\
  exists counts, map byte_of [0; 1] ++ B "select 1" = counts ++ B "select 1" /\
                 (length counts <= 18)%nat.
Proof.
  apply (parseComQuery_returns_suffix (map byte_of [0; 1] ++ B "select 1")).
  vm_compute. reflexivity.
Defined.

(** ** The error packet decoder *)

Lemma errorCode_value lo hi :
  uint16 (Z.lor (code lo) (uint16 (Z.shiftl (code hi) 8))) = code lo + 256 * code hi.
Proof.
  pose proof (code_range lo). pose proof (code_range hi). unfold uint16.
  rewrite Z.shiftl_mul_pow2 by lia.
  rewrite (Z.mod_small (code hi * 2 ^ 8)) by lia.
  rewrite <- Z.shiftl_mul_pow2 by lia.
  rewrite lor_shiftl by lia. rewrite Z.mod_small by lia. lia.
Qed.

(** X17.  [parseErrorPacket] returns on every input: the length test at
    its head keeps every index and slice bound in range. *)
Theorem parseErrorPacket_no_fault (data : list ascii) : is_Some (parseErrorPacket data).
Proof.
  unfold parseErrorPacket.
  destruct (Nat.ltb_spec (length data) 9) as [|Hlen]; [done|].
  destruct data as [|b0 [|lo [|hi [|marker tail]]]]; simpl in Hlen; try lia.
  destruct tail as [|t1 [|t2 [|t3 [|t4 [|t5 tail']]]]]; simpl in Hlen; try lia.
  simpl. destruct (Ascii.eqb marker "#"); done.
Qed.

(** X18.  The layouts of an error packet.  With the marker [#], the five
    bytes after it are the SQL state and the text is
    [ERROR code (state): message]; without marker and with at least six
    bytes of message the text is [ERROR code: message]; the code is the
    little-endian value of bytes 1 and 2.  A packet without marker whose
    message has fewer than six bytes is reported as the bare word [ERROR],
    without its code. *)
Theorem parseErrorPacket_decodes (b0 lo hi : ascii) :
  (forall state message : list ascii,
     length state = 5%nat ->
     parseErrorPacket (b0 :: lo :: hi :: "#"%char :: state ++ message) =
     Some (COLOR_RED ++ B "ERROR " ++ fmt_d (code lo + 256 * code hi) ++ B " (" ++ state
           ++ B "): " ++ message ++ COLOR_DEFAULT)) /\
  (forall message : list ascii,
     (6 <= length message)%nat -> head message <> Some "#"%char ->
     parseErrorPacket (b0 :: lo :: hi :: message) =
     Some (COLOR_RED ++ B "ERROR " ++ fmt_d (code lo + 256 * code hi) ++ B ": " ++ message
           ++ COLOR_DEFAULT)) /\
  (forall message : list ascii,
     (length message < 6)%nat ->
     parseErrorPacket (b0 :: lo :: hi :: message) = Some (B "ERROR")).
Proof.
  split; [|split].
  - intros state message Hst.
    destruct state as [|s1 [|s2 [|s3 [|s4 [|s5 [|]]]]]]; try discriminate Hst.
    unfold parseErrorPacket. simpl. by rewrite errorCode_value.
  - intros message Hlen Hhead. unfold parseErrorPacket.
    destruct (Nat.ltb_spec (length (b0 :: lo :: hi :: message)) 9) as [Hlt|_].
    { simpl in Hlt. lia. }
    destruct message as [|m0 message']; [simpl in Hlen; lia|].
    simpl. rewrite errorCode_value.
    destruct (Ascii.eqb_spec m0 "#") as [->|_]; [done|]. done.
  - intros message Hlen. unfold parseErrorPacket.
    destruct (Nat.ltb_spec (length (b0 :: lo :: hi :: message)) 9) as [_|Hge]; [done|].
    simpl in Hge. lia.
Qed.

Lemma parseErrorPacket_decodes_witness :
  parseErrorPacket (map byte_of [255; 40; 4; 35] ++ B "42S02" ++ B "Unknown table") =
  Some (COLOR_RED ++ B "ERROR 1064 (42S02): Unknown table" ++ COLOR_DEFAULT).
Proof.
  apply (proj1 (parseErrorPacket_decodes (byte_of 255) (byte_of 40) (byte_of 4)) (B "42S02")).
  reflexivity.
Defined.

(** ** The flow state machine, continued *)

(** What [processRequest] does to the state: the desync bookkeeping, then
    either nothing more that the counters see, or the recording of a
    command. *)
Lemma processRequest_cases cfg now g rs data g' rs' :
  processRequest cfg now g rs data = Some (g', rs') ->
  let g0 := match respBuffer rs with
            | Some _ => set_desyncs (uint64 (desyncs g + 1)) g
            | None => g
            end in
  respBuffer rs' = None /\
  ((g' = g0 /\ reqSent rs' = reqSent rs) \/
   (exists text plen,
      let qdata := default newQueryData (qbuf g !! text) in
      g' = set_qbuf (<[text := QueryData (uint64 (qd_count qdata + 1))
                                 (uint64 (qd_bytes qdata + plen)) (qd_times qdata)]> (qbuf g))
             (set_queryCount (int (queryCount g + 1)) g0) /\
      reqSent rs' = Some now /\ qData rs' = Some text /\ synced rs' = true)).
Proof.
  unfold processRequest. intros H.
  destruct rs as [hp ip sy rb pb rsent rt qb qd qt]; simpl in H |- *.
  destruct (carvePacket data) as [buf [e|[pType pData]]] eqn:Hcarve.
  - destruct pb; simplify_eq/=; eauto.
  - destruct pb; simpl in H.
    + destruct (code pType =? COM_QUERY) eqn:Hq; simpl in H.
      * destruct (parseComQuery pData) as [[e|q]|]; simplify_eq/=; eauto.
        destruct (formatQueryText _ _ _) as [text|] eqn:Ht; simplify_eq/=.
        split; [done|]. right. by eexists _, _.
      * simplify_eq/=. eauto.
    + destruct sy; simpl in H.
      * destruct (code pType =? COM_QUERY) eqn:Hq; simpl in H.
        -- destruct (parseComQuery pData) as [[e|q]|]; simplify_eq/=; eauto.
           destruct (formatQueryText _ _ _) as [text|] eqn:Ht; simplify_eq/=.
           split; [done|]. right. by eexists _, _.
        -- destruct (formatQueryText _ _ _) as [text|] eqn:Ht; simplify_eq/=.
           split; [done|]. right. by eexists _, _.
      * destruct (code pType =? COM_QUERY) eqn:Hq; simpl in H.
        -- destruct (parseComQuery pData) as [[e|q]|]; simplify_eq/=; eauto.
           destruct (formatQueryText _ _ _) as [text|] eqn:Ht; simplify_eq/=.
           split; [done|]. right. by eexists _, _.
        -- simplify_eq/=. eauto.
Qed.

Lemma processRequest_counters cfg now g rs data g' rs' :
  processRequest cfg now g rs data = Some (g', rs') ->
  chmap g' = chmap g /\ rcvd g' = rcvd g /\ rcvd_sync g' = rcvd_sync g /\
  streams g' = streams g /\ times g' = times g /\
  desyncs g' = match respBuffer rs with
               | Some _ => uint64 (desyncs g + 1)
               | None => desyncs g
               end.
Proof.
  intros H. apply processRequest_cases in H as [_ H]. cbv zeta in H.
  destruct H as [[-> _]|(text & plen & -> & _)]; destruct (respBuffer rs); done.
Qed.

Lemma processResponse_counters now randn g rs data :
  let g' := (processResponse now randn g rs data).1 in
  chmap g' = chmap g /\ rcvd g' = rcvd g /\ rcvd_sync g' = rcvd_sync g /\
  streams g' = streams g /\ desyncs g' = desyncs g /\ queryCount g' = queryCount g.
Proof.
  unfold processResponse.
  destruct rs as [hp ip sy rb pb rsent rt qb qd qt]; simpl.
  destruct pb, rsent, qd; simpl; done.
Qed.

(** The flow a segment with payload is processed on, the state it is
    processed in, and where the result goes. *)
Lemma handlePacket_step cfg g seg g' :
  handlePacket cfg g seg = Some g' ->
  seg_payload seg <> [] ->
  exists g1 rs g2 rs',
    ((chmap g !! seg_src seg = Some rs /\ g1 = g) \/
     (chmap g !! seg_src seg = None /\
      (exists ip, rs = newSource (seg_src seg) ip) /\
      g1 = set_streams (uint64 (streams g + 1)) g)) /\
    processPacket cfg (seg_now seg) (seg_randn seg) g1 rs (seg_request seg)
      (Some (seg_payload seg)) = Some (g2, rs') /\
    g' = set_chmap (<[seg_src seg := rs']> (chmap g2)) g2.
Proof.
  unfold handlePacket. intros H Hne.
  destruct (seg_payload seg) as [|c p] eqn:Hp; [done|].
  change (length (c :: p) =? 0)%nat with false in H. cbv iota in H.
  destruct (chmap g !! seg_src seg) as [rs|] eqn:Hl.
  - change (Some (g, rs) ≫= _) with
      ('(g2, rs') ← processPacket cfg (seg_now seg) (seg_randn seg) g rs (seg_request seg)
                      (Some (c :: p));
       Some (set_chmap (<[seg_src seg := rs']> (chmap g2)) g2)) in H.
    destruct (processPacket _ _ _ _ _ _ _) as [[g2 rs']|] eqn:Hpp; [|done].
    simpl in H. injection H as <-.
    exists g, rs, g2, rs'. split; [by left|done].
  - destruct (cut ":" (seg_src seg)) as [[ip r]|]; [|done].
    change (Some (ip, r) ≫= _) with
      (Some (set_streams (uint64 (streams g + 1)) g, newSource (seg_src seg) ip)) in H.
    change (Some (?a, ?b) ≫= _) with
      ('(g2, rs') ← processPacket cfg (seg_now seg) (seg_randn seg) a b (seg_request seg)
                      (Some (c :: p));
       Some (set_chmap (<[seg_src seg := rs']> (chmap g2)) g2)) in H.
    destruct (processPacket _ _ _ _ _ _ _) as [[g2 rs']|] eqn:Hpp; [|done].
    simpl in H. injection H as <-.
    exists (set_streams (uint64 (streams g + 1)) g), (newSource (seg_src seg) ip), g2, rs'.
    split; [right; eauto|done].
Qed.

Lemma processPacket_counters cfg now randn g rs request data g' rs' :
  processPacket cfg now randn g rs request data = Some (g', rs') ->
  chmap g' = chmap g /\ streams g' = streams g /\
  rcvd g' = uint64 (rcvd g + 1) /\
  rcvd_sync g' = (if synced rs then uint64 (rcvd_sync g + 1) else rcvd_sync g) /\
  desyncs g' = (if request && bool_decide (is_Some (respBuffer rs))
                then uint64 (desyncs g + 1) else desyncs g).
Proof.
  unfold processPacket.
  set (g1 := if synced rs then _ else _).
  assert (Hg1 : chmap g1 = chmap g /\ streams g1 = streams g /\
                rcvd g1 = uint64 (rcvd g + 1) /\
                rcvd_sync g1 = (if synced rs then uint64 (rcvd_sync g + 1) else rcvd_sync g) /\
                desyncs g1 = desyncs g)
    by (subst g1; destruct (synced rs); done).
  destruct Hg1 as (Hc & Hs & Hr & Hrs & Hd). clearbody g1. destruct request.
  - intros (Hc' & Hr' & Hrs' & Hs' & _ & Hd')%processRequest_counters.
    rewrite Hc', Hr', Hrs', Hs', Hd', Hc, Hs, Hr, Hrs, Hd.
    rewrite andb_true_l. repeat split.
    destruct (respBuffer rs).
    + rewrite bool_decide_eq_true_2 by eauto. done.
    + rewrite bool_decide_eq_false_2; [done|]. by intros [? ?].
  - intros [= Heq].
    destruct (processResponse_counters now randn g1 rs data) as (Hc' & Hr' & Hrs' & Hs' & Hd' & _).
    rewrite Heq in Hc', Hr', Hrs', Hs', Hd'. simpl in *.
    rewrite Hc', Hr', Hrs', Hs', Hd', Hc, Hs, Hr, Hrs, Hd. done.
Qed.

Lemma uint64_succ a : uint64 (uint64 a + 1) = uint64 (a + 1).
Proof. unfold uint64. by rewrite Z.add_mod_idemp_l. Qed.

Lemma uint64_small a : 0 <= a < 2 ^ 64 -> uint64 a = a.
Proof. apply Z.mod_small. Qed.

Lemma run_snoc cfg segs seg g g' :
  run cfg (segs ++ [seg]) g = Some g' <->
  exists g1, run cfg segs g = Some g1 /\ handlePacket cfg g1 seg = Some g'.
Proof.
  rewrite run_app. destruct (run cfg segs g) as [g1|]; simpl.
  - destruct (handlePacket cfg g1 seg) as [g2|] eqn:Hh; simpl.
    + split; [intros [= <-]; eauto|]. intros (x & Hx & Hy). by simplify_eq.
    + split; [done|]. intros (x & Hx & Hy). by simplify_eq.
  - split; [done|]. by intros (? & ? & ?).
Qed.

Lemma withPayload_snoc segs seg :
  withPayload (segs ++ [seg]) =
  withPayload segs ++ (if decide (seg_payload seg = []) then [] else [seg]).
Proof.
  unfold withPayload. rewrite filter_app. f_equal.
  destruct (decide (seg_payload seg = [])) as [He|He].
  - by rewrite filter_cons_False by (by intros ?).
  - by rewrite filter_cons_True by done.
Qed.

Lemma handlePacket_countersInv cfg g seg g' n :
  handlePacket cfg g seg = Some g' -> seg_payload seg <> [] ->
  countersInv g n -> countersInv g' (n + 1).
Proof.
  intros H Hne (Hst & Hr & s & d & Hs & Hd & Hrs & Hds).
  destruct (handlePacket_step _ _ _ _ H Hne) as (g1 & rs & g2 & rs' & Hflow & Hpp & ->).
  apply processPacket_counters in Hpp as (Hc & Hst' & Hr' & Hrs' & Hds').
  unfold countersInv. simpl. rewrite Hc, Hst', Hr', Hrs', Hds'.
  destruct Hflow as [[Hl ->]|(Hl & _ & ->)]; simpl.
  - split; [by rewrite map_size_insert_Some|].
    split; [rewrite Hr; apply uint64_succ|].
    exists (if synced rs then s + 1 else s),
           (if seg_request seg && bool_decide (is_Some (respBuffer rs)) then d + 1 else d).
    rewrite Hrs, Hds.
    destruct (synced rs), (seg_request seg && bool_decide (is_Some (respBuffer rs)));
      rewrite ?uint64_succ; repeat split; lia.
  - split.
    { rewrite map_size_insert_None by done. rewrite Hst, uint64_succ. f_equal. lia. }
    split; [rewrite Hr; apply uint64_succ|].
    exists (if synced rs then s + 1 else s),
           (if seg_request seg && bool_decide (is_Some (respBuffer rs)) then d + 1 else d).
    rewrite Hrs, Hds.
    destruct (synced rs), (seg_request seg && bool_decide (is_Some (respBuffer rs)));
      rewrite ?uint64_succ; repeat split; lia.
Qed.

Lemma run_countersInv cfg segs : forall g,
  run cfg segs initial = Some g -> countersInv g (Z.of_nat (length (withPayload segs))).
Proof.
  induction segs as [|seg segs IH] using rev_ind; intros g.
  - intros [= <-]. unfold countersInv. simpl. split; [done|]. split; [done|].
    exists 0, 0. repeat split; done.
  - intros (g1 & Hrun & Hh)%run_snoc. specialize (IH g1 Hrun).
    rewrite withPayload_snoc. destruct (decide (seg_payload seg = [])) as [He|He].
    + rewrite handlePacket_empty in Hh by done. injection Hh as <-. by rewrite app_nil_r.
    + rewrite length_app. simpl length. rewrite Nat2Z.inj_add.
      by eapply handlePacket_countersInv.
Qed.

(** X19.  After any run from the initial state, [stats.streams] is the
    number of flows in [chmap] and [stats.packets.rcvd] the number of
    segments with payload, both modulo 2^64; for fewer than 2^64 segments the
    counts are exact, and neither the synchronised packets nor the desyncs
    exceed the packets received. *)
Theorem run_counters (cfg : config) (segs : list segment) (g : globals) :
  run cfg segs initial = Some g ->
  streams g = uint64 (Z.of_nat (size (chmap g))) /\
  rcvd g = uint64 (Z.of_nat (length (withPayload segs))) /\
  (Z.of_nat (length segs) < 2 ^ 64 ->
   rcvd g = Z.of_nat (length (withPayload segs)) /\
   0 <= rcvd_sync g <= rcvd g /\ 0 <= desyncs g <= rcvd g).
Proof.
  intros (Hst & Hr & s & d & Hs & Hd & Hrs & Hds)%run_countersInv.
  split; [done|]. split; [done|]. intros Hlen.
  assert (length (withPayload segs) <= length segs)%nat as Hle
    by (unfold withPayload; apply length_filter).
  rewrite Hr, Hrs, Hds. rewrite !uint64_small by lia. lia.
Qed.

Lemma run_counters_witness :
  exists g,
    run cfg0 [q1; r1; ping] initial = Some g /\
    streams g = uint64 (Z.of_nat (size (chmap g))) /\
    rcvd g = uint64 3.
Proof.
  destruct (run cfg0 [q1; r1; ping] initial) as [g|] eqn:Hrun; [|vm_compute in Hrun; discriminate].
  exists g. split; [reflexivity|].
  destruct (run_counters cfg0 [q1; r1; ping] g Hrun) as (H1 & H2 & _).
  split; [exact H1|exact H2].
Defined.


(** ** The aggregation table *)

Lemma countSum_comm (j1 j2 : list ascii) (z1 z2 : queryData) (y : Z) :
  qd_count z1 + (qd_count z2 + y) = qd_count z2 + (qd_count z1 + y).
Proof. lia. Qed.

Lemma countSum_insert_fresh m k v :
  m !! k = None -> countSum (<[k := v]> m) = qd_count v + countSum m.
Proof.
  intros Hk. unfold countSum. rewrite map_fold_insert_L; [done| |done].
  intros. apply countSum_comm; done.
Qed.

Lemma countSum_lookup m k v :
  m !! k = Some v -> countSum m = qd_count v + countSum (delete k m).
Proof.
  intros Hk. unfold countSum. rewrite (map_fold_delete_L _ _ k v m); [done| |done].
  intros. apply countSum_comm; done.
Qed.

Lemma countSum_insert m k v :
  countSum (<[k := v]> m) = qd_count v + countSum (delete k m).
Proof.
  rewrite <- insert_delete_eq. apply countSum_insert_fresh. apply lookup_delete_eq.
Qed.

Lemma countSum_alter (f : queryData -> queryData) m k :
  (forall qd, qd_count (f qd) = qd_count qd) -> countSum (alter f k m) = countSum m.
Proof.
  intros Hf. destruct (m !! k) as [v|] eqn:Hk.
  - assert (alter f k m = <[k := f v]> m) as ->.
    { apply map_eq. intros j. rewrite lookup_alter, lookup_insert.
      case_decide; [subst; by rewrite Hk|done]. }
    rewrite countSum_insert, (countSum_lookup m k v Hk). by rewrite Hf.
  - by rewrite alter_id'.
Qed.

(** What one processed segment does to the table and to [queryCount]:
    either a field other than [count] of one entry changes, or a command is
    recorded. *)
Lemma processPacket_qbuf cfg now randn g rs request data g' rs' :
  processPacket cfg now randn g rs request data = Some (g', rs') ->
  (queryCount g' = queryCount g /\
   exists (f : queryData -> queryData) key,
     (forall qd, qd_count (f qd) = qd_count qd) /\ qbuf g' = alter f key (qbuf g)) \/
  (exists text b t,
     queryCount g' = int (queryCount g + 1) /\
     qbuf g' = <[text := QueryData (uint64 (qd_count (default newQueryData (qbuf g !! text)) + 1))
                           b t]> (qbuf g)).
Proof.
  unfold processPacket.
  set (g1 := if synced rs then _ else _).
  assert (Hg1 : qbuf g1 = qbuf g /\ queryCount g1 = queryCount g)
    by (subst g1; destruct (synced rs); done).
  destruct Hg1 as [Hb Hq]. clearbody g1. destruct request.
  - intros H. apply processRequest_cases in H as [_ H]. cbv zeta in H.
    destruct H as [[-> _]|(text & plen & -> & _)].
    + left. rewrite <- Hb, <- Hq. split; [by destruct (respBuffer rs)|].
      exists id, []. split; [done|].
      rewrite alter_id by done. by destruct (respBuffer rs).
    + right. eexists text, _, _. rewrite <- Hb, <- Hq.
      split; by destruct (respBuffer rs).
  - intros [= Heq].
    assert (g' = (processResponse now randn g1 rs data).1) as -> by (by rewrite Heq).
    clear Heq. left. rewrite <- Hb, <- Hq. unfold processResponse.
    destruct rs as [hp ip sy rb pb rsent rt qb qd qt]; simpl.
    destruct pb, rsent, qd; simpl; (split; [done|]);
      try (eexists _, _; split; [|reflexivity]; done);
      exists id, []; (split; [done|]); by rewrite alter_id.
Qed.

Lemma handlePacket_qbufInv cfg g seg g' n :
  handlePacket cfg g seg = Some g' -> n + 1 < 2 ^ 63 ->
  qbufInv g n -> qbufInv g' (n + 1).
Proof.
  intros H Hn (Hsum & Hq & Hall).
  assert (Hweak : qbufInv g (n + 1)).
  { split; [done|]. split; [lia|]. intros key qd Hk. specialize (Hall key qd Hk). lia. }
  destruct (decide (seg_payload seg = [])) as [He|He].
  { rewrite handlePacket_empty in H by done. by injection H as <-. }
  destruct (handlePacket_step _ _ _ _ H He) as (g1 & rs & g2 & rs' & Hflow & Hpp & ->).
  assert (qbuf g1 = qbuf g /\ queryCount g1 = queryCount g) as [Hb1 Hq1].
  { destruct Hflow as [[_ ->]|(_ & _ & ->)]; done. }
  apply processPacket_qbuf in Hpp. unfold qbufInv. simpl. rewrite Hb1, Hq1 in Hpp.
  destruct Hpp as [(Hq2 & f & key & Hf & Hb2)|(text & b & t & Hq2 & Hb2)].
  - rewrite Hq2, Hb2. split; [by rewrite countSum_alter|]. split; [lia|].
    intros k qd. rewrite lookup_alter. case_decide.
    + subst k. destruct (qbuf g !! key) as [v|] eqn:Hk; [|done]. simpl.
      intros [= <-]. rewrite Hf. specialize (Hall key v Hk). lia.
    + intros Hk. specialize (Hall k qd Hk). lia.
  - rewrite Hq2, Hb2. rewrite int_small by lia.
    destruct (qbuf g !! text) as [v|] eqn:Hk; simpl.
    + specialize (Hall text v Hk). rewrite uint64_small by lia.
      split.
      { rewrite countSum_insert. simpl. rewrite Hsum, (countSum_lookup _ _ _ Hk). lia. }
      split; [lia|]. intros k qd. rewrite lookup_insert. case_decide.
      * intros [= <-]. simpl. lia.
      * destruct Hweak as (_ & _ & Hw). by apply Hw.
    + rewrite uint64_small by (simpl; lia).
      split.
      { rewrite countSum_insert_fresh by done. simpl. lia. }
      split; [lia|]. intros k qd. rewrite lookup_insert. case_decide.
      * intros [= <-]. simpl. lia.
      * destruct Hweak as (_ & _ & Hw). by apply Hw.
Qed.

Lemma run_qbufInv cfg segs : forall g,
  run cfg segs initial = Some g -> Z.of_nat (length segs) < 2 ^ 63 ->
  qbufInv g (Z.of_nat (length segs)).
Proof.
  induction segs as [|seg segs IH] using rev_ind; intros g.
  - intros [= <-] _. unfold qbufInv. simpl. split; [done|]. split; [done|].
    intros key qd. by rewrite lookup_empty.
  - intros (g1 & Hrun & Hh)%run_snoc. rewrite length_app. simpl length.
    rewrite Nat2Z.inj_add. intros Hlen.
    eapply handlePacket_qbufInv; [exact Hh|lia|]. apply IH; [done|lia].
Qed.

(** X20.  After any run of fewer than 2^63 segments from the initial
    state, [queryCount] is the sum of the [count] fields of [qbuf], and every
    entry of [qbuf] has a count of at least 1 (so the bytes-per-query average
    of the status display never divides by zero). *)
Theorem run_queryCount (cfg : config) (segs : list segment) (g : globals) :
  run cfg segs initial = Some g ->
  Z.of_nat (length segs) < 2 ^ 63 ->
  queryCount g = countSum (qbuf g) /\
  forall key qd, qbuf g !! key = Some qd -> 1 <= qd_count qd.
Proof.
  intros Hrun Hlen. destruct (run_qbufInv _ _ _ Hrun Hlen) as (Hsum & _ & Hall).
  split; [done|]. intros key qd Hk. specialize (Hall key qd Hk). lia.
Qed.

Lemma run_queryCount_witness :
  exists g,
    run cfg0 [q1; r1; ping] initial = Some g /\
    queryCount g = countSum (qbuf g) /\
    forall key qd, qbuf g !! key = Some qd -> 1 <= qd_count qd.
Proof.
  destruct (run cfg0 [q1; r1; ping] initial) as [g|] eqn:Hrun; [|vm_compute in Hrun; discriminate].
  exists g. split; [reflexivity|].
  apply (run_queryCount cfg0 [q1; r1; ping] g Hrun). vm_compute. reflexivity.
Defined.

(** ** Desynchronisation *)

Lemma processResponse_buffers now randn g rs data :
  let rs' := (processResponse now randn g rs data).2 in
  reqSent rs' = None /\
  (is_Some (reqSent rs) -> respBuffer rs' = None) /\
  (reqSent rs = None -> is_Some data -> is_Some (respBuffer rs')).
Proof.
  unfold processResponse.
  destruct rs as [hp ip sy rb pb rsent rt qb qd qt]; simpl.
  destruct pb, rsent, qd; simpl; repeat split; try done; try (by intros [? ?]); eauto.
Qed.

(** The state of the flow of a processed segment, before and after. *)
Lemma handlePacket_flow cfg g seg g' :
  handlePacket cfg g seg = Some g' ->
  seg_payload seg <> [] ->
  exists rs rs',
    (chmap g !! seg_src seg = Some rs \/
     chmap g !! seg_src seg = None /\ reqSent rs = None /\ respBuffer rs = None) /\
    chmap g' !! seg_src seg = Some rs' /\
    (seg_request seg = false ->
     desyncs g' = desyncs g /\ reqSent rs' = None /\
     (is_Some (reqSent rs) -> respBuffer rs' = None) /\
     (reqSent rs = None -> is_Some (respBuffer rs'))) /\
    (seg_request seg = true ->
     respBuffer rs' = None /\
     desyncs g' = (if bool_decide (is_Some (respBuffer rs))
                   then uint64 (desyncs g + 1) else desyncs g)).
Proof.
  intros H Hne.
  destruct (handlePacket_step _ _ _ _ H Hne) as (g1 & rs & g2 & rs' & Hflow & Hpp & ->).
  exists rs, rs'. simpl. rewrite lookup_insert_eq.
  assert (desyncs g1 = desyncs g) as Hd1 by (destruct Hflow as [[_ ->]|(_ & _ & ->)]; done).
  split.
  { destruct Hflow as [[Hl _]|(Hl & [ip ->] & _)]; [by left|by right]. }
  split; [done|].
  pose proof (processPacket_counters _ _ _ _ _ _ _ _ _ Hpp) as (_ & _ & _ & _ & Hd).
  rewrite Hd1 in Hd. unfold processPacket in Hpp.
  set (g1' := if synced rs then _ else _) in Hpp. clearbody g1'.
  split.
  - intros Hr. rewrite Hr in Hpp, Hd. simpl in Hd. split; [done|].
    injection Hpp as Heq.
    destruct (processResponse_buffers (seg_now seg) (seg_randn seg) g1' rs
                (Some (seg_payload seg))) as (H1 & H2 & H3).
    rewrite Heq in H1, H2, H3. simpl in H1, H2, H3.
    split; [done|]. split; [done|]. intros Hn. apply H3; eauto.
  - intros Hr. rewrite Hr in Hpp, Hd. rewrite andb_true_l in Hd. split; [|done].
    by apply processRequest_cases in Hpp as [? _].
Qed.

(** X21.  Two response segments in a row on a flow make the next request
    segment of that flow count one desync, in whatever state the run
    starts: the second response finds no request outstanding and is kept in
    the response buffer, which the request then finds non-nil. *)
Theorem run_desync_after_split_response (cfg : config) (g g' : globals)
    (resp1 resp2 req : segment) :
  isResponseOf (seg_src req) resp1 ->
  isResponseOf (seg_src req) resp2 ->
  seg_request req = true -> seg_payload req <> [] ->
  run cfg [resp1; resp2; req] g = Some g' ->
  desyncs g' = uint64 (desyncs g + 1).
Proof.
  intros (Hs1 & Hr1 & Hp1) (Hs2 & Hr2 & Hp2) Hr3 Hp3. simpl.
  destruct (handlePacket cfg g resp1) as [g1|] eqn:H1; [|done]. simpl.
  destruct (handlePacket cfg g1 resp2) as [g2|] eqn:H2; [|done]. simpl.
  destruct (handlePacket cfg g2 req) as [g3|] eqn:H3; [|done]. simpl. intros [= <-].
  destruct (handlePacket_flow _ _ _ _ H1 Hp1) as (rs0 & rs1 & _ & Hl1 & Hresp1 & _).
  destruct (Hresp1 Hr1) as (Hd1 & Hsent1 & _).
  destruct (handlePacket_flow _ _ _ _ H2 Hp2) as (rs1' & rs2 & Hl1' & Hl2 & Hresp2 & _).
  rewrite Hs2, <- Hs1, Hl1 in Hl1'. destruct Hl1' as [[= <-]|[? _]]; [|done].
  destruct (Hresp2 Hr2) as (Hd2 & _ & _ & Hbuf2).
  destruct (handlePacket_flow _ _ _ _ H3 Hp3) as (rs2' & rs3 & Hl2' & _ & _ & Hreq3).
  rewrite Hs2 in Hl2. rewrite Hl2 in Hl2'. destruct Hl2' as [[= <-]|[? _]]; [|done].
  destruct (Hreq3 Hr3) as (_ & Hd3).
  rewrite bool_decide_eq_true_2 in Hd3 by (by apply Hbuf2).
  by rewrite Hd3, Hd2, Hd1.
Qed.

(** X22.  A recorded request answered by a single response segment leaves
    the flow clean: the next request of the flow counts no desync. *)
Theorem run_no_desync_after_answer (cfg : config) (g g1 g' : globals)
    (req1 resp req2 : segment) :
  recorded cfg g req1 ->
  handlePacket cfg g req1 = Some g1 ->
  seg_src req1 = seg_src req2 ->
  isResponseOf (seg_src req2) resp ->
  seg_request req2 = true ->
  run cfg [resp; req2] g1 = Some g' ->
  desyncs g' = desyncs g1.
Proof.
  intros (Hr1 & g1' & Hh1 & Hq) H1 Hs1 (Hs2 & Hr2 & Hp2) Hr3.
  rewrite H1 in Hh1. injection Hh1 as <-. simpl.
  destruct (handlePacket cfg g1 resp) as [g2|] eqn:H2; [|done]. simpl.
  destruct (handlePacket cfg g2 req2) as [g3|] eqn:H3; [|done]. simpl. intros [= <-].
  assert (seg_payload req1 <> []) as Hp1.
  { intros He. rewrite handlePacket_empty in H1 by done. by simplify_eq. }
  assert (sent g1 (seg_src req1)) as (rs1 & Hl1 & Hsent1).
  { apply (handlePacket_request _ _ _ _ H1 Hr1). by left. }
  destruct (handlePacket_flow _ _ _ _ H2 Hp2) as (rs1' & rs2 & Hl1' & Hl2 & Hresp2 & _).
  rewrite Hs2, <- Hs1, Hl1 in Hl1'. destruct Hl1' as [[= <-]|[? _]]; [|done].
  destruct (Hresp2 Hr2) as (Hd2 & _ & Hbuf2 & _). specialize (Hbuf2 Hsent1).
  destruct (decide (seg_payload req2 = [])) as [He|Hp3].
  { rewrite handlePacket_empty in H3 by done. by simplify_eq. }
  destruct (handlePacket_flow _ _ _ _ H3 Hp3) as (rs2' & rs3 & Hl2' & _ & _ & Hreq3).
  rewrite Hs2 in Hl2. rewrite Hl2 in Hl2'. destruct Hl2' as [[= <-]|[? _]]; [|done].
  destruct (Hreq3 Hr3) as (_ & Hd3).
  rewrite bool_decide_eq_false_2 in Hd3; [|rewrite Hbuf2; by intros [? ?]].
  by rewrite Hd3, Hd2.
Qed.

Lemma run_desync_after_split_response_witness :
  exists g', run cfg0 [r1; r1; q1] initial = Some g' /\ desyncs g' = uint64 (desyncs initial + 1).
Proof.
  destruct (run cfg0 [r1; r1; q1] initial) as [g'|] eqn:Hrun; [|vm_compute in Hrun; discriminate].
  exists g'. split; [reflexivity|].
  apply (run_desync_after_split_response cfg0 initial g' r1 r1 q1).
  - repeat split; discriminate.
  - repeat split; discriminate.
  - reflexivity.
  - discriminate.
  - exact Hrun.
Defined.

Lemma run_no_desync_after_answer_witness :
  exists g1 g', handlePacket cfg0 initial q1 = Some g1 /\
    run cfg0 [r1; ping] g1 = Some g' /\ desyncs g' = desyncs g1.
Proof.
  destruct (handlePacket cfg0 initial q1) as [g1|] eqn:H1; [|vm_compute in H1; discriminate].
  assert (queryCount <$> handlePacket cfg0 initial q1 = Some 1) as Hq by (vm_compute; reflexivity).
  destruct (run cfg0 [r1; ping] g1) as [g'|] eqn:Hrun.
  2:{ assert (is_Some (handlePacket cfg0 initial q1 ≫= run cfg0 [r1; ping])) as [x Hx]
        by (vm_compute; eauto).
      rewrite H1 in Hx. change (run cfg0 [r1; ping] g1 = Some x) in Hx. congruence. }
  exists g1, g'. split; [reflexivity|]. split; [exact Hrun|].
  apply (run_no_desync_after_answer cfg0 initial g1 g' q1 r1 ping).
  - split; [reflexivity|]. exists g1. split; [exact H1|].
    rewrite H1 in Hq. simpl in Hq. injection Hq as ->. discriminate.
  - exact H1.
  - reflexivity.
  - repeat split; discriminate.
  - reflexivity.
  - exact Hrun.
Defined.

(** ** Latency samples *)

Lemma processResponse_times now randn g rs data :
  times (processResponse now randn g rs data).1 =
  match reqSent rs with
  | Some t0 => <[randn := uint64 (Duration (now - t0))]> (times g)
  | None => times g
  end.
Proof.
  unfold processResponse.
  destruct rs as [hp ip sy rb pb rsent rt qb qd qt]; simpl.
  destruct pb, rsent, qd; simpl; done.
Qed.

Lemma handlePacket_times cfg g seg g' :
  handlePacket cfg g seg = Some g' ->
  seg_payload seg <> [] ->
  exists rs,
    (chmap g !! seg_src seg = Some rs \/
     chmap g !! seg_src seg = None /\ reqSent rs = None) /\
    times g' =
    (if seg_request seg then times g
     else match reqSent rs with
          | Some t0 => <[seg_randn seg := uint64 (Duration (seg_now seg - t0))]> (times g)
          | None => times g
          end).
Proof.
  intros H Hne.
  destruct (handlePacket_step _ _ _ _ H Hne) as (g1 & rs & g2 & rs' & Hflow & Hpp & ->).
  exists rs. simpl.
  assert (times g1 = times g) as Ht1 by (destruct Hflow as [[_ ->]|(_ & _ & ->)]; done).
  split.
  { destruct Hflow as [[Hl _]|(Hl & [ip ->] & _)]; [by left|by right]. }
  unfold processPacket in Hpp.
  set (g1' := if synced rs then _ else _) in Hpp.
  assert (times g1' = times g1) as Ht1' by (subst g1'; destruct (synced rs); done).
  clearbody g1'. destruct (seg_request seg).
  - apply processRequest_counters in Hpp as (_ & _ & _ & _ & Ht & _). congruence.
  - injection Hpp as Heq.
    pose proof (processResponse_times (seg_now seg) (seg_randn seg) g1' rs
                  (Some (seg_payload seg))) as Ht.
    rewrite Heq in Ht. simpl in Ht. rewrite Ht, Ht1', Ht1. done.
Qed.

Lemma run_times_length cfg segs : forall g,
  run cfg segs initial = Some g -> length (times g) = TIME_BUCKETS.
Proof.
  induction segs as [|seg segs IH] using rev_ind; intros g.
  - intros [= <-]. change (times initial) with (replicate TIME_BUCKETS 0).
    apply length_replicate.
  - intros (g1 & Hrun & Hh)%run_snoc. specialize (IH g1 Hrun).
    destruct (decide (seg_payload seg = [])) as [He|He].
    { rewrite handlePacket_empty in Hh by done. by injection Hh as <-. }
    destruct (handlePacket_times _ _ _ _ Hh He) as (rs & _ & ->).
    destruct (seg_request seg); [done|].
    destruct (reqSent rs); [by rewrite length_insert|done].
Qed.

Lemma handlePacket_stamp cfg g seg g' :
  handlePacket cfg g seg = Some g' ->
  queryCount g' <> queryCount g ->
  exists rs', chmap g' !! seg_src seg = Some rs' /\ reqSent rs' = Some (seg_now seg).
Proof.
  intros H Hq.
  destruct (decide (seg_payload seg = [])) as [He|He].
  { rewrite handlePacket_empty in H by done. by simplify_eq. }
  destruct (handlePacket_step _ _ _ _ H He) as (g1 & rs & g2 & rs' & Hflow & Hpp & ->).
  exists rs'. simpl in *. rewrite lookup_insert_eq. split; [done|].
  assert (queryCount g1 = queryCount g) as Hq1 by (destruct Hflow as [[_ ->]|(_ & _ & ->)]; done).
  unfold processPacket in Hpp.
  set (g1' := if synced rs then _ else _) in Hpp.
  assert (queryCount g1' = queryCount g1) as Hq1' by (subst g1'; destruct (synced rs); done).
  clearbody g1'. destruct (seg_request seg).
  - apply processRequest_cases in Hpp as [_ Hpp]. cbv zeta in Hpp.
    destruct Hpp as [[-> _]|(text & plen & _ & Hs & _)]; [|done].
    exfalso. apply Hq. rewrite <- Hq1, <- Hq1'. by destruct (respBuffer rs).
  - injection Hpp as Heq.
    destruct (processResponse_counters (seg_now seg) (seg_randn seg) g1' rs
                (Some (seg_payload seg))) as (_ & _ & _ & _ & _ & Hq2).
    rewrite Heq in Hq2. simpl in Hq2. congruence.
Qed.

(** X23.  When a recorded request is followed by a response segment of its
    flow, the slot [rand.Intn(TIME_BUCKETS)] of the global reservoir holds
    the time between the two segments, [uint64] of the saturated difference
    of their timestamps. *)
Theorem run_latency_sample (cfg : config) (segs : list segment) (g1 g' : globals)
    (req resp : segment) :
  run cfg segs initial = Some g1 ->
  recorded cfg g1 req ->
  isResponseOf (seg_src req) resp ->
  (seg_randn resp < TIME_BUCKETS)%nat ->
  run cfg [req; resp] g1 = Some g' ->
  times g' !! seg_randn resp = Some (uint64 (Duration (seg_now resp - seg_now req))).
Proof.
  intros Hrun (Hr1 & g2 & Hh1 & Hq) (Hs & Hr2 & Hp2) Hrand. simpl. rewrite Hh1. simpl.
  destruct (handlePacket cfg g2 resp) as [g3|] eqn:Hh2; [|done]. simpl. intros [= <-].
  destruct (handlePacket_stamp _ _ _ _ Hh1 Hq) as (rs2 & Hl2 & Hsent).
  destruct (handlePacket_times _ _ _ _ Hh2 Hp2) as (rs2' & Hl2' & ->).
  rewrite Hs, Hl2 in Hl2'. destruct Hl2' as [[= <-]|[? _]]; [|done].
  rewrite Hr2, Hsent. apply list_lookup_insert_eq.
  assert (run cfg (segs ++ [req]) initial = Some g2) as Hrun2
    by (apply run_snoc; eauto).
  by rewrite (run_times_length _ _ _ Hrun2).
Qed.

Lemma run_latency_sample_witness :
  exists g', run cfg0 [q1; r1] initial = Some g' /\
    times g' !! 7%nat = Some (uint64 (Duration (250 - 100))).
Proof.
  destruct (handlePacket cfg0 initial q1) as [g1|] eqn:H1; [|vm_compute in H1; discriminate].
  assert (queryCount <$> handlePacket cfg0 initial q1 = Some 1) as Hq by (vm_compute; reflexivity).
  destruct (run cfg0 [q1; r1] initial) as [g'|] eqn:Hrun; [|vm_compute in Hrun; discriminate].
  exists g'. split; [reflexivity|].
  apply (run_latency_sample cfg0 [] initial g' q1 r1).
  - reflexivity.
  - split; [reflexivity|]. exists g1. split; [exact H1|].
    rewrite H1 in Hq. simpl in Hq. injection Hq as ->. discriminate.
  - repeat split; discriminate.
  - vm_compute. lia.
  - exact Hrun.
Defined.

(** ** Synchronisation *)

Lemma processRequest_unsynced cfg now g rs data g' rs' :
  processRequest cfg now g rs data = Some (g', rs') ->
  queryCount g' <> queryCount g ->
  synced rs = false \/ is_Some (respBuffer rs) ->
  exists buf c p, carvePacket data = (buf, inr (c, p)) /\ code c = COM_QUERY.
Proof.
  unfold processRequest. intros H Hq Hun.
  destruct rs as [hp ip sy rb pb rsent rt qb qd qt]; simpl in H, Hun.
  destruct (carvePacket data) as [buf [e|[pType pData]]] eqn:Hcarve.
  - destruct pb; simplify_eq/=; done.
  - exists buf, pType, pData. split; [done|].
    destruct (code pType =? COM_QUERY) eqn:Hc; [by apply Z.eqb_eq|]. exfalso.
    destruct pb as [b|]; simpl in H.
    + by simplify_eq/=.
    + destruct Hun as [->|[? ?]]; [|done]. simpl in H. by simplify_eq/=.
Qed.

(** X24.  On a flow that is new, unsynchronised, or holds unanswered
    response bytes, the only command a request segment can record is a
    [COM_QUERY]. *)
Theorem recorded_unsynced (cfg : config) (g : globals) (seg : segment) :
  recorded cfg g seg ->
  (forall rs, chmap g !! seg_src seg = Some rs ->
     synced rs = false \/ is_Some (respBuffer rs)) ->
  recordedComQuery cfg g seg.
Proof.
  intros Hrec Hun. split; [exact Hrec|]. destruct Hrec as (Hr & g' & H & Hq).
  destruct (decide (seg_payload seg = [])) as [He|He].
  { rewrite handlePacket_empty in H by done. by simplify_eq. }
  destruct (handlePacket_step _ _ _ _ H He) as (g1 & rs & g2 & rs' & Hflow & Hpp & ->).
  simpl in Hq.
  assert (queryCount g1 = queryCount g) as Hq1 by (destruct Hflow as [[_ ->]|(_ & _ & ->)]; done).
  assert (synced rs = false \/ is_Some (respBuffer rs)) as Hrs.
  { destruct Hflow as [[Hl _]|(_ & [ip ->] & _)]; [by apply Hun|by left]. }
  unfold processPacket in Hpp. rewrite Hr in Hpp.
  set (g1' := if synced rs then _ else _) in Hpp.
  assert (queryCount g1' = queryCount g1) as Hq1' by (subst g1'; destruct (synced rs); done).
  clearbody g1'.
  destruct (processRequest_unsynced _ _ _ _ _ _ _ Hpp) as (buf & c & p & Hcarve & Hc);
    [congruence|done|].
  exists c. unfold framedCommand. by rewrite Hcarve.
Qed.

Lemma recorded_unsynced_witness : recordedComQuery cfg0 initial q1.
Proof.
  apply (recorded_unsynced cfg0 initial q1).
  - split; [reflexivity|].
    destruct (handlePacket cfg0 initial q1) as [g1|] eqn:H1; [|vm_compute in H1; discriminate].
    assert (queryCount <$> handlePacket cfg0 initial q1 = Some 1) as Hq by (vm_compute; reflexivity).
    exists g1. split; [reflexivity|].
    rewrite H1 in Hq. simpl in Hq. injection Hq as ->. discriminate.
  - intros rs Hl. change (chmap initial) with (∅ : gmap (list ascii) source) in Hl.
    by rewrite lookup_empty in Hl.
Defined.

(** ** The latency aggregates, continued *)

Lemma timeStats_blank timings :
  Forall (fun v => v = 0) timings -> forall acc, fold_left timeStep timings acc = acc.
Proof.
  induction 1 as [|v timings -> _ IH]; intros acc; simpl; [done|].
  rewrite IH. done.
Qed.

(** X25.  A reservoir without sample (every slot zero) gives 0 for the
    minimum, the average and the maximum: no division takes place. *)
Theorem calculateTimes_blank (timings : list Z) :
  Forall (fun v => v = 0) timings ->
  timeStats timings = (0, 0, 0) /\
  calculateTimes timings = (S754_zero false, S754_zero false, S754_zero false).
Proof.
  intros H. unfold calculateTimes, timeStats. rewrite (timeStats_blank _ H). simpl.
  split; [done|]. vm_compute. done.
Qed.

Lemma calculateTimes_blank_witness :
  calculateTimes (replicate 3 0) = (S754_zero false, S754_zero false, S754_zero false).
Proof.
  apply (calculateTimes_blank (replicate 3 0)). repeat constructor.
Defined.

Lemma timeStep_extremes acc seen val :
  0 <= val -> extremes acc seen -> extremes (timeStep acc val) (seen ++ [val]).
Proof.
  intros Hval [Hno Hyes]. unfold timeStep.
  destruct (Z.eqb_spec val 0) as [->|Hne].
  { split.
    - intros Hf. destruct (Hno Hf) as [Hm Hall]. split; [done|].
      apply Forall_app. split; [done|]. by constructor.
    - intros Ht. destruct (Hyes Ht) as (Hmin & Hmax & Hpos & Hall).
      split; [apply elem_of_app; by left|]. split; [apply elem_of_app; by left|].
      split; [done|]. apply Forall_app. split; [done|]. by constructor. }
  destruct (t_has_min acc) eqn:Hh.
  - destruct (Hyes eq_refl) as (Hmin & Hmax & Hpos & Hall). clear Hno Hyes.
    rewrite orb_false_r. split; [by destruct (val <? t_min acc)|]. intros _.
    assert (Hin : forall x, x = val \/ x ∈ seen -> x ∈ seen ++ [val]).
    { intros x [->|Hx]; apply elem_of_app; [right; by constructor|by left]. }
    destruct (Z.ltb_spec val (t_min acc)) as [Hlt|Hge];
      destruct (Z.gtb_spec val (t_max acc)) as [Hgt|Hle]; simpl;
      (split; [apply Hin; auto|]); (split; [apply Hin; auto|]); (split; [lia|]);
      (apply Forall_app; split; [|constructor; [lia|constructor]]);
      (eapply Forall_impl; [exact Hall|]); simpl; intros; lia.
  - destruct (Hno eq_refl) as [Hm Hall]. clear Hno Hyes.
    rewrite orb_true_r. simpl. split; [done|]. intros _. rewrite Hm.
    destruct (Z.gtb_spec val 0) as [_|Hle]; [|lia]. simpl.
    assert (val ∈ seen ++ [val]) as Hin by (apply elem_of_app; right; by constructor).
    split; [done|]. split; [done|]. split; [lia|].
    apply Forall_app. split; [|constructor; [lia|constructor]].
    eapply Forall_impl; [exact Hall|]. simpl. intros; lia.
Qed.

Lemma timeLoop_extremes timings : forall acc seen,
  Forall (fun v => 0 <= v) timings ->
  extremes acc seen -> extremes (fold_left timeStep timings acc) (seen ++ timings).
Proof.
  induction timings as [|v timings IH]; intros acc seen Hall Hex; simpl.
  - by rewrite app_nil_r.
  - apply Forall_cons in Hall as [Hv Hall].
    rewrite (cons_middle v seen timings), app_assoc.
    apply IH; [done|]. by apply timeStep_extremes.
Qed.

(** X26.  On a reservoir with a sample, the minimum and the maximum are
    samples of the reservoir, the minimum is positive, and every nonzero
    slot lies between them; no bound on the sum is needed. *)
Theorem timeStats_extremes (timings : list Z) (mn avg mx : Z) :
  Forall (fun v => 0 <= v) timings ->
  Exists (fun v => v <> 0) timings ->
  timeStats timings = (mn, avg, mx) ->
  mn ∈ timings /\ mx ∈ timings /\ 0 < mn /\
  Forall (fun v => v <> 0 -> mn <= v <= mx) timings.
Proof.
  intros Hall Hex. unfold timeStats. intros [= <- _ <-].
  assert (extremes (TimeAcc 0 0 0 0 false) []) as H0.
  { split; [by intros _|]. discriminate. }
  pose proof (timeLoop_extremes timings _ _ Hall H0) as [Hno Hyes]. simpl in Hno, Hyes.
  destruct (t_has_min (fold_left timeStep timings (TimeAcc 0 0 0 0 false))) eqn:Hh.
  - by apply Hyes.
  - destruct (Hno eq_refl) as [_ Hz]. exfalso.
    apply Exists_exists in Hex as (v & Hv & Hne).
    rewrite Forall_forall in Hz. by apply Hne, Hz.
Qed.

Lemma timeStats_extremes_witness :
  (1000000 : Z) ∈ [1000000; 0; 5000000; 10000000] /\
  (10000000 : Z) ∈ [1000000; 0; 5000000; 10000000] /\ 0 < 1000000 /\
  Forall (fun v => v <> 0 -> 1000000 <= v <= 10000000) [1000000; 0; 5000000; 10000000].
Proof.
  apply (timeStats_extremes [1000000; 0; 5000000; 10000000] 1000000 5333333 10000000).
  - repeat constructor; lia.
  - constructor. lia.
  - vm_compute. reflexivity.
Defined.

Lemma timeStep_zero acc : timeStep acc 0 = acc.
Proof. done. Qed.

Lemma timeStep_nonzero acc val :
  val <> 0 ->
  timeStep acc val =
  TimeAcc (uint64 (t_counts acc + 1)) (uint64 (t_total acc + val))
          (if (val <? t_min acc) || negb (t_has_min acc) then val else t_min acc)
          (if val >? t_max acc then val else t_max acc)
          true.
Proof.
  intros Hne. unfold timeStep. destruct (Z.eqb_spec val 0); [done|].
  destruct ((val <? t_min acc) || negb (t_has_min acc)) eqn:Hc; [done|].
  apply orb_false_iff in Hc as [_ Hh]. apply negb_false_iff in Hh. by rewrite Hh.
Qed.

Lemma timeStep_comm acc a b :
  timeStep (timeStep acc a) b = timeStep (timeStep acc b) a.
Proof.
  destruct (Z.eq_dec a 0) as [->|Ha]; [by rewrite !timeStep_zero|].
  destruct (Z.eq_dec b 0) as [->|Hb]; [by rewrite !timeStep_zero|].
  rewrite !timeStep_nonzero by done. destruct acc as [c t m x h]. simpl.
  rewrite !orb_false_r.
  assert (Hu : forall x y z, uint64 (uint64 (x + y) + z) = uint64 (uint64 (x + z) + y)).
  { intros. unfold uint64. rewrite !Z.add_mod_idemp_l by lia. f_equal. lia. }
  f_equal; try apply Hu.
  - destruct h; simpl; rewrite ?orb_false_r, ?orb_true_r;
      destruct (Z.ltb_spec a m), (Z.ltb_spec b m); simpl;
      repeat match goal with
        | |- context [Z.ltb ?x ?y] => destruct (Z.ltb_spec x y)
        end; lia.
  - destruct (Z.gtb_spec a x), (Z.gtb_spec b x); simpl;
      repeat match goal with
        | |- context [Z.gtb ?x ?y] => destruct (Z.gtb_spec x y)
        end; lia.
Qed.

Lemma timeLoop_perm timings1 timings2 :
  Permutation timings1 timings2 ->
  forall acc, fold_left timeStep timings1 acc = fold_left timeStep timings2 acc.
Proof.
  induction 1 as [|v l1 l2 _ IH|v w l|l1 l2 l3 _ IH1 _ IH2]; intros acc; simpl.
  - done.
  - apply IH.
  - by rewrite timeStep_comm.
  - by rewrite IH1.
Qed.

(** X27.  The three results of [calculateTimes] do not depend on the order
    of the slots. *)
Theorem calculateTimes_order (timings1 timings2 : list Z) :
  Permutation timings1 timings2 ->
  calculateTimes timings1 = calculateTimes timings2.
Proof.
  intros H. unfold calculateTimes, timeStats. by rewrite (timeLoop_perm _ _ H).
Qed.

Lemma calculateTimes_order_witness :
  calculateTimes [3000000; 0; 1000000] = calculateTimes [0; 1000000; 3000000].
Proof.
  apply (calculateTimes_order [3000000; 0; 1000000] [0; 1000000; 3000000]).
  apply (Permutation_cons_app [0; 1000000] [] 3000000). apply Permutation_refl.
Defined.

(** ** The sort interface *)

Lemma index_Some {A} (s : list A) i a :
  index s i = Some a <-> 0 <= i /\ s !! Z.to_nat i = Some a.
Proof.
  unfold index. destruct (Z.ltb_spec i 0); [|tauto]. split; [done|]. intros [? _]. lia.
Qed.

Lemma SFcompare_finite s1 m1 e1 s2 m2 e2 :
  SFcompare (S754_finite s1 m1 e1) (S754_finite s2 m2 e2) =
  Some match s1, s2 with
       | true, false => Lt
       | false, true => Gt
       | false, false =>
           match Z.compare e1 e2 with Lt => Lt | Gt => Gt | Eq => Pos.compare m1 m2 end
       | true, true =>
           match Z.compare e1 e2 with Lt => Gt | Gt => Lt | Eq => CompOpp (Pos.compare m1 m2) end
       end.
Proof. done. Qed.

Ltac float_order :=
  repeat match goal with
    | s : bool |- _ => destruct s
    end;
  simpl; try done;
  repeat match goal with
    | |- context [Z.compare ?a ?b] => destruct (Z.compare_spec a b)
    | |- context [Pos.compare ?a ?b] => destruct (Pos.compare_spec a b)
    end;
  simpl; try done; try lia.

Lemma SFltb_irrefl x : SFltb x x = false.
Proof.
  unfold SFltb. destruct x as [s|s| |s m e]; try rewrite SFcompare_finite; float_order.
Qed.

Lemma SFltb_asym x y : SFltb x y = true -> SFltb y x = false.
Proof.
  unfold SFltb.
  destruct x as [s1|s1| |s1 m1 e1], y as [s2|s2| |s2 m2 e2];
    try rewrite !SFcompare_finite; float_order.
Qed.

Lemma SFltb_trans x y z : SFltb x y = true -> SFltb y z = true -> SFltb x z = true.
Proof.
  unfold SFltb.
  destruct x as [s1|s1| |s1 m1 e1], y as [s2|s2| |s2 m2 e2], z as [s3|s3| |s3 m3 e3];
    try rewrite !SFcompare_finite; float_order.
Qed.

(** X28.  [Less] is a strict order on the entries of a slice: no entry is
    below itself, two entries are never below each other, and the relation
    is transitive; this holds with infinities and NaN among the values. *)
Theorem Less_strict_order (s : sortableSlice) (i j k : Z) :
  (is_Some (index s i) -> Less s i i = Some false) /\
  (Less s i j = Some true -> Less s j i = Some false) /\
  (Less s i j = Some true -> Less s j k = Some true -> Less s i k = Some true).
Proof.
  unfold Less. split; [|split].
  - intros [a ->]. simpl. by rewrite SFltb_irrefl.
  - destruct (index s i) as [a|]; [|done]. destruct (index s j) as [b|]; [|done].
    simpl. intros [= H]. by rewrite (SFltb_asym _ _ H).
  - destruct (index s i) as [a|]; [|done]. destruct (index s j) as [b|]; [|done].
    destruct (index s k) as [c|]; [|done]. simpl. intros [= H1] [= H2].
    by rewrite (SFltb_trans _ _ _ H1 H2).
Qed.

Lemma Less_strict_order_witness :
  Less [Sortable (float64_of_uint64 1) (B "a"); Sortable (float64_of_uint64 2) (B "b")] 1 0
  = Some false.
Proof.
  apply (Less_strict_order
           [Sortable (float64_of_uint64 1) (B "a"); Sortable (float64_of_uint64 2) (B "b")]
           0 1 0).
  vm_compute. reflexivity.
Defined.

(** X29.  [Swap] with two indices in range exchanges the two entries and
    touches nothing else: the length and every other entry are kept, and a
    second [Swap] of the same indices restores the slice. *)
Theorem Swap_exchanges (s s' : sortableSlice) (i j : Z) :
  Swap s i j = Some s' ->
  index s' i = index s j /\ index s' j = index s i /\
  (forall k, k <> i -> k <> j -> index s' k = index s k) /\
  Len s' = Len s /\
  Swap s' i j = Some s.
Proof.
  unfold Swap. destruct (index s j) as [b|] eqn:Hj; [|done].
  destruct (index s i) as [a|] eqn:Hi; [|done]. simpl. intros [= <-].
  apply index_Some in Hi as [Hi0 Hi]. apply index_Some in Hj as [Hj0 Hj].
  pose proof (lookup_lt_Some _ _ _ Hi) as Hli. pose proof (lookup_lt_Some _ _ _ Hj) as Hlj.
  assert (Hsi : index (<[Z.to_nat j := a]> (<[Z.to_nat i := b]> s)) i = Some b).
  { apply (proj2 (index_Some _ _ _)). split; [done|].
    destruct (decide (Z.to_nat j = Z.to_nat i)) as [Heq|Hne].
    - rewrite Heq in Hj |- *. rewrite list_lookup_insert_eq by (by rewrite length_insert).
      congruence.
    - rewrite list_lookup_insert_ne by done. by rewrite list_lookup_insert_eq. }
  assert (Hsj : index (<[Z.to_nat j := a]> (<[Z.to_nat i := b]> s)) j = Some a).
  { apply (proj2 (index_Some _ _ _)). split; [done|].
    rewrite list_lookup_insert_eq by (by rewrite length_insert). done. }
  rewrite Hsi, Hsj. simpl.
  split; [done|]. split; [done|].
  split; [|split].
  - intros k Hki Hkj. unfold index. destruct (Z.ltb_spec k 0); [done|].
    rewrite !list_lookup_insert_ne by lia. done.
  - unfold Len. by rewrite !length_insert.
  - f_equal. apply list_eq. intros n.
    destruct (decide (n = Z.to_nat j)) as [->|Hnj].
    { rewrite list_lookup_insert_eq by (by rewrite !length_insert). done. }
    rewrite list_lookup_insert_ne by done.
    destruct (decide (n = Z.to_nat i)) as [->|Hni].
    { rewrite list_lookup_insert_eq by (by rewrite !length_insert). done. }
    rewrite !list_lookup_insert_ne by done. done.
Qed.

Lemma Swap_exchanges_witness :
  Swap [Sortable (float64_of_uint64 2) (B "b"); Sortable (float64_of_uint64 1) (B "a")] 0 1
  = Some [Sortable (float64_of_uint64 1) (B "a"); Sortable (float64_of_uint64 2) (B "b")].
Proof.
  apply (Swap_exchanges
           [Sortable (float64_of_uint64 1) (B "a"); Sortable (float64_of_uint64 2) (B "b")]
           [Sortable (float64_of_uint64 2) (B "b"); Sortable (float64_of_uint64 1) (B "a")] 0 1).
  reflexivity.
Defined.

(** ** Synchronisation, continued *)

Lemma processRequest_synced cfg now g rs data g' rs' :
  processRequest cfg now g rs data = Some (g', rs') ->
  (synced rs' = true ->
   synced rs = false \/ is_Some (respBuffer rs) ->
   exists buf c p, carvePacket data = (buf, inr (c, p)) /\ code c = COM_QUERY) /\
  (synced rs' = false -> synced rs = false \/ is_Some (respBuffer rs)).
Proof.
  unfold processRequest. intros H.
  destruct rs as [hp ip sy rb pb rsent rt qb qd qt]; simpl in H |- *.
  destruct (carvePacket data) as [buf [e|[pType pData]]] eqn:Hcarve.
  - destruct pb; simplify_eq/=; split; try done; eauto.
    intros -> [?|[? ?]]; done.
  - assert (Hq : (code pType =? COM_QUERY) = true ->
              exists buf0 c p, (buf, @inr carveError _ (pType, pData)) = (buf0, inr (c, p)) /\
                               code c = COM_QUERY).
    { intros Hc%Z.eqb_eq. by exists buf, pType, pData. }
    destruct pb as [b|]; simpl in H.
    + destruct (code pType =? COM_QUERY) eqn:Hc; simpl in H.
      * split; [intros _ _; by apply Hq|]. intros _. right. eauto.
      * simplify_eq/=. split; [done|]. intros _. right. eauto.
    + destruct sy; simpl in H.
      * split; [by intros _ [?|[? ?]]|].
        destruct (code pType =? COM_QUERY) eqn:Hc; simpl in H.
        -- destruct (parseComQuery pData) as [[e|q]|]; simplify_eq/=; try done.
           destruct (formatQueryText _ _ _) as [text|] eqn:Ht; simplify_eq/=. done.
        -- destruct (formatQueryText _ _ _) as [text|] eqn:Ht; simplify_eq/=. done.
      * destruct (code pType =? COM_QUERY) eqn:Hc; simpl in H.
        -- split; [intros _ _; by apply Hq|]. intros _. by left.
        -- simplify_eq/=. split; [done|]. intros _. by left.
Qed.

(** X30.  A flow becomes synchronised only on a [COM_QUERY] frame, and
    loses synchronisation only by a desync: when a processed segment
    leaves its flow synchronised and the flow was new, unsynchronised or
    held unanswered response bytes, the segment is a request that frames a
    [COM_QUERY]; when it leaves a synchronised flow unsynchronised, it is a
    request that found response bytes unanswered. *)
Theorem synced_transitions (cfg : config) (g g' : globals) (seg : segment) (rs' : source) :
  handlePacket cfg g seg = Some g' ->
  seg_payload seg <> [] ->
  chmap g' !! seg_src seg = Some rs' ->
  (synced rs' = true ->
   (forall rs, chmap g !! seg_src seg = Some rs -> synced rs = false) ->
   seg_request seg = true /\
   exists c, framedCommand (seg_payload seg) = Some c /\ code c = COM_QUERY) /\
  (synced rs' = false ->
   forall rs, chmap g !! seg_src seg = Some rs -> synced rs = true ->
   seg_request seg = true /\ is_Some (respBuffer rs)).
Proof.
  intros H He Hl'.
  destruct (handlePacket_step _ _ _ _ H He) as (g1 & rs & g2 & rs2 & Hflow & Hpp & ->).
  simpl in Hl'. rewrite lookup_insert_eq in Hl'. injection Hl' as ->.
  unfold processPacket in Hpp.
  set (g1' := if synced rs then _ else _) in Hpp. clearbody g1'.
  destruct (seg_request seg) eqn:Hr.
  - apply processRequest_synced in Hpp as [Hon Hoff]. split.
    + intros Hs Hun. split; [done|].
      destruct Hon as (buf & c & p & Hcarve & Hc); [done| |].
      * left. destruct Hflow as [[Hl _]|(_ & [ip ->] & _)]; [by apply Hun|done].
      * exists c. unfold framedCommand. by rewrite Hcarve.
    + intros Hs rs0 Hl0 Hs0. split; [done|].
      destruct Hflow as [[Hl _]|(Hl & _)]; [|congruence].
      rewrite Hl in Hl0. injection Hl0 as <-.
      destruct (Hoff Hs) as [?|?]; [congruence|done].
  - injection Hpp as Heq.
    assert (synced rs' = synced rs) as Hsame.
    { assert (rs' = (processResponse (seg_now seg) (seg_randn seg) g1' rs
                       (Some (seg_payload seg))).2) as -> by (by rewrite Heq).
      unfold processResponse.
      destruct rs as [hp ip sy rb pb rsent rt qb qd qt]; simpl.
      destruct pb, rsent, qd; simpl; done. }
    split.
    + intros Hs Hun. exfalso. rewrite Hsame in Hs.
      destruct Hflow as [[Hl _]|(_ & [ip ->] & _)]; [|done].
      specialize (Hun _ Hl). congruence.
    + intros Hs rs0 Hl0 Hs0. exfalso.
      destruct Hflow as [[Hl _]|(Hl & _)]; [|congruence].
      rewrite Hl in Hl0. injection Hl0 as <-. congruence.
Qed.

Lemma synced_transitions_witness :
  exists g' rs', handlePacket cfg0 initial q1 = Some g' /\
    chmap g' !! client = Some rs' /\
    (synced rs' = true ->
     (forall rs, chmap initial !! client = Some rs -> synced rs = false) ->
     seg_request q1 = true /\
     exists c, framedCommand (seg_payload q1) = Some c /\ code c = COM_QUERY).
Proof.
  destruct (handlePacket cfg0 initial q1) as [g'|] eqn:H1; [|vm_compute in H1; discriminate].
  destruct (handlePacket_flow cfg0 initial q1 g' H1) as (rs & rs' & _ & Hl & _); [discriminate|].
  exists g', rs'. split; [reflexivity|]. split; [exact Hl|].
  apply (synced_transitions cfg0 initial g' q1 rs' H1); [discriminate|exact Hl].
Defined.
